(** * TTauri GUI: device selection, queue negotiation and pipeline lifecycle

  A shallow embedding of
  - [Device::findBestQueueFamilyIndices] and [Device::score], and of
    [Device::initializeDevice], [add], [remove] and [frameUpdate]
    (TTauri Shared/Toolkit/GUI/Device.cpp),
  - [Instance_base::findBestDeviceForWindow]
    (TTauri/GUI/src/Instance_base.cpp),
  - [Window_base::setDevice]
    (TTauri/GUI/src/Window_base.cpp),
  - the [std::sort] that Device.cpp calls, as a contract and as GNU
    libstdc++ implements it,
  - the [Pipeline_vulkan] build / teardown / render operations
    (TTauri/GUI/Pipeline_vulkan.cpp),
  followed by the properties established about them. *)

From Stdlib Require Import ZArith Lia Bool.
From stdpp Require Import base tactics option list sorting gmap.

(** ** 32-bit machine integers *)

(** [uint32_t] values are integers in [0, 2^32); additions wrap around.
  [to_int] is the conversion performed by [return score;] in a function
  returning [int]. *)
Module UInt32.
Definition modulus : Z := 4294967296.
Definition wrap (z : Z) : Z := (z mod modulus)%Z.
Definition add (a b : Z) : Z := wrap (a + b).
Definition to_int (u : Z) : Z :=
  if (u <? 2147483648)%Z then u else (u - modulus)%Z.
Definition fits (n : nat) : Prop := (Z.of_nat n < modulus)%Z.
Definition fitsb (n : nat) : bool := (Z.of_nat n <? modulus)%Z.
End UInt32.

(** ** The Vulkan enumerations the code switches on *)

Module Vk.
Inductive PresentModeKHR :=
| eImmediate | eMailbox | eFifo | eFifoRelaxed
| eSharedDemandRefresh | eSharedContinuousRefresh.

Inductive ColorSpaceKHR :=
| eSrgbNonlinear
| eDisplayP3NonlinearEXT
| eExtendedSrgbLinearEXT
| eDciP3LinearEXT
| eBt709LinearEXT
| eBt2020LinearEXT
| eHdr10St2084EXT
| eAdobergbLinearEXT
| ePassThroughEXT
| eExtendedSrgbNonlinearEXT.

(** Only the formats named in the code are listed by name; every other
    [VkFormat] value is [eFormat raw]. *)
Inductive Format :=
| eUndefined
| eR8G8B8Unorm
| eR16G16B16A16Sfloat
| eFormat (raw : positive).

Inductive PhysicalDeviceType :=
| eOther | eIntegratedGpu | eDiscreteGpu | eVirtualGpu | eCpu.

Record SurfaceFormatKHR := mkSurfaceFormat
  { format : Format; colorSpace : ColorSpaceKHR }.

(** [vk::QueueFlagBits] *)
Definition eGraphics : Z := 1.
Definition eCompute : Z := 2.
Definition eTransfer : Z := 4.
Definition eSparseBinding : Z := 8.

(** [flags & bit] converted to [bool]. *)
Definition has_flag (flags bit : Z) : bool := negb (Z.land flags bit =? 0)%Z.

#[global] Instance PresentModeKHR_eq_dec : EqDecision PresentModeKHR.
Proof. solve_decision. Defined.
#[global] Instance Format_eq_dec : EqDecision Format.
Proof. solve_decision. Defined.
#[global] Instance ColorSpaceKHR_eq_dec : EqDecision ColorSpaceKHR.
Proof. solve_decision. Defined.
#[global] Instance SurfaceFormatKHR_eq_dec : EqDecision SurfaceFormatKHR.
Proof. solve_decision. Defined.
End Vk.

(** ** Queue capabilities *)

Module QueueCapabilities.

(** Modelled from the spec: the [QueueCapabilities] value type, declared in
    Queue.hpp, which is not among the sources.  Section 3 of the
    specification describes it as the three flags graphics / present /
    compute with derived predicates and the union and difference
    operators. *)
Record t := mk
  { handlesGraphics : bool; handlesCompute : bool; handlesPresent : bool }.

(** Modelled from the spec: the default-constructed value (Queue.hpp is
    missing); [findBestQueueFamilyIndices] sets a flag only when the family
    has the capability, so a fresh value handles nothing. *)
Definition empty : t := mk false false false.

(** Modelled from the spec: the derived predicates of section 3, named as
    Device.cpp calls them (Queue.hpp is missing). *)
Definition handlesEverything (c : t) : bool :=
  handlesGraphics c && handlesCompute c && handlesPresent c.
Definition handlesGraphicsAndPresent (c : t) : bool :=
  handlesGraphics c && handlesPresent c.
Definition handlesGraphicsAndCompute (c : t) : bool :=
  handlesGraphics c && handlesCompute c.

(** Modelled from the spec: [self.handlesAllOff(other)] (Queue.hpp is
    missing).  Section 4.1: a family is accepted only if its capability set
    is not a subset of the capabilities already accumulated; the test is
    whether every role of [other] is a role of [self]. *)
Definition handlesAllOff (self other : t) : bool :=
  (handlesGraphics self || negb (handlesGraphics other))
  && (handlesCompute self || negb (handlesCompute other))
  && (handlesPresent self || negb (handlesPresent other)).

(** Modelled from the spec: [operator-], the set difference of section 3
    (Queue.hpp is missing): the roles of [a] that [b] lacks. *)
Definition diff (a b : t) : t :=
  mk (handlesGraphics a && negb (handlesGraphics b))
     (handlesCompute a && negb (handlesCompute b))
     (handlesPresent a && negb (handlesPresent b)).

(** Modelled from the spec: [operator|=], the set union of section 3
    (Queue.hpp is missing). *)
Definition union (a b : t) : t :=
  mk (handlesGraphics a || handlesGraphics b)
     (handlesCompute a || handlesCompute b)
     (handlesPresent a || handlesPresent b).

(** Modelled from the spec: [score()] (Queue.hpp is missing).  Section 4.1:
    the score rewards families that cover all three roles highest, then
    graphics+present, then each individual role.  The weights are those of
    the score that Device.cpp:135-140 computes for the log (see
    [Device.familyScore] below). *)
Definition score (c : t) : Z :=
  let s0 := 0%Z in
  let s1 := UInt32.add s0 (if handlesEverything c then 10 else 0) in
  let s2 := UInt32.add s1 (if handlesGraphicsAndPresent c then 5 else 0) in
  let s3 := UInt32.add s2 (if handlesGraphics c then 1 else 0) in
  let s4 := UInt32.add s3 (if handlesPresent c then 1 else 0) in
  UInt32.add s4 (if handlesCompute c then 1 else 0).

(** Number of roles in a capability set (used to measure covers). *)
Definition card (c : t) : nat :=
  (if handlesGraphics c then 1 else 0)
  + (if handlesCompute c then 1 else 0)
  + (if handlesPresent c then 1 else 0).

Definition union_list (l : list t) : t := foldr union empty l.

#[global] Instance eq_dec : EqDecision t.
Proof. solve_decision. Defined.
End QueueCapabilities.

Abbreviation QC := QueueCapabilities.t.

(** ** Device: queue-family negotiation and scoring *)

Module Device.
Import QueueCapabilities.

(** What the code asks of a [vk::PhysicalDevice] and of the helper predicates
    of vulkan_utils.hpp.  [hasRequiredFeatures], [meetsRequiredLimits] and
    [hasRequiredExtensions] are the results of the three checks against the
    instance's manifest; [getSurfaceSupportKHR] is the per-index present
    support on the window's surface. *)
Record PhysicalDevice := mkPhysicalDevice
  { hasRequiredFeatures : bool;
    meetsRequiredLimits : bool;
    hasRequiredExtensions : bool;
    getQueueFamilyProperties : list Z;       (* queueFlags of each family *)
    getSurfaceSupportKHR : nat -> bool;
    getSurfaceFormatsKHR : list Vk.SurfaceFormatKHR;
    getSurfacePresentModesKHR : list Vk.PresentModeKHR;
    deviceType : Vk.PhysicalDeviceType }.

(** The members of [Device] that [score] reads and writes. *)
Record t := mk
  { physicalIntrinsic : PhysicalDevice;
    queueFamilyIndicesAndCapabilities : list (nat * QC);
    bestSurfaceFormat : Vk.SurfaceFormatKHR;
    bestSurfacePresentMode : Vk.PresentModeKHR }.

Definition scoreIsGreater (a b : nat * QC) : bool :=
  (score b.2 <? score a.2)%Z.

(** Capabilities of family [index] as computed in the first loop of
    [findBestQueueFamilyIndices]. *)
Definition capabilitiesOf (pd : PhysicalDevice) (index : nat) (queueFlags : Z) : QC :=
  QueueCapabilities.mk
    (Vk.has_flag queueFlags Vk.eGraphics)
    (Vk.has_flag queueFlags Vk.eCompute)
    (getSurfaceSupportKHR pd index).

(** The local [score] of the first loop (lines 135-140).  It is only written
    to the log; the sort compares [QueueCapabilities::score()]. *)
Definition familyScore (capabilities : QC) : Z :=
  let score := 0%Z in
  let score := UInt32.add score (if handlesEverything capabilities then 10 else 0) in
  let score := UInt32.add score (if handlesGraphicsAndPresent capabilities then 5 else 0) in
  let score := UInt32.add score (if handlesGraphics capabilities then 1 else 0) in
  let score := UInt32.add score (if handlesPresent capabilities then 1 else 0) in
  UInt32.add score (if handlesCompute capabilities then 1 else 0).

(** [queueFamilieScores] before sorting: one entry per family, in
    enumeration order, tagged with its index.  (The number of families is a
    [uint32_t] count, so [index++] does not wrap.) *)
Definition queueFamilieScores (pd : PhysicalDevice) : list (nat * QC) :=
  imap (fun index queueFlags => (index, capabilitiesOf pd index queueFlags))
       (getQueueFamilyProperties pd).

(** Body of the second loop: accept a family when the running total does not
    already handle all of its roles, record the difference, extend the
    total. *)
Definition greedyStep (st : list (nat * QC) * QC) (queueFamilyScore : nat * QC)
  : list (nat * QC) * QC :=
  let '(result, totalCapabilities) := st in
  let index := queueFamilyScore.1 in
  let capabilities := queueFamilyScore.2 in
  if negb (handlesAllOff totalCapabilities capabilities)
  then (result ++ [(index, diff capabilities totalCapabilities)],
        union totalCapabilities capabilities)
  else (result, totalCapabilities).

Definition greedy (sorted : list (nat * QC)) : list (nat * QC) :=
  (foldl greedyStep ([], empty) sorted).1.

(** What the C++ standard promises of [std::sort(first, last, comp)]: the
    result is a rearrangement of the input in which no element is followed
    (at any distance) by one that [comp] puts before it.  Nothing is
    promised about the relative order of elements that [comp] does not
    distinguish. *)
Definition std_sort_contract {A} (comp : A -> A -> bool)
    (sort : list A -> list A) : Prop :=
  forall l, sort l ≡ₚ l /\ StronglySorted (fun a b => comp b a = false) (sort l).

Section WithSort.
(** The call [sort(begin, end, scoreIsGreater)]. *)
Variable sort : list (nat * QC) -> list (nat * QC).

(** [queueFamilieScores] after the call to [sort]: the order in which the
    second loop visits the families. *)
Definition sortedQueueFamilieScores (pd : PhysicalDevice) : list (nat * QC) :=
  sort (queueFamilieScores pd).

Definition findBestQueueFamilyIndices (pd : PhysicalDevice) : list (nat * QC) :=
  greedy (sortedQueueFamilieScores pd).

(** Score of one surface format; [None] is the [continue] of either
    switch. *)
Definition surfaceFormatScore (f : Vk.SurfaceFormatKHR) : option Z :=
  let score := 0%Z in
  match (match Vk.colorSpace f with
         | Vk.eSrgbNonlinear => Some (UInt32.add score 1)
         | Vk.eExtendedSrgbNonlinearEXT => Some (UInt32.add score 100)
         | _ => None
         end) with
  | None => None
  | Some score =>
      match Vk.format f with
      | Vk.eR8G8B8Unorm => Some (UInt32.add score 1)
      | Vk.eR16G16B16A16Sfloat => Some (UInt32.add score 10)
      | Vk.eUndefined => Some (UInt32.add score 2)
      | _ => None
      end
  end.

Definition surfaceFormatStep (st : Z * Vk.SurfaceFormatKHR) (f : Vk.SurfaceFormatKHR)
  : Z * Vk.SurfaceFormatKHR :=
  match surfaceFormatScore f with
  | None => st
  | Some score => if (st.1 <? score)%Z then (score, f) else st
  end.

Definition presentModeScore (m : Vk.PresentModeKHR) : option Z :=
  let score := 0%Z in
  match m with
  | Vk.eImmediate => Some (UInt32.add score 1)
  | Vk.eFifoRelaxed => Some (UInt32.add score 2)
  | Vk.eFifo => Some (UInt32.add score 3)
  | Vk.eMailbox => Some (UInt32.add score 10)
  | _ => None
  end.

Definition presentModeStep (st : Z * Vk.PresentModeKHR) (m : Vk.PresentModeKHR)
  : Z * Vk.PresentModeKHR :=
  match presentModeScore m with
  | None => st
  | Some score => if (st.1 <? score)%Z then (score, m) else st
  end.

Definition deviceTypeScore (ty : Vk.PhysicalDeviceType) : Z :=
  match ty with
  | Vk.eCpu => 1
  | Vk.eOther => 1
  | Vk.eVirtualGpu => 2
  | Vk.eIntegratedGpu => 3
  | Vk.eDiscreteGpu => 4
  end.

(** [Device::score]: the returned [int] and the device with the members the
    call has written. *)
Definition score (d : t) : Z * t :=
  let pd := physicalIntrinsic d in
  let score := 0%Z in
  if negb (hasRequiredFeatures pd) then (-1, d)%Z
  else if negb (meetsRequiredLimits pd) then (-1, d)%Z
  else if negb (hasRequiredExtensions pd) then (-1, d)%Z
  else
    let qfic := findBestQueueFamilyIndices pd in
    let d := mk pd qfic (bestSurfaceFormat d) (bestSurfacePresentMode d) in
    let deviceCapabilities := foldl (fun acc x => union acc x.2) empty qfic in
    if negb (handlesGraphicsAndCompute deviceCapabilities) then (-1, d)%Z
    else if negb (handlesPresent deviceCapabilities) then (0, d)%Z
    else
      let '(bestSurfaceFormatScore, bsf) :=
        foldl surfaceFormatStep (0%Z, bestSurfaceFormat d) (getSurfaceFormatsKHR pd) in
      let d := mk pd qfic bsf (bestSurfacePresentMode d) in
      let score := UInt32.add score bestSurfaceFormatScore in
      if (score <? bestSurfaceFormatScore)%Z then (0, d)%Z
      else
        let '(bestSurfacePresentModeScore, bspm) :=
          foldl presentModeStep (0%Z, bestSurfacePresentMode d)
                (getSurfacePresentModesKHR pd) in
        let d := mk pd qfic bsf bspm in
        let score := UInt32.add score bestSurfacePresentModeScore in
        if (score <? bestSurfacePresentModeScore)%Z then (0, d)%Z
        else
          let score := UInt32.add score (deviceTypeScore (deviceType pd)) in
          (UInt32.to_int score, d).

End WithSort.
End Device.

(** Two sorting procedures that meet [std_sort_contract] for
    [scoreIsGreater].  Both are insertion sorts; they differ only in where an
    element is placed among those the comparison does not distinguish. *)
Module Sorts.

(** Place [x] before the first element that does not strictly precede it:
    ties keep their original order. *)
Fixpoint insert_stable {A} (comp : A -> A -> bool) (x : A) (l : list A) : list A :=
  match l with
  | [] => [x]
  | y :: l' => if comp y x then y :: insert_stable comp x l' else x :: y :: l'
  end.

Definition stable_sort {A} (comp : A -> A -> bool) (l : list A) : list A :=
  foldr (insert_stable comp) [] l.

(** Place [x] before the first element it strictly precedes: ties end up in
    reverse order. *)
Fixpoint insert_last {A} (comp : A -> A -> bool) (x : A) (l : list A) : list A :=
  match l with
  | [] => [x]
  | y :: l' => if comp x y then x :: y :: l' else y :: insert_last comp x l'
  end.

Definition reversing_sort {A} (comp : A -> A -> bool) (l : list A) : list A :=
  foldr (insert_last comp) [] l.

End Sorts.

(** [std::sort] as GNU libstdc++ implements it ([std::__sort] in
    bits/stl_algo.h): an introsort that partitions ranges of more than 16
    elements around a median of three and finishes with an insertion
    sort. *)
Module Libstdcxx.
Section Sort.
Context {A : Type} (comp : A -> A -> bool).

(** The vector is a list and iterators are positions in it.  [None]
    stands for a read or write out of range. *)
Definition iter_swap (v : list A) (i j : nat) : option (list A) :=
  x ← v !! i; y ← v !! j; Some (<[j := x]> (<[i := y]> v)).

(** [__unguarded_linear_insert(last, comp)], with [val = *last]: shift the
    elements that [val] precedes one place up and put [val] below them. *)
Fixpoint unguarded_linear_insert (val : A) (v : list A) (last : nat) : option (list A) :=
  match last with
  | O => None
  | S next =>
      x ← v !! next;
      if comp val x then unguarded_linear_insert val (<[last := x]> v) next
      else Some (<[last := val]> v)
  end.

(** Body of the loop of [__insertion_sort(first, last, comp)] at [i]: an
    element that precedes [*first] is moved to the front
    ([move_backward]), any other is inserted unguarded. *)
Definition insertion_step (first : nat) (v : option (list A)) (i : nat) : option (list A) :=
  v ← v;
  val ← v !! i;
  x ← v !! first;
  if comp val x
  then Some (take first v ++ val :: take (i - first) (drop first v) ++ drop (S i) v)
  else unguarded_linear_insert val v i.

Definition insertion_sort (first last : nat) (v : list A) : option (list A) :=
  if decide (first = last) then Some v
  else foldl (insertion_step first) (Some v) (seq (S first) (last - S first)).

Definition unguarded_insertion_sort (first last : nat) (v : list A) : option (list A) :=
  foldl (fun v i => v ← v; val ← v !! i; unguarded_linear_insert val v i)
        (Some v) (seq first (last - first)).

Definition S_threshold : nat := 16.

Definition final_insertion_sort (first last : nat) (v : list A) : option (list A) :=
  if decide (S_threshold < last - first) then
    v ← insertion_sort first (first + S_threshold) v;
    unguarded_insertion_sort (first + S_threshold) last v
  else insertion_sort first last v.

(** [__move_median_to_first(result, a, b, c, comp)]. *)
Definition move_median_to_first (v : list A) (result a b c : nat) : option (list A) :=
  va ← v !! a; vb ← v !! b; vc ← v !! c;
  if comp va vb then
    if comp vb vc then iter_swap v result b
    else if comp va vc then iter_swap v result c
    else iter_swap v result a
  else if comp va vc then iter_swap v result a
  else if comp vb vc then iter_swap v result c
  else iter_swap v result b.

(** The two inner loops of [__unguarded_partition]:
    [while (comp(first, pivot)) ++first] and
    [while (comp(pivot, last)) --last]. *)
Fixpoint scan_up (fuel : nat) (v : list A) (pivot first : nat) : option nat :=
  match fuel with
  | O => None
  | S fuel' =>
      x ← v !! first; p ← v !! pivot;
      if comp x p then scan_up fuel' v pivot (S first) else Some first
  end.

Fixpoint scan_down (v : list A) (pivot last : nat) : option nat :=
  x ← v !! last; p ← v !! pivot;
  if comp p x then
    match last with
    | O => None
    | S last' => scan_down v pivot last'
    end
  else Some last.

(** [__unguarded_partition(first, last, pivot, comp)]: the cut and the
    vector as the swaps leave it. *)
Fixpoint unguarded_partition (fuel : nat) (v : list A) (first last pivot : nat)
  : option (nat * list A) :=
  match fuel with
  | O => None
  | S fuel' =>
      first ← scan_up (length v) v pivot first;
      match last with
      | O => None
      | S last =>
          last ← scan_down v pivot last;
          if negb (first <? last) then Some (first, v)
          else v ← iter_swap v first last;
               unguarded_partition fuel' v (S first) last pivot
      end
  end.

Definition unguarded_partition_pivot (v : list A) (first last : nat)
  : option (nat * list A) :=
  let mid := first + (last - first) / 2 in
  v ← move_median_to_first v first (first + 1) mid (last - 1);
  unguarded_partition (length v) v (first + 1) last first.

(** [__introsort_loop(first, last, depth_limit, comp)].  The fallback to
    [__partial_sort] (a heap sort) taken when the depth limit is used up is
    not modelled: the result is [None] there. *)
Fixpoint introsort_loop (fuel : nat) (v : list A) (first last depth_limit : nat)
  : option (list A) :=
  match fuel with
  | O => None
  | S fuel' =>
      if decide (S_threshold < last - first) then
        match depth_limit with
        | O => None
        | S depth_limit =>
            r ← unguarded_partition_pivot v first last;
            v ← introsort_loop fuel' r.2 r.1 last depth_limit;
            introsort_loop fuel' v first r.1 depth_limit
        end
      else Some v
  end.

(** [std::sort(v.begin(), v.end(), comp)]. *)
Definition sort (v : list A) : option (list A) :=
  match v with
  | [] => Some v
  | _ =>
      v ← introsort_loop (length v) v 0 (length v) (Nat.log2 (length v) * 2);
      final_insertion_sort 0 (length v) v
  end.
End Sort.
End Libstdcxx.

(** ** Instance: choosing the device for a window *)

Module Instance_base.
Section WithSort.
Variable sort : list (nat * QC) -> list (nat * QC).

(** Body of the loop over [devices]; the candidate is identified by its
    position in [devices] (the [Device *] the code keeps). *)
Definition selectStep (st : Z * option nat) (e : nat * Z) : Z * option nat :=
  let '(bestScore, bestDevice) := st in
  let '(device, score) := e in
  if (bestScore <=? score)%Z then (score, Some device) else (bestScore, bestDevice).

(** [findBestDeviceForWindow]: the chosen device ([None] is [nullptr]) and
    the devices as [score] has left them. *)
Definition findBestDeviceForWindow (devices : list Device.t)
  : option nat * list Device.t :=
  let scored := map (Device.score sort) devices in
  let '(bestScore, bestDevice) :=
    foldl selectStep ((-1)%Z, None) (imap (fun i r => (i, r.1)) scored) in
  (if (bestScore =? -1)%Z then None else bestDevice, map snd scored).

End WithSort.
End Instance_base.

(** ** Pipeline_vulkan: build, teardown and render *)

Module Pipeline_vulkan.

(** A Vulkan object handle; [0] is the null handle of a default-constructed
    [vk::Semaphore] and the like. *)
Definition handle := N.

Record Extent2D := mkExtent { width : Z; height : Z }.
Record Rect2D := mkRect { offset : Z * Z; extent : Extent2D }.
(** A viewport at the origin with depth range 0..1 spanning [viewportExtent]
    (its width and height are the extent's, converted to [float]). *)
Record Viewport := mkViewport { viewportExtent : Extent2D }.

(** The fields of [graphicsPipelineCreateInfo] that vary between builds. *)
Record GraphicsPipelineCreateInfo := mkInfo
  { stageCount : nat;
    pStages : list handle;
    infoViewports : list Viewport;
    infoScissors : list Rect2D;
    layout : handle;
    infoRenderPass : handle }.

(** Calls made on the logical device, the command buffers and the graphics
    queue, in the order they are made. *)
Inductive Call :=
| createShaderModule (path : nat) (h : handle)
| destroyShaderModule (h : handle)
| createBuffer (h : handle)
| destroyBuffer (h : handle)
| allocateDeviceMemoryAndBind (buffers : list handle) (memory : handle)
| mapMemory (memory : handle)
| unmapMemory (memory : handle)
| freeMemory (memory : handle)
| allocateCommandBuffers (count : nat) (hs : list handle)
| freeCommandBuffers (hs : list handle)
| createSemaphore (h : handle)
| destroySemaphore (h : handle)
| createPipelineLayout (h : handle)
| destroyPipelineLayout (h : handle)
| createGraphicsPipeline (info : GraphicsPipelineCreateInfo) (h : handle)
| destroyPipeline (h : handle)
| cmdReset (cb : handle)
| cmdBegin (cb : handle)
| cmdBeginRenderPass (cb renderPass framebuffer : handle) (renderArea : Rect2D)
| cmdBindPipeline (cb pipeline : handle)
| cmdBindVertexBuffers (cb : handle) (buffers : list handle) (offsets : list Z)
| drawInCommandBuffer (cb : handle)
| cmdEndRenderPass (cb : handle)
| cmdEnd (cb : handle)
| queueSubmit (waitSemaphore commandBuffer signalSemaphore : handle).

(** The members of [Pipeline_vulkan].  The vertex-input descriptions and the
    fixed-function create-infos are constants of the subclass and are left
    out, as are the members that hold the offsets, sizes and mapping of the
    vertex memory: [buildVertexBuffers] reads the offsets and sizes once,
    right after [Device_vulkan::allocateDeviceMemoryAndBind] has returned
    them (see [offsetsAndSizes] below). *)
Record t := mk
  { intrinsic : handle;
    shaderModules : list handle;
    shaderStages : list handle;
    vertexBuffers : list handle;
    vertexBufferMemory : handle;
    commandBuffers : list handle;
    commandBuffersValid : list bool;
    renderFinishedSemaphores : list handle;
    renderPass : handle;
    pipelineLayout : handle;
    viewports : list Viewport;
    scissors : list Rect2D }.

(** The state the operations run in: the pipeline object, the device (a
    supply of fresh handles and the log of calls) and the framebuffers of the
    window the pipeline belongs to. *)
Record State := mkState
  { this : t;
    nextHandle : N;
    calls : list Call;
    swapchainFramebuffers : list handle }.

(** A freshly constructed pipeline. *)
Definition init : t := mk 0%N [] [] [] 0%N [] [] [] 0%N 0%N [] [].

(** Computations over [State].  [None] means the call does not return
    normally: an unguarded index was out of range (undefined behaviour) or
    [boost::numeric_cast] threw. *)
Definition M (A : Type) : Type := State -> option (A * State).

#[global] Instance M_ret : MRet M := fun A a s => Some (a, s).
#[global] Instance M_bind : MBind M := fun A B f m s =>
  match m s with
  | Some (a, s') => f a s'
  | None => None
  end.

Definition fail {A} : M A := fun _ => None.
Definition get : M t := fun s => Some (this s, s).
Definition modify (f : t -> t) : M unit := fun s =>
  Some (tt, mkState (f (this s)) (nextHandle s) (calls s) (swapchainFramebuffers s)).
Definition fresh : M handle := fun s =>
  Some (nextHandle s,
        mkState (this s) (N.succ (nextHandle s)) (calls s) (swapchainFramebuffers s)).
Definition call (c : Call) : M unit := fun s =>
  Some (tt, mkState (this s) (nextHandle s) (calls s ++ [c]) (swapchainFramebuffers s)).
Definition framebuffers : M (list handle) := fun s => Some (swapchainFramebuffers s, s).

(** [v[i]] on a [std::vector]: unguarded. *)
Definition at_ {A} (v : list A) (i : nat) : M A :=
  match v !! i with
  | Some a => mret a
  | None => fail
  end.

(** [v.back()] on a [std::vector]: unguarded. *)
Definition back {A} (v : list A) : M A :=
  match last v with
  | Some a => mret a
  | None => fail
  end.

(** Modelled from the spec: the offsets and sizes returned by
    [Device_vulkan::allocateDeviceMemoryAndBind], which is not among the
    sources.  Section 4.4 has the build allocate one vertex buffer per
    image; the call binds all of them in one allocation and returns, with
    the memory, one offset and one size per buffer.  Their values are not
    modelled, only that each vector has one entry per buffer. *)
Definition offsetsAndSizes (buffers : list handle) : list unit * list unit :=
  (map (fun _ => tt) buffers, map (fun _ => tt) buffers).

(** [boost::numeric_cast<uint32_t>] of a [size_t]. *)
Definition numeric_cast (n : nat) : M nat :=
  if UInt32.fitsb n then mret n else fail.

(** [for (auto x : l) body(x)] *)
Fixpoint for_each {A} (l : list A) (body : A -> M unit) : M unit :=
  match l with
  | [] => mret tt
  | x :: l' => body x ;; for_each l' body
  end.

(** [n] results of [m], in order. *)
Fixpoint repeatM {A} (n : nat) (m : M A) : M (list A) :=
  match n with
  | O => mret []
  | S n' => x ← m; xs ← repeatM n' m; mret (x :: xs)
  end.

(** Field updates. *)
Definition set_intrinsic (v : handle) (p : t) : t :=
  mk v (shaderModules p) (shaderStages p) (vertexBuffers p) (vertexBufferMemory p)
     (commandBuffers p) (commandBuffersValid p) (renderFinishedSemaphores p)
     (renderPass p) (pipelineLayout p) (viewports p) (scissors p).
Definition set_shaders (ms ss : list handle) (p : t) : t :=
  mk (intrinsic p) ms ss (vertexBuffers p) (vertexBufferMemory p)
     (commandBuffers p) (commandBuffersValid p) (renderFinishedSemaphores p)
     (renderPass p) (pipelineLayout p) (viewports p) (scissors p).
Definition set_vertexBuffers (v : list handle) (p : t) : t :=
  mk (intrinsic p) (shaderModules p) (shaderStages p) v (vertexBufferMemory p)
     (commandBuffers p) (commandBuffersValid p) (renderFinishedSemaphores p)
     (renderPass p) (pipelineLayout p) (viewports p) (scissors p).
Definition set_vertexBufferMemory (v : handle) (p : t) : t :=
  mk (intrinsic p) (shaderModules p) (shaderStages p) (vertexBuffers p) v
     (commandBuffers p) (commandBuffersValid p) (renderFinishedSemaphores p)
     (renderPass p) (pipelineLayout p) (viewports p) (scissors p).
Definition set_commandBuffers (v : list handle) (p : t) : t :=
  mk (intrinsic p) (shaderModules p) (shaderStages p) (vertexBuffers p)
     (vertexBufferMemory p) v (commandBuffersValid p) (renderFinishedSemaphores p)
     (renderPass p) (pipelineLayout p) (viewports p) (scissors p).
Definition set_commandBuffersValid (v : list bool) (p : t) : t :=
  mk (intrinsic p) (shaderModules p) (shaderStages p) (vertexBuffers p)
     (vertexBufferMemory p) (commandBuffers p) v (renderFinishedSemaphores p)
     (renderPass p) (pipelineLayout p) (viewports p) (scissors p).
Definition set_renderFinishedSemaphores (v : list handle) (p : t) : t :=
  mk (intrinsic p) (shaderModules p) (shaderStages p) (vertexBuffers p)
     (vertexBufferMemory p) (commandBuffers p) (commandBuffersValid p) v
     (renderPass p) (pipelineLayout p) (viewports p) (scissors p).
Definition set_renderPass (v : handle) (p : t) : t :=
  mk (intrinsic p) (shaderModules p) (shaderStages p) (vertexBuffers p)
     (vertexBufferMemory p) (commandBuffers p) (commandBuffersValid p)
     (renderFinishedSemaphores p) v (pipelineLayout p) (viewports p) (scissors p).
Definition set_pipelineLayout (v : handle) (p : t) : t :=
  mk (intrinsic p) (shaderModules p) (shaderStages p) (vertexBuffers p)
     (vertexBufferMemory p) (commandBuffers p) (commandBuffersValid p)
     (renderFinishedSemaphores p) (renderPass p) v (viewports p) (scissors p).
Definition set_viewports (v : list Viewport) (p : t) : t :=
  mk (intrinsic p) (shaderModules p) (shaderStages p) (vertexBuffers p)
     (vertexBufferMemory p) (commandBuffers p) (commandBuffersValid p)
     (renderFinishedSemaphores p) (renderPass p) (pipelineLayout p) v (scissors p).
Definition set_scissors (v : list Rect2D) (p : t) : t :=
  mk (intrinsic p) (shaderModules p) (shaderStages p) (vertexBuffers p)
     (vertexBufferMemory p) (commandBuffers p) (commandBuffersValid p)
     (renderFinishedSemaphores p) (renderPass p) (pipelineLayout p) (viewports p) v.

Section Subclass.
(** What the concrete pipeline class supplies through the pure virtual
    [createShaderModules]: the shader files it loads with [loadShader].
    [createShaderStages] yields one stage per module, which refers to it. *)
Variable shaderPaths : list nat.

Definition loadShader (path : nat) : M handle :=
  h ← fresh; call (createShaderModule path h);; mret h.

Fixpoint createShaderModules (paths : list nat) : M (list handle) :=
  match paths with
  | [] => mret []
  | p :: paths' => h ← loadShader p; hs ← createShaderModules paths'; mret (h :: hs)
  end.

Definition createShaderStages (modules : list handle) : list handle := modules.

Definition buildShaders : M unit :=
  modules ← createShaderModules shaderPaths;
  modify (set_shaders modules (createShaderStages modules)).

Definition teardownShaders : M unit :=
  p ← get;
  for_each (shaderModules p) (fun shaderModule => call (destroyShaderModule shaderModule));;
  modify (set_shaders [] []).

Definition createVertexBuffers (nrBuffers : nat) : M (list handle) :=
  repeatM nrBuffers (buffer ← fresh; call (createBuffer buffer);; mret buffer).

Definition buildVertexBuffers (nrFrameBuffers : nat) : M unit :=
  buffers ← createVertexBuffers nrFrameBuffers;
  modify (set_vertexBuffers buffers);;
  memory ← fresh;
  call (allocateDeviceMemoryAndBind buffers memory);;
  modify (set_vertexBufferMemory memory);;
  let '(vertexBufferOffsets, vertexBufferSizes) := offsetsAndSizes buffers in
  (* [vertexBufferDataSize = vertexBufferOffsets.back() + vertexBufferSizes.back()] *)
  _ ← back vertexBufferOffsets;
  _ ← back vertexBufferSizes;
  call (mapMemory memory).

Definition teardownVertexBuffers : M unit :=
  p ← get;
  call (unmapMemory (vertexBufferMemory p));;
  call (freeMemory (vertexBufferMemory p));;
  modify (set_vertexBufferMemory 0%N);;
  for_each (vertexBuffers p) (fun buffer => call (destroyBuffer buffer));;
  modify (set_vertexBuffers []).

(** The loop of [invalidateCommandBuffers], over
    [imageIndex = 0 .. commandBuffersValid.size() - 1]. *)
Definition invalidateCommandBuffers : M unit :=
  p ← get;
  for_each (seq 0 (length (commandBuffersValid p))) (fun imageIndex =>
    p ← get;
    _ ← at_ (commandBuffersValid p) imageIndex;
    modify (set_commandBuffersValid (<[imageIndex := false]> (commandBuffersValid p)))).

Definition buildCommandBuffers (nrFrameBuffers : nat) : M unit :=
  count ← numeric_cast nrFrameBuffers;
  hs ← repeatM count fresh;
  call (allocateCommandBuffers count hs);;
  modify (set_commandBuffers hs);;
  p ← get;
  modify (set_commandBuffersValid (resize nrFrameBuffers false (commandBuffersValid p)));;
  invalidateCommandBuffers.

Definition teardownCommandBuffers : M unit :=
  p ← get;
  call (freeCommandBuffers (commandBuffers p));;
  modify (set_commandBuffers []);;
  modify (set_commandBuffersValid []).

Definition buildSemaphores (nrFrameBuffers : nat) : M unit :=
  p ← get;
  modify (set_renderFinishedSemaphores
            (resize nrFrameBuffers 0%N (renderFinishedSemaphores p)));;
  for_each (seq 0 nrFrameBuffers) (fun i =>
    semaphore ← fresh;
    call (createSemaphore semaphore);;
    p ← get;
    _ ← at_ (renderFinishedSemaphores p) i;
    modify (set_renderFinishedSemaphores (<[i := semaphore]> (renderFinishedSemaphores p)))).

Definition teardownSemaphores : M unit :=
  p ← get;
  for_each (seq 0 (length (renderFinishedSemaphores p))) (fun i =>
    semaphore ← at_ (renderFinishedSemaphores p) i;
    call (destroySemaphore semaphore));;
  modify (set_renderFinishedSemaphores []).

Definition createViewports (extent : Extent2D) : list Viewport := [mkViewport extent].
Definition createScissors (extent : Extent2D) : list Rect2D := [mkRect (0%Z, 0%Z) extent].

(** [buildPipeline].  Of the create-infos only the parts that change from
    one build to the next are kept: the shader stages, the viewport and
    scissor of the extent, the layout and the render pass.  The cast of
    [shaderStages.size()] is modelled; the casts of the sizes of the
    subclass's constant vectors (push-constant ranges, vertex attributes,
    blend attachments) and of the one-element viewport and scissor vectors
    are not. *)
Definition buildPipeline (_renderPass : handle) (extent : Extent2D) : M unit :=
  modify (set_renderPass _renderPass);;
  pipelineLayout ← fresh;
  call (createPipelineLayout pipelineLayout);;
  modify (set_pipelineLayout pipelineLayout);;
  modify (set_viewports (createViewports extent));;
  modify (set_scissors (createScissors extent));;
  p ← get;
  stageCount ← numeric_cast (length (shaderStages p));
  pipeline ← fresh;
  call (createGraphicsPipeline
          (mkInfo stageCount (shaderStages p) (viewports p) (scissors p)
                  (Pipeline_vulkan.pipelineLayout p) (renderPass p))
          pipeline);;
  modify (set_intrinsic pipeline).

Definition teardownPipeline : M unit :=
  p ← get;
  call (destroyPipeline (intrinsic p));;
  call (destroyPipelineLayout (pipelineLayout p)).

Definition buildForDeviceChange (renderPass : handle) (extent : Extent2D)
    (nrFrameBuffers : nat) : M unit :=
  buildShaders;;
  buildVertexBuffers nrFrameBuffers;;
  buildCommandBuffers nrFrameBuffers;;
  buildSemaphores nrFrameBuffers;;
  buildPipeline renderPass extent.

Definition teardownForDeviceChange : M unit :=
  teardownPipeline;;
  teardownSemaphores;;
  teardownCommandBuffers;;
  teardownVertexBuffers;;
  teardownShaders.

Definition buildForSwapchainChange (renderPass : handle) (extent : Extent2D)
    (nrFrameBuffers : nat) : M unit :=
  p ← get;
  (if decide (nrFrameBuffers ≠ length (commandBuffers p)) then
     teardownSemaphores;;
     teardownCommandBuffers;;
     teardownVertexBuffers;;
     buildVertexBuffers nrFrameBuffers;;
     buildCommandBuffers nrFrameBuffers;;
     buildSemaphores nrFrameBuffers
   else mret tt);;
  invalidateCommandBuffers;;
  buildPipeline renderPass extent.

Definition teardownForSwapchainChange : M unit :=
  teardownPipeline.

Definition validateCommandBuffer (imageIndex : nat) : M unit :=
  p ← get;
  valid ← at_ (commandBuffersValid p) imageIndex;
  if valid : bool then mret tt
  else
    scissor ← at_ (scissors p) 0;
    cb ← at_ (commandBuffers p) imageIndex;
    call (cmdReset cb);;
    call (cmdBegin cb);;
    (* [window] is the window that owns this pipeline; it is alive *)
    fbs ← framebuffers;
    framebuffer ← at_ fbs imageIndex;
    call (cmdBeginRenderPass cb (renderPass p) framebuffer scissor);;
    call (cmdBindPipeline cb (intrinsic p));;
    vertexBuffer ← at_ (vertexBuffers p) imageIndex;
    let tmpVertexBuffers := [vertexBuffer] in
    let tmpOffsets := map (fun _ => 0%Z) tmpVertexBuffers in
    call (cmdBindVertexBuffers cb tmpVertexBuffers tmpOffsets);;
    call (drawInCommandBuffer cb);;
    call (cmdEndRenderPass cb);;
    call (cmdEnd cb);;
    modify (set_commandBuffersValid (<[imageIndex := true]> (commandBuffersValid p))).

Definition render (imageIndex : nat) (inputSemaphore : handle) : M handle :=
  validateCommandBuffer imageIndex;;
  p ← get;
  signalSemaphore ← at_ (renderFinishedSemaphores p) imageIndex;
  cb ← at_ (commandBuffers p) imageIndex;
  call (queueSubmit inputSemaphore cb signalSemaphore);;
  at_ (renderFinishedSemaphores p) imageIndex.

(** The operations a window performs on a pipeline. *)
Inductive Op :=
| OpBuildForDeviceChange (renderPass : handle) (extent : Extent2D) (nrFrameBuffers : nat)
| OpTeardownForDeviceChange
| OpBuildForSwapchainChange (renderPass : handle) (extent : Extent2D) (nrFrameBuffers : nat)
| OpTeardownForSwapchainChange
| OpInvalidateCommandBuffers
| OpRender (imageIndex : nat) (inputSemaphore : handle).

Definition run (op : Op) : M unit :=
  match op with
  | OpBuildForDeviceChange rp e n => buildForDeviceChange rp e n
  | OpTeardownForDeviceChange => teardownForDeviceChange
  | OpBuildForSwapchainChange rp e n => buildForSwapchainChange rp e n
  | OpTeardownForSwapchainChange => teardownForSwapchainChange
  | OpInvalidateCommandBuffers => invalidateCommandBuffers
  | OpRender i sem => render i sem ;; mret tt
  end.

End Subclass.

(** A recording of a command buffer starts with [begin]. *)
Definition is_recording (c : Call) : bool :=
  match c with cmdBegin _ => true | _ => false end.
Definition recordings (s : State) : nat :=
  length (filter (fun c => is_recording c = true) (calls s)).

(** Calls that create or release vertex buffers, their memory, command
    buffers or semaphores. *)
Definition is_buffer_call (c : Call) : bool :=
  match c with
  | createBuffer _ | destroyBuffer _
  | allocateDeviceMemoryAndBind _ _ | mapMemory _ | unmapMemory _ | freeMemory _
  | allocateCommandBuffers _ _ | freeCommandBuffers _
  | createSemaphore _ | destroySemaphore _ => true
  | _ => false
  end.

Definition is_shader_call (c : Call) : bool :=
  match c with
  | createShaderModule _ _ | destroyShaderModule _ => true
  | _ => false
  end.

(** The three per-image containers have [n] entries. *)
Definition sized (n : nat) (p : t) : Prop :=
  length (commandBuffersValid p) = n
  /\ length (commandBuffers p) = n
  /\ length (renderFinishedSemaphores p) = n.

(** The three per-image containers have the same length. *)
Definition consistent (p : t) : Prop := sized (length (commandBuffers p)) p.

(** A pipeline built for [n] images of its window: the per-image containers
    and the vertex buffers have [n] entries, the window has at least [n]
    framebuffers, the scissor rectangle is set, and the shader stage count
    is a [uint32_t]. *)
Definition built (n : nat) (s : State) : Prop :=
  sized n (this s)
  /\ length (vertexBuffers (this s)) = n
  /\ n <= length (swapchainFramebuffers s)
  /\ length (scissors (this s)) = 1
  /\ UInt32.fits (length (shaderStages (this s))).

End Pipeline_vulkan.

(** ** Notions used to state the properties of scoring *)

Module Scoring.
Import Device.
(** The shape shared by the two selection loops of [score]: keep the running
    best score and its entry, replace them when an entry scores strictly
    higher, skip entries without a score. *)
Definition bestStep {A} (scoreOf : A -> option Z) (st : Z * A) (x : A) : Z * A :=
  match scoreOf x with
  | None => st
  | Some score => if (st.1 <? score)%Z then (score, x) else st
  end.

(** Adding one entry to a candidate's supported present modes or surface
    formats, at position [pos] of the enumeration. *)
Inductive Extension :=
| AddPresentMode (pos : nat) (m : Vk.PresentModeKHR)
| AddSurfaceFormat (pos : nat) (f : Vk.SurfaceFormatKHR).

Definition insert_at {A} (pos : nat) (x : A) (l : list A) : list A :=
  take pos l ++ x :: drop pos l.

Definition extendPhysicalDevice (e : Extension) (pd : PhysicalDevice) : PhysicalDevice :=
  match e with
  | AddPresentMode pos m =>
      mkPhysicalDevice (hasRequiredFeatures pd) (meetsRequiredLimits pd)
        (hasRequiredExtensions pd) (getQueueFamilyProperties pd)
        (getSurfaceSupportKHR pd) (getSurfaceFormatsKHR pd)
        (insert_at pos m (getSurfacePresentModesKHR pd)) (deviceType pd)
  | AddSurfaceFormat pos f =>
      mkPhysicalDevice (hasRequiredFeatures pd) (meetsRequiredLimits pd)
        (hasRequiredExtensions pd) (getQueueFamilyProperties pd)
        (getSurfaceSupportKHR pd) (insert_at pos f (getSurfaceFormatsKHR pd))
        (getSurfacePresentModesKHR pd) (deviceType pd)
  end.

Definition extend (e : Extension) (d : t) : t :=
  mk (extendPhysicalDevice e (physicalIntrinsic d))
     (queueFamilyIndicesAndCapabilities d) (bestSurfaceFormat d)
     (bestSurfacePresentMode d).

(** The score of the added entry, and the best score among the entries of
    the same kind the candidate already supports. *)
Definition entryScore (e : Extension) : option Z :=
  match e with
  | AddPresentMode _ m => presentModeScore m
  | AddSurfaceFormat _ f => surfaceFormatScore f
  end.

Definition currentBest (e : Extension) (d : t) : Z :=
  match e with
  | AddPresentMode _ _ =>
      (foldl presentModeStep (0%Z, bestSurfacePresentMode d)
             (getSurfacePresentModesKHR (physicalIntrinsic d))).1
  | AddSurfaceFormat _ _ =>
      (foldl surfaceFormatStep (0%Z, bestSurfaceFormat d)
             (getSurfaceFormatsKHR (physicalIntrinsic d))).1
  end.

(** A device passes when it meets the manifest and its assignment covers
    graphics, compute and present: it reaches the scoring loops. *)
Definition passes (sort : list (nat * QC) -> list (nat * QC)) (d : t) : bool :=
  let pd := physicalIntrinsic d in
  let caps := QueueCapabilities.union_list (findBestQueueFamilyIndices sort pd).*2 in
  hasRequiredFeatures pd && meetsRequiredLimits pd && hasRequiredExtensions pd
  && QueueCapabilities.handlesGraphicsAndCompute caps
  && QueueCapabilities.handlesPresent caps.

(** Four queue families as commonly exposed: graphics only, compute only,
    graphics+compute, and a present-only family. *)
Definition pd_split : PhysicalDevice :=
  mkPhysicalDevice true true true [1; 2; 3; 4]%Z (fun index => Nat.eqb index 3)
    [Vk.mkSurfaceFormat Vk.eUndefined Vk.eSrgbNonlinear]
    [Vk.eFifoRelaxed; Vk.eFifo] Vk.eDiscreteGpu.

(** The same surface and device type behind a single family that handles
    everything; its present modes are enumerated in the other order. *)
Definition pd_unified : PhysicalDevice :=
  mkPhysicalDevice true true true [3]%Z (fun _ => true)
    [Vk.mkSurfaceFormat Vk.eUndefined Vk.eSrgbNonlinear]
    [Vk.eFifo; Vk.eFifoRelaxed] Vk.eDiscreteGpu.

(** Two families of equal score: graphics only, then compute only. *)
Definition pd_ties : PhysicalDevice :=
  mkPhysicalDevice true true true [1; 2]%Z (fun _ => false) [] [] Vk.eIntegratedGpu.

(** Five families with pairwise different scores. *)
Definition pd_distinct : PhysicalDevice :=
  mkPhysicalDevice true true true [4; 1; 3; 1; 3]%Z
    (fun index => Nat.eqb index 3 || Nat.eqb index 4) [] [] Vk.eIntegratedGpu.

(** A device object before [score] has run. *)
Definition fresh (pd : PhysicalDevice) : t :=
  mk pd [] (Vk.mkSurfaceFormat Vk.eUndefined Vk.eSrgbNonlinear) Vk.eImmediate.

Definition stable : list (nat * QC) -> list (nat * QC) :=
  Sorts.stable_sort scoreIsGreater.
Definition reversing : list (nat * QC) -> list (nat * QC) :=
  Sorts.reversing_sort scoreIsGreater.
(** The call [sort(begin, end, scoreIsGreater)] with libstdc++. *)
Definition libstdcxx (l : list (nat * QC)) : list (nat * QC) :=
  default l (Libstdcxx.sort scoreIsGreater l).

(** Seventeen queue families, each with graphics, compute and present. *)
Definition pd_seventeen : PhysicalDevice :=
  mkPhysicalDevice true true true (replicate 17 3%Z) (fun _ => true) [] []
    Vk.eDiscreteGpu.

(** The devices of a machine with two equally good GPUs. *)
Definition twoGpus : list t := [fresh pd_split; fresh pd_unified].

(** Three candidates: one lacking a required extension, an integrated GPU,
    and a discrete GPU with mailbox and an extended-range format. *)
Definition pd_missing_extension : PhysicalDevice :=
  mkPhysicalDevice true true false [3]%Z (fun _ => true)
    [Vk.mkSurfaceFormat Vk.eR16G16B16A16Sfloat Vk.eExtendedSrgbNonlinearEXT]
    [Vk.eMailbox] Vk.eDiscreteGpu.
Definition pd_integrated : PhysicalDevice :=
  mkPhysicalDevice true true true [3]%Z (fun _ => true)
    [Vk.mkSurfaceFormat Vk.eR8G8B8Unorm Vk.eSrgbNonlinear]
    [Vk.eFifo] Vk.eIntegratedGpu.
Definition pd_discrete : PhysicalDevice :=
  mkPhysicalDevice true true true [3]%Z (fun _ => true)
    [Vk.mkSurfaceFormat Vk.eR8G8B8Unorm Vk.eSrgbNonlinear;
     Vk.mkSurfaceFormat Vk.eR16G16B16A16Sfloat Vk.eExtendedSrgbNonlinearEXT]
    [Vk.eFifo; Vk.eMailbox] Vk.eDiscreteGpu.
Definition threeCandidates : list t :=
  [fresh pd_missing_extension; fresh pd_integrated; fresh pd_discrete].
End Scoring.

(** ** Notions used to state the properties of the pipeline lifecycle *)

Module Lifecycle.
Import Pipeline_vulkan.

(** [n] consecutive handles starting at [h]: what [n] successive
    allocations return. *)
Fixpoint handles (h : handle) (n : nat) : list handle :=
  match n with
  | O => []
  | S n' => h :: handles (N.succ h) n'
  end.

(** The state after an operation that rewrites the pipeline object with
    [f], draws [k] fresh handles and makes the calls [cs]. *)
Definition after (f : t -> t) (k : nat) (cs : list Call) (s : State) : State :=
  mkState (f (this s)) (nextHandle s + N.of_nat k) (calls s ++ cs)
          (swapchainFramebuffers s).

(** The commands recorded into command buffer [cb] by
    [validateCommandBuffer]. *)
Definition recorded (p : t) (cb framebuffer vertexBuffer : handle) (scissor : Rect2D)
  : list Call :=
  [cmdReset cb; cmdBegin cb;
   cmdBeginRenderPass cb (renderPass p) framebuffer scissor;
   cmdBindPipeline cb (intrinsic p);
   cmdBindVertexBuffers cb [vertexBuffer] [0%Z];
   drawInCommandBuffer cb; cmdEndRenderPass cb; cmdEnd cb].

(** A window with three framebuffers and a pipeline that has not been built
    yet; a pipeline class with a vertex and a fragment shader. *)
Definition s_init : State := mkState init 1%N [] [100; 101; 102]%N.
Definition twoShaders : list nat := [0; 1].

(** The result state of a computation, or [s] itself if it does not
    return. *)
Definition exec {A} (m : M A) (s : State) : State :=
  match m s with
  | Some (_, s') => s'
  | None => s
  end.

(** The pipeline built for the three images, before any frame, and after
    image 0 has been rendered once. *)
Definition s_built : State :=
  exec (buildForDeviceChange twoShaders 50%N (mkExtent 640 480) 3) s_init.
Definition s_rendered : State := exec (render 0 70%N) s_built.

(** The calls an operation has added to the log. *)
Definition newCalls (s s' : State) : list Call := drop (length (calls s)) (calls s').

(** The state [buildPipeline] leaves: a new layout and pipeline object,
    created for the given render pass and extent. *)
Definition pipelineBuilt (rp : handle) (e : Extent2D) (s : State) : State :=
  let p := this s in
  let layout := nextHandle s in
  let pipeline := N.succ (nextHandle s) in
  after (set_intrinsic pipeline ∘ set_scissors (createScissors e)
         ∘ set_viewports (createViewports e) ∘ set_pipelineLayout layout
         ∘ set_renderPass rp) 2
        [createPipelineLayout layout;
         createGraphicsPipeline
           (mkInfo (length (shaderStages p)) (shaderStages p) (createViewports e)
                   (createScissors e) layout rp) pipeline] s.

(** The calls that release the semaphores, command buffers and vertex
    buffers of [p], and those that create them anew for [n] images with
    handles drawn from [h] on. *)
Definition teardownCalls (p : t) : list Call :=
  (destroySemaphore <$> renderFinishedSemaphores p)
  ++ [freeCommandBuffers (commandBuffers p)]
  ++ [unmapMemory (vertexBufferMemory p); freeMemory (vertexBufferMemory p)]
  ++ (destroyBuffer <$> vertexBuffers p).

Definition newVertexBuffers (h : handle) (n : nat) : list handle := handles h n.
Definition newVertexMemory (h : handle) (n : nat) : handle := (h + N.of_nat n)%N.
Definition newCommandBuffers (h : handle) (n : nat) : list handle :=
  handles (h + N.of_nat (S n))%N n.
Definition newSemaphores (h : handle) (n : nat) : list handle :=
  handles (h + N.of_nat (S n + n))%N n.

Definition buildCalls (h : handle) (n : nat) : list Call :=
  (createBuffer <$> newVertexBuffers h n)
  ++ [allocateDeviceMemoryAndBind (newVertexBuffers h n) (newVertexMemory h n);
      mapMemory (newVertexMemory h n)]
  ++ [allocateCommandBuffers n (newCommandBuffers h n)]
  ++ (createSemaphore <$> newSemaphores h n).

(** The state after the per-image resources have been torn down and built
    again for [n] images. *)
Definition rebuilt (n : nat) (s : State) : State :=
  let h := nextHandle s in
  after (set_renderFinishedSemaphores (newSemaphores h n)
         ∘ set_commandBuffersValid (replicate n false)
         ∘ set_commandBuffers (newCommandBuffers h n)
         ∘ set_vertexBufferMemory (newVertexMemory h n)
         ∘ set_vertexBuffers (newVertexBuffers h n))
        (S n + n + n) (teardownCalls (this s) ++ buildCalls h n) s.

(** The state after all valid-bits have been cleared. *)
Definition invalidated (s : State) : State :=
  after (set_commandBuffersValid
           (replicate (length (commandBuffersValid (this s))) false)) 0 [] s.

(** What an operation needs in order to return: for the builds, image and
    stage counts that are [uint32_t] values and at least one image whenever
    the vertex buffers are built; an image index within the built count for
    [render]. *)
Definition ready (shaderPaths : list nat) (op : Op) (s : State) : Prop :=
  match op with
  | OpBuildForDeviceChange _ _ n =>
      0 < n /\ UInt32.fits n /\ UInt32.fits (length shaderPaths)
  | OpBuildForSwapchainChange _ _ n =>
      (n ≠ length (commandBuffers (this s)) -> 0 < n)
      /\ UInt32.fits n /\ UInt32.fits (length (shaderStages (this s)))
  | OpRender imageIndex _ =>
      built (length (commandBuffers (this s))) s
      /\ imageIndex < length (commandBuffers (this s))
  | _ => True
  end.

(** The image count an operation builds for, if it is a build. *)
Definition builtCount (op : Op) : option nat :=
  match op with
  | OpBuildForDeviceChange _ _ n | OpBuildForSwapchainChange _ _ n => Some n
  | _ => None
  end.
End Lifecycle.

(** ** Windows: attaching and detaching a device *)

Module Window_base.

(** The states of [Window_base::State] that Window_base.cpp assigns. *)
Inductive State := Initializing | NoWindow | NoDevice | DeviceLost.

(** The members of [Window_base] that [setDevice] touches.  [device] is the
    [Device *] ([None] is [nullptr]), identified by a number; [teardowns]
    counts the calls of [teardown()]. *)
Record t := mk
  { state : State;
    device : option nat;
    teardowns : nat }.

Section Override.
(** [teardown()] is virtual, and the body of its override
    ([Window_vulkan::teardown]) is not among the sources: it is a
    parameter, any function on the members [state] and [device]. *)
Variable teardown : State * option nat -> State * option nat.

Definition setDevice (newDevice : option nat) (w : t) : t :=
  match device w with
  | Some _ =>
      (* [state = State::DeviceLost; teardown();] *)
      let torn := teardown (DeviceLost, device w) in
      mk torn.1 newDevice (S (teardowns w))
  | None => mk (state w) newDevice (teardowns w)
  end.

End Override.

End Window_base.

(** ** The device object: logical device, queues and attached windows *)

Module DeviceObject.
Import QueueCapabilities.

Inductive DeviceState := NO_DEVICE | READY_TO_DRAW.

(** [vk::DeviceQueueCreateInfo(flags, queueFamilyIndex, queueCount, priorities)]. *)
Record DeviceQueueCreateInfo := mkQueueCreateInfo
  { queueFamilyIndex : nat; queueCount : nat }.

(** [Queue(device, queueFamilyIndex, queueIndex, capabilities)]. *)
Record Queue := mkQueue
  { familyIndex : nat; queueIndex : nat; capabilities : QC }.

(** A [std::shared_ptr<Queue>]: [None] is the empty pointer; a queue object
    is identified by the iteration of the loop whose [make_shared] made
    it. *)
Definition QueuePtr : Type := option (nat * Queue).

(** The argument of [window->setDevice(...)]: [this] or [nullptr]. *)
Inductive DeviceArg := This | Nullptr.

(** The members of [Device] beyond those [score] uses.  [intrinsic] is the
    logical [vk::Device], described by the queue create-infos it was created
    with ([None] before it exists); [createDeviceCalls] logs the calls of
    [createDevice]; [windows] holds the attached windows, by number;
    [setDeviceCalls] logs the calls of [setDevice] made on windows, oldest
    first. *)
Record t := mk
  { device : Device.t;
    intrinsic : option (list DeviceQueueCreateInfo);
    createDeviceCalls : list (list DeviceQueueCreateInfo);
    graphicQueue : QueuePtr;
    presentQueue : QueuePtr;
    computeQueue : QueuePtr;
    state : DeviceState;
    windows : gset nat;
    setDeviceCalls : list (nat * DeviceArg) }.

(** The constructor, for a physical device. *)
Definition new (pd : Device.PhysicalDevice) : t :=
  mk (Device.mk pd [] (Vk.mkSurfaceFormat Vk.eUndefined Vk.eSrgbNonlinear) Vk.eImmediate)
     None [] None None None NO_DEVICE ∅ [].

Section WithSort.
Variable sort : list (nat * QC) -> list (nat * QC).

(** [score] on the device object: the members it writes are those of
    [Device.t]. *)
Definition score (d : t) : Z * t :=
  let r := Device.score sort (device d) in
  (r.1, mk r.2 (intrinsic d) (createDeviceCalls d) (graphicQueue d) (presentQueue d)
           (computeQueue d) (state d) (windows d) (setDeviceCalls d)).
End WithSort.

(** Body of the second loop of [initializeDevice]. *)
Definition assignQueues (st : QueuePtr * QueuePtr * QueuePtr) (e : nat * (nat * QC))
  : QueuePtr * QueuePtr * QueuePtr :=
  let '(graphicQueue, presentQueue, computeQueue) := st in
  let '(k, (index, queueCapabilities)) := e in
  let queue := Some (k, mkQueue index 0 queueCapabilities) in
  let graphicQueue := if handlesGraphics queueCapabilities then queue else graphicQueue in
  let presentQueue := if handlesPresent queueCapabilities then queue else presentQueue in
  let computeQueue := if handlesCompute queueCapabilities then queue else computeQueue in
  (graphicQueue, presentQueue, computeQueue).

(** The three queue pointers the loop keeps. *)
Definition proj_graphic (st : QueuePtr * QueuePtr * QueuePtr) : QueuePtr := st.1.1.
Definition proj_present (st : QueuePtr * QueuePtr * QueuePtr) : QueuePtr := st.1.2.
Definition proj_compute (st : QueuePtr * QueuePtr * QueuePtr) : QueuePtr := st.2.

Definition initializeDevice (d : t) : t :=
  let plan := Device.queueFamilyIndicesAndCapabilities (device d) in
  let deviceQueueCreateInfos := map (fun q => mkQueueCreateInfo q.1 1) plan in
  let '(graphicQueue, presentQueue, computeQueue) :=
    foldl assignQueues (graphicQueue d, presentQueue d, computeQueue d)
          (imap (fun k q => (k, q)) plan) in
  mk (device d) (Some deviceQueueCreateInfos)
     (createDeviceCalls d ++ [deviceQueueCreateInfos])
     graphicQueue presentQueue computeQueue READY_TO_DRAW (windows d)
     (setDeviceCalls d).

(** [add] and [remove], for the window numbered [window]. *)
Definition add (window : nat) (d : t) : t :=
  let d := match intrinsic d with
           | None => initializeDevice d
           | Some _ => d
           end in
  mk (device d) (intrinsic d) (createDeviceCalls d) (graphicQueue d) (presentQueue d)
     (computeQueue d) (state d) ({[window]} ∪ windows d)
     (setDeviceCalls d ++ [(window, This)]).

Definition remove (window : nat) (d : t) : t :=
  mk (device d) (intrinsic d) (createDeviceCalls d) (graphicQueue d) (presentQueue d)
     (computeQueue d) (state d) (windows d ∖ {[window]})
     (setDeviceCalls d ++ [(window, Nullptr)]).

(** [frameUpdate]: the windows that receive the update; [locked] is the
    outcome of [try_lock_shared]. *)
Definition frameUpdate (locked : bool) (d : t) : gset nat :=
  if locked then
    match state d with
    | READY_TO_DRAW => windows d
    | NO_DEVICE => ∅
    end
  else ∅.

(** Attaching and detaching windows, one call after the other. *)
Inductive Op := Add (window : nat) | Remove (window : nat).

Definition step (d : t) (op : Op) : t :=
  match op with
  | Add window => add window d
  | Remove window => remove window d
  end.

(** The argument of the latest [setDevice] call made on [window], if any. *)
Definition lastSetDevice (calls : list (nat * DeviceArg)) (window : nat)
  : option DeviceArg :=
  foldl (fun acc c => if decide (c.1 = window) then Some c.2 else acc) None calls.

End DeviceObject.

(** ** Notions used to state further properties of the negotiated plan *)

Module Plan.
Import QueueCapabilities.

(** No role in common. *)
Definition disjoint (a b : QC) : bool :=
  negb (handlesGraphics a && handlesGraphics b)
  && negb (handlesCompute a && handlesCompute b)
  && negb (handlesPresent a && handlesPresent b).

Fixpoint pairwise_disjoint (l : list QC) : bool :=
  match l with
  | [] => true
  | a :: l' => forallb (disjoint a) l' && pairwise_disjoint l'
  end.

(** Family [index] of the physical device has every role of [c]: its queue
    flags and its present support on the surface allow them. *)
Definition supports (pd : Device.PhysicalDevice) (index : nat) (c : QC) : Prop :=
  exists queueFlags,
    Device.getQueueFamilyProperties pd !! index = Some queueFlags
    /\ handlesAllOff (Device.capabilitiesOf pd index queueFlags) c = true.

(** What the greedy pass keeps true of the entries recorded so far: each
    holds a role, all of them within the running total, and no two share a
    role. *)
Definition recorded_ok (st : list (nat * QC) * QC) : Prop :=
  Forall (fun e => e.2 <> empty /\ handlesAllOff st.2 e.2 = true) st.1
  /\ pairwise_disjoint st.1.*2 = true.

End Plan.

(** ** Notions used to state further properties of the pipeline *)

Module Resources.
Import Pipeline_vulkan.

(** The handles a call creates, and those it releases. *)
Definition created (c : Call) : list handle :=
  match c with
  | createShaderModule _ h | createBuffer h | createSemaphore h
  | createPipelineLayout h | createGraphicsPipeline _ h => [h]
  | allocateDeviceMemoryAndBind _ memory => [memory]
  | allocateCommandBuffers _ hs => hs
  | _ => []
  end.

Definition released (c : Call) : list handle :=
  match c with
  | destroyShaderModule h | destroyBuffer h | destroySemaphore h
  | destroyPipelineLayout h | destroyPipeline h | freeMemory h => [h]
  | freeCommandBuffers hs => hs
  | _ => []
  end.

(** The handles a pipeline object holds, in the order
    [buildForDeviceChange] obtains them. *)
Definition held (p : t) : list handle :=
  shaderModules p ++ vertexBuffers p ++ [vertexBufferMemory p]
  ++ commandBuffers p ++ renderFinishedSemaphores p
  ++ [pipelineLayout p; intrinsic p].

(** One [render] per frame, each for an image index and with a semaphore to
    wait on. *)
Definition renders (frames : list (nat * handle)) : M unit :=
  for_each frames (fun frame => render frame.1 frame.2 ;; mret tt).

(** Number of valid-bits that are set. *)
Definition trues (v : list bool) : nat := length (filter (fun b => b = true) v).

Definition is_submit (c : Call) : bool :=
  match c with queueSubmit _ _ _ => true | _ => false end.
Definition submits (s : State) : nat :=
  length (filter (fun c => is_submit c = true) (calls s)).

End Resources.

(** * Properties *)

(** ** Queue capabilities *)

Module QueueCapabilitiesFacts.
Import QueueCapabilities.

(** Case analysis over all capability sets in the context. *)
Ltac qc_cases :=
  repeat match goal with
         | c : QC |- _ => destruct c as [[] [] []]
         end;
  vm_compute in *; try done; try lia; try congruence.

Lemma union_comm (a b : QC) : union a b = union b a.
Proof. qc_cases. Qed.

Lemma union_assoc (a b c : QC) : union a (union b c) = union (union a b) c.
Proof. qc_cases. Qed.

Lemma union_idemp (a : QC) : union a a = a.
Proof. qc_cases. Qed.

Lemma union_empty_l (a : QC) : union empty a = a.
Proof. qc_cases. Qed.

Lemma union_empty_r (a : QC) : union a empty = a.
Proof. qc_cases. Qed.

Lemma union_absorb (t c : QC) : handlesAllOff t c = true -> union t c = t.
Proof. intros H. qc_cases. Qed.

Lemma union_diff (t c : QC) : union t (diff c t) = union t c.
Proof. qc_cases. Qed.

Lemma card_union_le (a b : QC) : card (union a b) <= card a + card b.
Proof. qc_cases. Qed.

Lemma card_union_grows (t c : QC) :
  handlesAllOff t c = false -> card t + 1 <= card (union t c).
Proof. intros H. qc_cases. Qed.

Lemma card_le_3 (a : QC) : card a <= 3.
Proof. qc_cases. Qed.

Lemma card_everything (a : QC) : handlesEverything a = true -> card a = 3.
Proof. intros H. qc_cases. Qed.

Lemma score_card_mono (a b : QC) : (score a <= score b)%Z -> card a <= card b.
Proof. intros H. qc_cases. Qed.

(** The score the sort compares is the one the first loop logs. *)
Lemma familyScore_score (c : QC) : Device.familyScore c = score c.
Proof. reflexivity. Qed.

(** The scores, by capability set. *)
Lemma score_table :
  score (mk true true true) = 18%Z
  /\ score (mk true false true) = 7%Z
  /\ score (mk true true false) = 2%Z
  /\ score (mk false true true) = 2%Z
  /\ score (mk true false false) = 1%Z
  /\ score (mk false true false) = 1%Z
  /\ score (mk false false true) = 1%Z
  /\ score (mk false false false) = 0%Z.
Proof. by vm_compute. Qed.

Lemma handlesAllOff_empty (c : QC) : handlesAllOff empty c = true -> c = empty.
Proof. intros H. qc_cases. Qed.

Lemma union_list_app (l k : list QC) :
  union_list (l ++ k) = union (union_list l) (union_list k).
Proof.
  induction l as [|a l IH]; simpl.
  - by rewrite union_empty_l.
  - by rewrite IH, union_assoc.
Qed.

Lemma union_list_perm (l k : list QC) : l ≡ₚ k -> union_list l = union_list k.
Proof.
  induction 1 as [|x l k _ IH|x y l|l k m _ IH1 _ IH2]; simpl.
  - done.
  - by rewrite IH.
  - rewrite !union_assoc. by rewrite (union_comm y x).
  - by rewrite IH1.
Qed.

Lemma foldl_union_list (t : QC) (l : list QC) :
  foldl union t l = union t (union_list l).
Proof.
  revert t. induction l as [|a l IH]; intros t; simpl.
  - by rewrite union_empty_r.
  - by rewrite IH, union_assoc.
Qed.

(** The roles of a union are at most the sum of the roles of its members,
    hence at most [m] per member. *)
Lemma card_union_list_le (m : nat) (l : list QC) :
  Forall (fun c => card c <= m) l -> card (union_list l) <= length l * m.
Proof.
  induction 1 as [|c l Hc _ IH]; simpl.
  - done.
  - pose proof (card_union_le c (union_list l)). lia.
Qed.

End QueueCapabilitiesFacts.

(** ** The queue capability negotiator *)

Module NegotiatorFacts.
Import QueueCapabilities QueueCapabilitiesFacts Device.

Lemma greedyStep_total (st : list (nat * QC) * QC) (q : nat * QC) :
  (greedyStep st q).2 = union st.2 q.2.
Proof.
  destruct st as [acc t]. unfold greedyStep. simpl.
  destruct (handlesAllOff t q.2) eqn:E; simpl; [|done].
  symmetry. by apply union_absorb.
Qed.

(** The running total after the pass is the union of everything seen. *)
Lemma greedy_total (l : list (nat * QC)) (st : list (nat * QC) * QC) :
  (foldl greedyStep st l).2 = union st.2 (union_list l.*2).
Proof.
  revert st. induction l as [|q l IH]; intros st; simpl.
  - by rewrite union_empty_r.
  - by rewrite IH, greedyStep_total, union_assoc.
Qed.

(** The recorded differences add up to the running total. *)
Lemma greedy_recorded (l : list (nat * QC)) (st : list (nat * QC) * QC) :
  union_list st.1.*2 = st.2 ->
  union_list (foldl greedyStep st l).1.*2 = (foldl greedyStep st l).2.
Proof.
  revert st. induction l as [|q l IH]; intros [acc t] Hacc; simpl in *; [done|].
  apply IH. unfold greedyStep.
  destruct (handlesAllOff t q.2); simpl; [done|].
  rewrite fmap_app, union_list_app, Hacc. simpl.
  by rewrite union_empty_r, union_diff.
Qed.

(** Every accepted family adds at least one role to the total. *)
Lemma greedy_length (l : list (nat * QC)) (st : list (nat * QC) * QC) :
  length (foldl greedyStep st l).1 + card st.2
  <= length st.1 + card (foldl greedyStep st l).2.
Proof.
  revert st. induction l as [|q l IH]; intros [acc t]; simpl; [lia|].
  specialize (IH (greedyStep (acc, t) q)).
  unfold greedyStep in *. simpl in *.
  destruct (handlesAllOff t q.2) eqn:E; simpl in *; [lia|].
  rewrite length_app in IH. simpl in IH.
  pose proof (card_union_grows _ _ E). lia.
Qed.

(** The accepted families are visited in list order. *)
Lemma greedy_indices (l : list (nat * QC)) (st : list (nat * QC) * QC) :
  exists k, (foldl greedyStep st l).1.*1 = st.1.*1 ++ k /\ sublist k l.*1.
Proof.
  revert st. induction l as [|q l IH]; intros [acc t]; simpl.
  - exists []. by rewrite app_nil_r.
  - destruct (IH (greedyStep (acc, t) q)) as (k & Hk & Hsub).
    unfold greedyStep in *. simpl in *.
    destruct (handlesAllOff t q.2); simpl in *.
    + exists k. split; [done|]. by apply sublist_cons.
    + exists (q.1 :: k). split.
      * rewrite Hk, fmap_app. simpl. by rewrite <-app_assoc.
      * by apply sublist_skip.
Qed.

Lemma queueFamilieScores_indices (pd : PhysicalDevice) :
  (queueFamilieScores pd).*1 = seq 0 (length (getQueueFamilyProperties pd)).
Proof.
  unfold queueFamilieScores. rewrite fmap_imap.
  rewrite <-(list_fmap_id (seq 0 _)), <-imap_seq_0.
  by apply imap_ext.
Qed.

Section WithSort.
Variable sort : list (nat * QC) -> list (nat * QC).
Hypothesis sort_ok : std_sort_contract scoreIsGreater sort.

Lemma sort_perm (l : list (nat * QC)) : sort l ≡ₚ l.
Proof. apply sort_ok. Qed.

Lemma sort_sorted (l : list (nat * QC)) :
  StronglySorted (fun a b => (QueueCapabilities.score b.2 <= QueueCapabilities.score a.2)%Z) (sort l).
Proof.
  destruct (sort_ok l) as [_ H].
  induction H as [|a k _ IH Ha]; constructor; [done|].
  eapply Forall_impl; [exact Ha|].
  intros b. unfold scoreIsGreater. simpl. lia.
Qed.

Lemma findBest_union (pd : PhysicalDevice) :
  union_list (findBestQueueFamilyIndices sort pd).*2
  = union_list (queueFamilieScores pd).*2.
Proof.
  unfold findBestQueueFamilyIndices, sortedQueueFamilieScores, greedy.
  rewrite greedy_recorded by done.
  rewrite greedy_total. simpl. rewrite union_empty_l.
  apply union_list_perm. by rewrite sort_perm.
Qed.

End WithSort.
End NegotiatorFacts.

Module SortsFacts.
Import Sorts.

Section Keyed.
Context {A : Type} (key : A -> Z).
Let comp (a b : A) : bool := (key b <? key a)%Z.
Let R (a b : A) : Prop := comp b a = false.

Lemma insert_stable_perm (x : A) (l : list A) : insert_stable comp x l ≡ₚ x :: l.
Proof.
  induction l as [|y l IH]; simpl; [done|].
  destruct (comp y x); [|done].
  by rewrite IH, Permutation_swap.
Qed.

Lemma insert_last_perm (x : A) (l : list A) : insert_last comp x l ≡ₚ x :: l.
Proof.
  induction l as [|y l IH]; simpl; [done|].
  destruct (comp x y); [done|].
  by rewrite IH, Permutation_swap.
Qed.

Lemma insert_stable_sorted (x : A) (l : list A) :
  StronglySorted R l -> StronglySorted R (insert_stable comp x l).
Proof.
  induction 1 as [|y l Hl IH Hy]; simpl.
  - repeat constructor.
  - destruct (comp y x) eqn:E.
    + constructor; [done|].
      rewrite insert_stable_perm. constructor; [|done].
      unfold R, comp in *. lia.
    + constructor; [by constructor|].
      constructor; [done|].
      eapply Forall_impl; [exact Hy|].
      intros z. unfold R, comp in *. lia.
Qed.

Lemma insert_last_sorted (x : A) (l : list A) :
  StronglySorted R l -> StronglySorted R (insert_last comp x l).
Proof.
  induction 1 as [|y l Hl IH Hy]; simpl.
  - repeat constructor.
  - destruct (comp x y) eqn:E.
    + constructor; [by constructor|].
      constructor; [unfold R, comp in *; lia|].
      eapply Forall_impl; [exact Hy|].
      intros z. unfold R, comp in *. lia.
    + constructor; [done|].
      rewrite insert_last_perm. constructor; [|done].
      unfold R, comp in *. lia.
Qed.

Lemma stable_sort_keyed : Device.std_sort_contract comp (stable_sort comp).
Proof.
  intros l. induction l as [|x l [IHp IHs]]; simpl.
  - split; [done|constructor].
  - split.
    + by rewrite insert_stable_perm, IHp.
    + by apply insert_stable_sorted.
Qed.

Lemma reversing_sort_keyed : Device.std_sort_contract comp (reversing_sort comp).
Proof.
  intros l. induction l as [|x l [IHp IHs]]; simpl.
  - split; [done|constructor].
  - split.
    + by rewrite insert_last_perm, IHp.
    + by apply insert_last_sorted.
Qed.

End Keyed.

Lemma stable_sort_ok :
  Device.std_sort_contract Device.scoreIsGreater (stable_sort Device.scoreIsGreater).
Proof. exact (stable_sort_keyed (fun a => QueueCapabilities.score a.2)). Qed.

Lemma reversing_sort_ok :
  Device.std_sort_contract Device.scoreIsGreater (reversing_sort Device.scoreIsGreater).
Proof. exact (reversing_sort_keyed (fun a => QueueCapabilities.score a.2)). Qed.

End SortsFacts.

(** ** Further properties of the negotiated plan *)

Module PlanFacts.
Import QueueCapabilities QueueCapabilitiesFacts Device Scoring NegotiatorFacts Plan.

Ltac qc_solve :=
  repeat match goal with
         | c : QC |- _ => destruct c as [[] [] []]
         end;
  vm_compute in *; try done; try congruence.

Lemma diff_nonempty (t c : QC) : handlesAllOff t c = false -> diff c t <> empty.
Proof. intros H. qc_solve. Qed.

Lemma diff_disjoint (t c a : QC) :
  handlesAllOff t a = true -> disjoint a (diff c t) = true.
Proof. intros H. qc_solve. Qed.

Lemma subset_union (t c a : QC) :
  handlesAllOff t a = true -> handlesAllOff (union t c) a = true.
Proof. intros H. qc_solve. Qed.

Lemma diff_subset_union (t c : QC) : handlesAllOff (union t c) (diff c t) = true.
Proof. qc_solve. Qed.

Lemma diff_subset (t c : QC) : handlesAllOff c (diff c t) = true.
Proof. qc_solve. Qed.

Lemma subset_trans (a b c : QC) :
  handlesAllOff a b = true -> handlesAllOff b c = true -> handlesAllOff a c = true.
Proof. intros H1 H2. qc_solve. Qed.

Lemma pairwise_disjoint_snoc (l : list QC) (x : QC) :
  pairwise_disjoint (l ++ [x])
  = pairwise_disjoint l && forallb (fun a => disjoint a x) l.
Proof.
  induction l as [|a l IH]; simpl; [done|].
  rewrite IH, forallb_app. simpl.
  destruct (forallb (disjoint a) l), (disjoint a x), (pairwise_disjoint l); simpl; done.
Qed.

Lemma greedyStep_recorded_ok (st : list (nat * QC) * QC) (q : nat * QC) :
  recorded_ok st -> recorded_ok (greedyStep st q).
Proof.
  destruct st as [acc t]. intros [Hall Hpw]. unfold greedyStep. simpl in *.
  destruct (handlesAllOff t q.2) eqn:E; simpl; [by split|].
  split; simpl.
  - apply Forall_app. split.
    + eapply Forall_impl; [exact Hall|]. intros e [Hne Hsub].
      split; [done|]. by apply subset_union.
    + constructor; [|constructor]. simpl. split.
      * by apply diff_nonempty.
      * apply diff_subset_union.
  - rewrite fmap_app. simpl. rewrite pairwise_disjoint_snoc, Hpw. simpl.
    apply forallb_forall. intros a Ha.
    apply diff_disjoint.
    apply list_elem_of_In, list_elem_of_fmap in Ha as (e & -> & He).
    rewrite Forall_forall in Hall. by apply Hall.
Qed.

Lemma greedy_recorded_ok (l : list (nat * QC)) (st : list (nat * QC) * QC) :
  recorded_ok st -> recorded_ok (foldl greedyStep st l).
Proof.
  revert st. induction l as [|q l IH]; intros st H; simpl; [done|].
  by apply IH, greedyStep_recorded_ok.
Qed.

(** Every recorded entry comes from a family of the list visited, and holds
    roles of that family only. *)
Lemma greedy_from_input (l : list (nat * QC)) (st : list (nat * QC) * QC) :
  exists k, (foldl greedyStep st l).1 = st.1 ++ k
    /\ Forall (fun e => exists c, (e.1, c) ∈ l /\ handlesAllOff c e.2 = true) k.
Proof.
  revert st. induction l as [|q l IH]; intros [acc t]; simpl.
  - exists []. by rewrite app_nil_r.
  - destruct (IH (greedyStep (acc, t) q)) as (k & Hk & Hall).
    assert (Hall' : Forall (fun e => exists c, (e.1, c) ∈ q :: l
                                      /\ handlesAllOff c e.2 = true) k).
    { eapply Forall_impl; [exact Hall|]. intros e (c & Hc & Hsub).
      exists c. split; [by right|done]. }
    unfold greedyStep in *. simpl in *.
    destruct (handlesAllOff t q.2) eqn:E; simpl in *.
    + by exists k.
    + exists ((q.1, diff q.2 t) :: k). split.
      * by rewrite Hk, <-app_assoc.
      * constructor; [|done]. exists q.2. simpl. split.
        -- destruct q. by left.
        -- apply diff_subset.
Qed.

Lemma subset_union_mono (a b a' b' : QC) :
  handlesAllOff a a' = true -> handlesAllOff b b' = true ->
  handlesAllOff (union a b) (union a' b') = true.
Proof. qc_solve. Qed.

Lemma subset_everything (a b : QC) :
  handlesAllOff a b = true -> handlesEverything b = true -> handlesEverything a = true.
Proof. qc_solve. Qed.

(** Entries taken from families, each with roles of its family only, name
    a sub-collection of the families that has every role the entries
    have. *)
Lemma cover_of_entries (families entries : list (nat * QC)) :
  Forall (fun e => exists c, (e.1, c) ∈ families /\ handlesAllOff c e.2 = true) entries ->
  exists cover,
    cover ⊆ families /\ cover.*1 = entries.*1
    /\ handlesAllOff (union_list cover.*2) (union_list entries.*2) = true.
Proof.
  induction 1 as [|e entries (c & Hc & Hsub) _ (cover & Hin & Hidx & Hall)].
  - exists []. split_and!; try done. intros x Hx. by apply elem_of_nil in Hx.
  - exists ((e.1, c) :: cover). split_and!.
    + intros x Hx. apply elem_of_cons in Hx as [->|Hx]; [done|by apply Hin].
    + rewrite !fmap_cons. by f_equal.
    + rewrite !fmap_cons. by apply subset_union_mono.
Qed.

Section WithSort.
Variable sort : list (nat * QC) -> list (nat * QC).

(** X1: every entry of the returned plan contributes at least one role, no
    role is contributed twice, and the plan has at most three entries,
    whatever order the sort visits the families in. *)
Theorem plan_entries_disjoint (pd : PhysicalDevice) :
  let plan := findBestQueueFamilyIndices sort pd in
  Forall (fun e => e.2 <> empty) plan
  /\ pairwise_disjoint plan.*2 = true
  /\ length plan <= 3.
Proof.
  intros plan. subst plan.
  unfold findBestQueueFamilyIndices, greedy.
  set (l := sortedQueueFamilieScores sort pd).
  destruct (greedy_recorded_ok l ([], empty)) as [Hall Hpw].
  { split; [constructor|done]. }
  split_and!.
  - eapply Forall_impl; [exact Hall|]. by intros e [? _].
  - done.
  - pose proof (greedy_length l ([], empty)) as Hlen.
    pose proof (card_le_3 (foldl greedyStep ([], empty) l).2).
    simpl in Hlen. lia.
Qed.

Hypothesis sort_ok : std_sort_contract scoreIsGreater sort.

(** Every entry of the plan is taken from a family of the device, with
    roles of that family only. *)
Lemma plan_from_families (pd : PhysicalDevice) :
  Forall (fun e => exists c, (e.1, c) ∈ queueFamilieScores pd
                             /\ handlesAllOff c e.2 = true)
         (findBestQueueFamilyIndices sort pd).
Proof using sort_ok.
  unfold findBestQueueFamilyIndices, greedy.
  destruct (greedy_from_input (sortedQueueFamilieScores sort pd) ([], empty))
    as (k & -> & H).
  simpl. eapply Forall_impl; [exact H|].
  intros e (c & Hc & Hsub). exists c. split; [|done].
  unfold sortedQueueFamilieScores in Hc.
  by rewrite (sort_perm sort sort_ok) in Hc.
Qed.

Lemma plan_supported (pd : PhysicalDevice) :
  Forall (fun e => supports pd e.1 e.2) (findBestQueueFamilyIndices sort pd).
Proof using sort_ok.
  unfold findBestQueueFamilyIndices, greedy.
  destruct (greedy_from_input (sortedQueueFamilieScores sort pd) ([], empty))
    as (k & -> & H).
  simpl. eapply Forall_impl; [exact H|].
  intros e (c & Hc & Hsub).
  unfold sortedQueueFamilieScores in Hc.
  rewrite (sort_perm sort sort_ok) in Hc.
  apply elem_of_lookup_imap_1 in Hc as (i & flags & Heq & Hi).
  injection Heq as -> ->.
  by exists flags.
Qed.

(** X2: every entry of the returned plan names a queue family of the
    physical device, and gives it only roles that this family has: graphics
    or compute only if its queue flags say so, present only if the surface
    is supported on it. *)
Theorem plan_within_hardware (pd : PhysicalDevice) (index : nat) (c : QC) :
  (index, c) ∈ findBestQueueFamilyIndices sort pd ->
  exists queueFlags,
    getQueueFamilyProperties pd !! index = Some queueFlags
    /\ (handlesGraphics c = true -> Vk.has_flag queueFlags Vk.eGraphics = true)
    /\ (handlesCompute c = true -> Vk.has_flag queueFlags Vk.eCompute = true)
    /\ (handlesPresent c = true -> getSurfaceSupportKHR pd index = true).
Proof using sort_ok.
  intros Hin.
  pose proof (plan_supported pd) as H. rewrite Forall_forall in H.
  destruct (H _ Hin) as (flags & Hflags & Hsub). simpl in *.
  exists flags. split; [done|].
  unfold capabilitiesOf, handlesAllOff in Hsub. simpl in Hsub.
  destruct c as [g cc p]. simpl in *.
  destruct (Vk.has_flag flags Vk.eGraphics), (Vk.has_flag flags Vk.eCompute),
    (getSurfaceSupportKHR pd index), g, cc, p; simpl in *; done.
Qed.

End WithSort.

Lemma plan_within_hardware_witness :
  exists queueFlags,
    getQueueFamilyProperties pd_split !! 3 = Some queueFlags
    /\ getSurfaceSupportKHR pd_split 3 = true.
Proof.
  destruct (plan_within_hardware stable SortsFacts.stable_sort_ok pd_split 3
              (QueueCapabilities.mk false false true))
    as (flags & Hflags & _ & _ & Hp).
  - vm_compute. right. left.
  - exists flags. split; [exact Hflags|]. by apply Hp.
Defined.

End PlanFacts.

(** ** The queue capability negotiator: the claims *)

Module NegotiatorClaims.
Import QueueCapabilities QueueCapabilitiesFacts Device Scoring NegotiatorFacts.

Lemma NoDup_fmap_eq {A B} (f : A -> B) (l : list A) (x y : A) :
  NoDup (f <$> l) -> x ∈ l -> y ∈ l -> f x = f y -> x = y.
Proof.
  induction l as [|a l IH]; simpl; intros Hnd Hx Hy Hf.
  - by apply elem_of_nil in Hx.
  - apply NoDup_cons in Hnd as [Ha Hnd].
    apply elem_of_cons in Hx as [->|Hx]; apply elem_of_cons in Hy as [->|Hy].
    + done.
    + destruct Ha. rewrite Hf. by apply list_elem_of_fmap_2.
    + destruct Ha. rewrite <-Hf. by apply list_elem_of_fmap_2.
    + by apply IH.
Qed.

Section WithSort.
Variable sort : list (nat * QC) -> list (nat * QC).
Hypothesis sort_ok : std_sort_contract scoreIsGreater sort.

(** C5: the capabilities of the returned pairs add up to exactly the
    capabilities of all queue families of the input. *)
Theorem findBestQueueFamilyIndices_union (pd : PhysicalDevice) :
  union_list (findBestQueueFamilyIndices sort pd).*2
  = union_list (queueFamilieScores pd).*2.
Proof using sort_ok. by apply findBest_union. Qed.

(** The returned indices are distinct indices of input families. *)
Lemma findBest_indices (pd : PhysicalDevice) :
  NoDup (findBestQueueFamilyIndices sort pd).*1
  /\ (findBestQueueFamilyIndices sort pd).*1 ⊆ (queueFamilieScores pd).*1.
Proof using sort_ok.
  unfold findBestQueueFamilyIndices, sortedQueueFamilieScores, greedy.
  destruct (greedy_indices (sort (queueFamilieScores pd)) ([], empty))
    as (k & -> & Hsub). simpl.
  assert (Hperm : (sort (queueFamilieScores pd)).*1 ≡ₚ (queueFamilieScores pd).*1).
  { by rewrite (sort_perm sort sort_ok). }
  split.
  - eapply sublist_NoDup; [|exact Hsub].
    rewrite Hperm, queueFamilieScores_indices. apply NoDup_seq.
  - intros i Hi. rewrite <-Hperm. by eapply sublist_subseteq.
Qed.

(** C4: when the input families together cover graphics, present and
    compute, the returned list covers them too; it names distinct input
    families and gives each only roles that this family has, so that the
    families it names are themselves a sub-collection of the input that
    covers the three roles, as long as the returned list; and the returned
    list is no longer than any sub-collection of the input that covers
    them. *)
Theorem findBestQueueFamilyIndices_minimal (pd : PhysicalDevice) :
  handlesEverything (union_list (queueFamilieScores pd).*2) = true ->
  let result := findBestQueueFamilyIndices sort pd in
  handlesEverything (union_list result.*2) = true
  /\ NoDup result.*1
  /\ result.*1 ⊆ (queueFamilieScores pd).*1
  /\ Forall (fun e => exists c, (e.1, c) ∈ queueFamilieScores pd
                                /\ handlesAllOff c e.2 = true) result
  /\ (exists cover : list (nat * QC),
        cover ⊆ queueFamilieScores pd /\ cover.*1 = result.*1
        /\ handlesEverything (union_list cover.*2) = true)
  /\ forall sub : list (nat * QC),
       sub ⊆ queueFamilieScores pd ->
       handlesEverything (union_list sub.*2) = true ->
       length result <= length sub.
Proof using sort_ok.
  intros Hcover result.
  assert (Hres : handlesEverything (union_list result.*2) = true).
  { by unfold result; rewrite findBest_union. }
  split; [done|].
  destruct (findBest_indices pd) as [Hnd Hidx].
  do 2 (split; [done|]).
  pose proof (PlanFacts.plan_from_families sort sort_ok pd) as Hfrom.
  split; [done|].
  split.
  { destruct (PlanFacts.cover_of_entries _ _ Hfrom) as (cover & Hin & Hnames & Hall).
    exists cover. split_and!; try done.
    by eapply PlanFacts.subset_everything. }
  intros sub Hsub Hsubcover.
  pose proof (sort_perm sort sort_ok (queueFamilieScores pd)) as Hperm.
  pose proof (sort_sorted sort sort_ok (queueFamilieScores pd)) as Hsorted.
  unfold result, findBestQueueFamilyIndices, sortedQueueFamilieScores, greedy.
  destruct (sort (queueFamilieScores pd)) as [|h tl].
  - (* no family at all: nothing can cover *)
    symmetry in Hperm. apply Permutation_nil_r in Hperm.
    rewrite Hperm in Hsub.
    destruct sub as [|x sub]; [done|].
    specialize (Hsub x (list_elem_of_here _ _)). by apply elem_of_nil in Hsub.
  - apply StronglySorted_cons in Hsorted as [Hhead _].
    (* the first family visited has the most roles of all *)
    assert (Hmax : Forall (fun c => card c <= card h.2) sub.*2).
    { apply Forall_fmap, Forall_forall. intros x Hx. simpl.
      apply score_card_mono.
      apply Hsub in Hx. rewrite <-Hperm in Hx.
      apply elem_of_cons in Hx as [->|Hx]; [lia|].
      rewrite Forall_forall in Hhead. by apply Hhead. }
    apply card_union_list_le in Hmax. rewrite length_fmap in Hmax.
    apply card_everything in Hsubcover.
    change (foldl greedyStep ([], empty) (h :: tl))
      with (foldl greedyStep (greedyStep ([], empty) h) tl).
    destruct (handlesAllOff empty h.2) eqn:E.
    + apply handlesAllOff_empty in E. rewrite E in Hmax.
      change (card empty) with 0 in Hmax. lia.
    + pose proof (greedy_length tl (greedyStep ([], empty) h)) as Hlen.
      pose proof (card_le_3 (foldl greedyStep (greedyStep ([], empty) h) tl).2).
      pose proof (card_le_3 h.2).
      assert (Hst : greedyStep ([], empty) h = ([(h.1, diff h.2 empty)], h.2)).
      { unfold greedyStep. rewrite E. simpl. by rewrite union_empty_l. }
      rewrite Hst in *. simpl in Hlen.
      destruct (card h.2) as [|[|[|[|m]]]]; lia.
Qed.

(** C6 (as amended): the families are visited in non-increasing score
    order, each exactly once; when no two families have the same score this
    order, and with it the returned assignment, is the one a stable sort
    gives.  (Families of equal score need not be visited in enumeration
    order.) *)
Theorem queueFamilies_sorted_by_score (pd : PhysicalDevice) :
  StronglySorted (fun a b => (QueueCapabilities.score b.2 <= QueueCapabilities.score a.2)%Z)
                 (sortedQueueFamilieScores sort pd)
  /\ sortedQueueFamilieScores sort pd ≡ₚ queueFamilieScores pd
  /\ (NoDup ((fun q => QueueCapabilities.score q.2) <$> queueFamilieScores pd) ->
      sortedQueueFamilieScores sort pd = Sorts.stable_sort scoreIsGreater (queueFamilieScores pd)
      /\ findBestQueueFamilyIndices sort pd
         = findBestQueueFamilyIndices (Sorts.stable_sort scoreIsGreater) pd).
Proof using sort_ok.
  pose proof (sort_perm sort sort_ok (queueFamilieScores pd)) as Hperm.
  pose proof (sort_sorted sort sort_ok (queueFamilieScores pd)) as Hsorted.
  do 2 (split; [done|]).
  intros Hnd.
  assert (Heq : sortedQueueFamilieScores sort pd = Sorts.stable_sort scoreIsGreater (queueFamilieScores pd)).
  { pose proof (sort_perm _ SortsFacts.stable_sort_ok (queueFamilieScores pd)) as Hperm'.
    pose proof (sort_sorted _ SortsFacts.stable_sort_ok (queueFamilieScores pd)) as Hsorted'.
    eapply StronglySorted_unique_strong; [|exact Hsorted|exact Hsorted'|].
    - intros x y Hx Hy Hxy Hyx.
      apply (NoDup_fmap_eq _ _ _ _ Hnd).
      + by rewrite Hperm in Hx.
      + by rewrite Hperm' in Hy.
      + simpl in *. lia.
    - by rewrite Hperm, Hperm'. }
  split; [done|].
  unfold findBestQueueFamilyIndices. by rewrite Heq.
Qed.

End WithSort.

Lemma findBestQueueFamilyIndices_union_witness :
  union_list (findBestQueueFamilyIndices (Sorts.stable_sort scoreIsGreater) pd_split).*2
  = union_list (queueFamilieScores pd_split).*2.
Proof.
  apply (findBestQueueFamilyIndices_union (Sorts.stable_sort scoreIsGreater)).
  exact SortsFacts.stable_sort_ok.
Defined.

Lemma findBestQueueFamilyIndices_minimal_witness :
  handlesEverything (union_list (queueFamilieScores pd_split).*2) = true
  /\ length (findBestQueueFamilyIndices (Sorts.stable_sort scoreIsGreater) pd_split) <= 2.
Proof.
  split; [reflexivity|].
  destruct (findBestQueueFamilyIndices_minimal (Sorts.stable_sort scoreIsGreater)
              SortsFacts.stable_sort_ok pd_split eq_refl) as (_ & _ & _ & _ & _ & Hmin).
  apply (Hmin [(2, QueueCapabilities.mk true true false);
               (3, QueueCapabilities.mk false false true)]).
  - intros x Hx.
    apply elem_of_cons in Hx as [->|Hx]; [vm_compute; do 2 right; left|].
    apply elem_of_cons in Hx as [->|Hx]; [vm_compute; do 3 right; left|].
    by apply elem_of_nil in Hx.
  - reflexivity.
Defined.

Lemma queueFamilies_sorted_by_score_witness :
  sortedQueueFamilieScores reversing pd_distinct
  = Sorts.stable_sort scoreIsGreater (queueFamilieScores pd_distinct)
  /\ findBestQueueFamilyIndices reversing pd_distinct
     = [(4, QueueCapabilities.mk true true true)].
Proof.
  destruct (queueFamilies_sorted_by_score reversing SortsFacts.reversing_sort_ok pd_distinct)
    as (_ & _ & H).
  destruct H as [Hsorted Hsame].
  - apply (bool_decide_unpack _). vm_compute. exact I.
  - split; [exact Hsorted|]. rewrite Hsame. reflexivity.
Defined.

(** A sort that meets the contract of [std::sort] may visit the compute-only
    family 1 before the graphics-only family 0, although both have score 1,
    and the returned assignment then differs from the one in enumeration
    order. *)
Lemma sort_contract_allows_reversal :
  std_sort_contract scoreIsGreater reversing
  /\ QueueCapabilities.score (QueueCapabilities.mk true false false)
     = QueueCapabilities.score (QueueCapabilities.mk false true false)
  /\ queueFamilieScores pd_ties
     = [(0, QueueCapabilities.mk true false false); (1, QueueCapabilities.mk false true false)]
  /\ sortedQueueFamilieScores reversing pd_ties
     = [(1, QueueCapabilities.mk false true false); (0, QueueCapabilities.mk true false false)]
  /\ findBestQueueFamilyIndices reversing pd_ties
     <> findBestQueueFamilyIndices stable pd_ties.
Proof.
  split; [exact SortsFacts.reversing_sort_ok|].
  repeat split; try reflexivity.
  vm_compute. discriminate.
Qed.

(** C6, as stated, fails: of seventeen queue families that all have
    graphics, compute and present, and so the same score, the [std::sort]
    of libstdc++ puts family 8 first and family 0 tenth.  The families are
    not visited in enumeration order, and the assignment names family 8
    where a stable sort names family 0. *)
Lemma stable_order_counterexample :
  (fun q => QueueCapabilities.score q.2) <$> queueFamilieScores pd_seventeen
  = replicate 17 18%Z
  /\ Libstdcxx.sort scoreIsGreater (queueFamilieScores pd_seventeen)
     = Some ((fun index => (index, QueueCapabilities.mk true true true))
             <$> [8; 16; 15; 14; 13; 12; 11; 10; 9; 0; 7; 6; 5; 4; 3; 2; 1])
  /\ sortedQueueFamilieScores libstdcxx pd_seventeen
     <> Sorts.stable_sort scoreIsGreater (queueFamilieScores pd_seventeen)
  /\ findBestQueueFamilyIndices libstdcxx pd_seventeen
     = [(8, QueueCapabilities.mk true true true)]
  /\ findBestQueueFamilyIndices stable pd_seventeen
     = [(0, QueueCapabilities.mk true true true)].
Proof.
  split_and!.
  - vm_compute. reflexivity.
  - vm_compute. reflexivity.
  - vm_compute. discriminate.
  - vm_compute. reflexivity.
  - vm_compute. reflexivity.
Qed.

End NegotiatorClaims.

(** ** Device scoring *)

Module ScoreFacts.
Import QueueCapabilities QueueCapabilitiesFacts Device Scoring.

Lemma add_small (a b : Z) :
  (0 <= a + b < UInt32.modulus)%Z -> UInt32.add a b = (a + b)%Z.
Proof. intros H. unfold UInt32.add, UInt32.wrap. by apply Z.mod_small. Qed.

Section Best.
Context {A : Type} (scoreOf : A -> option Z).

Lemma bestStep_fst_mono (st st' : Z * A) (x : A) :
  (st.1 <= st'.1)%Z -> ((bestStep scoreOf st x).1 <= (bestStep scoreOf st' x).1)%Z.
Proof.
  unfold bestStep. destruct (scoreOf x) as [s|]; [|done].
  repeat case_match; simpl; lia.
Qed.

Lemma bestStep_fst_ge (st : Z * A) (x : A) :
  (st.1 <= (bestStep scoreOf st x).1)%Z.
Proof.
  unfold bestStep. destruct (scoreOf x) as [s|]; [|done].
  case_match; simpl; lia.
Qed.

Lemma best_fst_mono (l : list A) (st st' : Z * A) :
  (st.1 <= st'.1)%Z ->
  ((foldl (bestStep scoreOf) st l).1 <= (foldl (bestStep scoreOf) st' l).1)%Z.
Proof.
  revert st st'. induction l as [|x l IH]; intros st st' H; simpl; [done|].
  by apply IH, bestStep_fst_mono.
Qed.

Lemma best_fst_ge (l : list A) (st : Z * A) :
  (st.1 <= (foldl (bestStep scoreOf) st l).1)%Z.
Proof.
  revert st. induction l as [|x l IH]; intros st; simpl; [done|].
  etrans; [apply bestStep_fst_ge|apply IH].
Qed.

(** The best score dominates the score of every entry. *)
Lemma best_fst_max (l : list A) (st : Z * A) (x : A) (s : Z) :
  x ∈ l -> scoreOf x = Some s -> (s <= (foldl (bestStep scoreOf) st l).1)%Z.
Proof.
  revert st. induction l as [|y l IH]; intros st Hx Hs; simpl.
  - by apply elem_of_nil in Hx.
  - apply elem_of_cons in Hx as [<-|Hx]; [|by apply IH].
    etrans; [|apply best_fst_ge].
    unfold bestStep. rewrite Hs. case_match; simpl; lia.
Qed.

(** The entry kept is the initial one, untouched, or an entry of the list
    with the best score. *)
Lemma best_snd (l : list A) (st : Z * A) :
  foldl (bestStep scoreOf) st l = st
  \/ ((foldl (bestStep scoreOf) st l).2 ∈ l
      /\ scoreOf (foldl (bestStep scoreOf) st l).2 = Some (foldl (bestStep scoreOf) st l).1).
Proof.
  revert st. induction l as [|y l IH]; intros st; simpl; [by left|].
  destruct (IH (bestStep scoreOf st y)) as [Heq|[Hin Hsc]].
  - rewrite Heq. unfold bestStep.
    destruct (scoreOf y) as [s|] eqn:E; [|by left].
    case_match; [|by left].
    right. simpl. split; [by left|done].
  - right. split; [by right|done].
Qed.

(** Inserting an entry never lowers the best score. *)
Lemma best_insert (pos : nat) (x : A) (l : list A) (st : Z * A) :
  ((foldl (bestStep scoreOf) st l).1
   <= (foldl (bestStep scoreOf) st (insert_at pos x l)).1)%Z.
Proof.
  unfold insert_at. rewrite <-(take_drop pos l) at 1.
  rewrite !foldl_app. simpl.
  apply best_fst_mono, bestStep_fst_ge.
Qed.

Lemma best_fst_upper (hi : Z) (l : list A) (st : Z * A) :
  (forall x s, x ∈ l -> scoreOf x = Some s -> s <= hi)%Z ->
  (st.1 <= hi)%Z -> ((foldl (bestStep scoreOf) st l).1 <= hi)%Z.
Proof.
  revert st. induction l as [|y l IH]; intros st Hhi Hst; simpl; [done|].
  apply IH.
  - intros x s Hx. apply Hhi. by right.
  - unfold bestStep. destruct (scoreOf y) as [s|] eqn:E; [|done].
    case_match; simpl; [|done]. apply (Hhi y); [by left|done].
Qed.

(** Inserting an entry that scores at least the current best makes its
    score the best. *)
Lemma best_insert_eq (pos : nat) (x : A) (s : Z) (l : list A) (st : Z * A) :
  scoreOf x = Some s ->
  ((foldl (bestStep scoreOf) st l).1 <= s)%Z ->
  (foldl (bestStep scoreOf) st (insert_at pos x l)).1 = s.
Proof.
  intros Hs Hle. apply Z.le_antisymm.
  - apply best_fst_upper.
    + intros y sy Hy Hsy. unfold insert_at in Hy.
      apply elem_of_app in Hy as [Hy|Hy]; [|apply elem_of_cons in Hy as [->|Hy]].
      * etrans; [|exact Hle].
        apply (best_fst_max _ _ y sy); [|done]. by eapply subseteq_take.
      * by simplify_eq.
      * etrans; [|exact Hle].
        apply (best_fst_max _ _ y sy); [|done]. by eapply subseteq_drop.
    + etrans; [apply (best_fst_ge l)|done].
  - apply (best_fst_max _ _ x s); [|done].
    unfold insert_at. apply elem_of_app. right. by left.
Qed.

(** The best score does not depend on the entry initially held. *)
Lemma best_fst_init (l : list A) (b : Z) (x y : A) :
  (foldl (bestStep scoreOf) (b, x) l).1 = (foldl (bestStep scoreOf) (b, y) l).1.
Proof.
  apply Z.le_antisymm; by apply best_fst_mono.
Qed.

Lemma best_fst_bound (hi : Z) (l : list A) (st : Z * A) :
  (forall x s, scoreOf x = Some s -> s <= hi)%Z ->
  (st.1 <= hi)%Z -> ((foldl (bestStep scoreOf) st l).1 <= hi)%Z.
Proof.
  intros Hhi. revert st. induction l as [|y l IH]; intros st Hst; simpl; [done|].
  apply IH. unfold bestStep.
  destruct (scoreOf y) as [s|] eqn:E; [|done].
  case_match; simpl; eauto.
Qed.

End Best.

Lemma surfaceFormatStep_eq : surfaceFormatStep = bestStep surfaceFormatScore.
Proof. reflexivity. Qed.

Lemma presentModeStep_eq : presentModeStep = bestStep presentModeScore.
Proof. reflexivity. Qed.

Lemma surfaceFormatScore_range (f : Vk.SurfaceFormatKHR) (s : Z) :
  surfaceFormatScore f = Some s -> (2 <= s <= 110)%Z.
Proof.
  intros H. destruct f as [fmt cs].
  destruct cs, fmt; vm_compute in H; simplify_eq; lia.
Qed.

Lemma presentModeScore_range (m : Vk.PresentModeKHR) (s : Z) :
  presentModeScore m = Some s -> (1 <= s <= 10)%Z.
Proof. intros H. destruct m; vm_compute in H; simplify_eq; lia. Qed.

Lemma deviceTypeScore_range (ty : Vk.PhysicalDeviceType) :
  (1 <= deviceTypeScore ty <= 4)%Z.
Proof. destruct ty; simpl; lia. Qed.

Lemma bestFormat_range (l : list Vk.SurfaceFormatKHR) (x : Vk.SurfaceFormatKHR) :
  (0 <= (foldl surfaceFormatStep (0%Z, x) l).1 <= 110)%Z.
Proof.
  split.
  - apply (best_fst_ge surfaceFormatScore l (0%Z, x)).
  - apply (best_fst_bound surfaceFormatScore 110 l (0%Z, x)); simpl; [|lia].
    intros f s Hs. by apply surfaceFormatScore_range in Hs as [_ ?].
Qed.

Lemma bestPresent_range (l : list Vk.PresentModeKHR) (x : Vk.PresentModeKHR) :
  (0 <= (foldl presentModeStep (0%Z, x) l).1 <= 10)%Z.
Proof.
  split.
  - apply (best_fst_ge presentModeScore l (0%Z, x)).
  - apply (best_fst_bound presentModeScore 10 l (0%Z, x)); simpl; [|lia].
    intros f s Hs. by apply presentModeScore_range in Hs as [_ ?].
Qed.

Section WithSort.
Variable sort : list (nat * QC) -> list (nat * QC).

(** The capabilities [score] accumulates from the negotiated assignment. *)
Lemma deviceCapabilities_eq (l : list (nat * QC)) :
  foldl (fun acc x => union acc x.2) empty l = union_list l.*2.
Proof.
  transitivity (foldl union empty l.*2).
  - generalize empty. induction l as [|q l IH]; intros t; simpl; [done|]. apply IH.
  - by rewrite foldl_union_list, union_empty_l.
Qed.

(** The score and the members written for a device that passes. *)
Lemma score_passes (d : t) :
  passes sort d = true ->
  let pd := physicalIntrinsic d in
  let bf := foldl surfaceFormatStep (0%Z, bestSurfaceFormat d) (getSurfaceFormatsKHR pd) in
  let bp := foldl presentModeStep (0%Z, bestSurfacePresentMode d)
                  (getSurfacePresentModesKHR pd) in
  score sort d
  = ((bf.1 + bp.1 + deviceTypeScore (deviceType pd))%Z,
     mk pd (findBestQueueFamilyIndices sort pd) bf.2 bp.2).
Proof.
  intros H pd bf bp. subst pd bf bp. unfold passes in H.
  repeat (apply andb_true_iff in H as [H ?]).
  rename H into Hf, H0 into Hp, H1 into Hgc, H2 into He, H3 into Hl.
  unfold score. rewrite Hf, Hl, He. simpl.
  rewrite deviceCapabilities_eq, Hgc, Hp. simpl.
  pose proof (bestFormat_range (getSurfaceFormatsKHR (physicalIntrinsic d))
                (bestSurfaceFormat d)) as Hbf.
  pose proof (bestPresent_range (getSurfacePresentModesKHR (physicalIntrinsic d))
                (bestSurfacePresentMode d)) as Hbp.
  destruct (foldl surfaceFormatStep _ _) as [bfs bff].
  destruct (foldl presentModeStep _ _) as [bps bpm].
  simpl in Hbf, Hbp |- *.
  pose proof (deviceTypeScore_range (deviceType (physicalIntrinsic d))) as Hdt.
  rewrite (add_small 0 bfs) by (unfold UInt32.modulus; lia).
  rewrite (add_small _ bps) by (unfold UInt32.modulus; lia).
  rewrite (add_small _ (deviceTypeScore _)) by (unfold UInt32.modulus; lia).
  destruct (0 + bfs <? bfs)%Z eqn:E1; [lia|].
  destruct (0 + bfs + bps <? bps)%Z eqn:E2; [lia|].
  unfold UInt32.to_int.
  destruct (0 + bfs + bps + deviceTypeScore (deviceType (physicalIntrinsic d))
            <? 2147483648)%Z eqn:E3; [|lia].
  done.
Qed.

Lemma score_fails (d : t) :
  passes sort d = false -> (score sort d).1 = (-1)%Z \/ (score sort d).1 = 0%Z.
Proof.
  unfold passes, score.
  destruct (hasRequiredFeatures (physicalIntrinsic d)); simpl; [|by left].
  destruct (meetsRequiredLimits (physicalIntrinsic d)); simpl; [|by left].
  destruct (hasRequiredExtensions (physicalIntrinsic d)); simpl; [|by left].
  rewrite deviceCapabilities_eq.
  destruct (handlesGraphicsAndCompute _); simpl; [|by left].
  destruct (handlesPresent _); simpl; [done|by right].
Qed.

Lemma score_positive_passes (d : t) : (0 < (score sort d).1)%Z -> passes sort d = true.
Proof.
  intros Hpos. destruct (passes sort d) eqn:E; [done|].
  destruct (score_fails d E); lia.
Qed.

End WithSort.
End ScoreFacts.

Module ScoreClaims.
Import QueueCapabilities QueueCapabilitiesFacts Device Scoring ScoreFacts.

Section WithSort.
Variable sort : list (nat * QC) -> list (nat * QC).

(** C1: [score] returns -1 when the required features, limits or extensions
    are unmet, and when the negotiated queue-family assignment does not
    cover both graphics and compute; it returns 0 when graphics and compute
    are covered but no family of the assignment can present; in every other
    case the score is positive. *)
Theorem score_verdict (d : t) :
  let pd := physicalIntrinsic d in
  let caps := union_list (findBestQueueFamilyIndices sort pd).*2 in
  let manifest :=
    hasRequiredFeatures pd && meetsRequiredLimits pd && hasRequiredExtensions pd in
  (manifest = false -> (score sort d).1 = (-1)%Z)
  /\ (handlesGraphicsAndCompute caps = false -> (score sort d).1 = (-1)%Z)
  /\ (manifest = true -> handlesGraphicsAndCompute caps = true ->
      handlesPresent caps = false -> (score sort d).1 = 0%Z)
  /\ (manifest = true -> handlesGraphicsAndCompute caps = true ->
      handlesPresent caps = true -> (0 < (score sort d).1)%Z).
Proof.
  intros pd caps manifest. subst manifest caps pd.
  split; [|split; [|split]].
  - unfold score.
    destruct (hasRequiredFeatures _); simpl; [|done].
    destruct (meetsRequiredLimits _); simpl; [|done].
    destruct (hasRequiredExtensions _); simpl; done.
  - intros Hgc. unfold score.
    destruct (hasRequiredFeatures _); simpl; [|done].
    destruct (meetsRequiredLimits _); simpl; [|done].
    destruct (hasRequiredExtensions _); simpl; [|done].
    by rewrite deviceCapabilities_eq, Hgc.
  - intros Hm Hgc Hp. unfold score.
    repeat (apply andb_true_iff in Hm as [Hm ?]).
    rewrite Hm, H, H0. simpl.
    by rewrite deviceCapabilities_eq, Hgc, Hp.
  - intros Hm Hgc Hp.
    rewrite score_passes by (unfold passes; by rewrite Hm, Hgc, Hp).
    simpl.
    pose proof (bestFormat_range (getSurfaceFormatsKHR (physicalIntrinsic d))
                  (bestSurfaceFormat d)).
    pose proof (bestPresent_range (getSurfacePresentModesKHR (physicalIntrinsic d))
                  (bestSurfacePresentMode d)).
    pose proof (deviceTypeScore_range (deviceType (physicalIntrinsic d))).
    lia.
Qed.

(** C3 (as amended): for a device that reaches the present-mode loop, the
    mode stored in [bestSurfacePresentMode] is mailbox when mailbox is
    supported, else fifo when fifo is supported, else fifo-relaxed, else
    immediate. *)
Theorem bestSurfacePresentMode_ranking (d : t) :
  passes sort d = true ->
  let modes := getSurfacePresentModesKHR (physicalIntrinsic d) in
  let best := bestSurfacePresentMode (score sort d).2 in
  (Vk.eMailbox ∈ modes -> best = Vk.eMailbox)
  /\ (Vk.eMailbox ∉ modes -> Vk.eFifo ∈ modes -> best = Vk.eFifo)
  /\ (Vk.eMailbox ∉ modes -> Vk.eFifo ∉ modes -> Vk.eFifoRelaxed ∈ modes ->
      best = Vk.eFifoRelaxed)
  /\ (Vk.eMailbox ∉ modes -> Vk.eFifo ∉ modes -> Vk.eFifoRelaxed ∉ modes ->
      Vk.eImmediate ∈ modes -> best = Vk.eImmediate).
Proof.
  intros Hpass modes best. subst best.
  rewrite (score_passes sort d Hpass). simpl. fold modes.
  rewrite presentModeStep_eq.
  set (r := foldl (bestStep presentModeScore) (0%Z, bestSurfacePresentMode d) modes).
  (* any supported mode with a score is dominated by the one kept *)
  assert (Hdom : forall m s, m ∈ modes -> presentModeScore m = Some s ->
                 r.2 ∈ modes /\ exists sb, presentModeScore r.2 = Some sb /\ (s <= sb)%Z).
  { intros m s Hm Hs.
    pose proof (best_fst_max presentModeScore modes
                  (0%Z, bestSurfacePresentMode d) m s Hm Hs) as Hmax.
    pose proof (presentModeScore_range m s Hs) as Hrange.
    destruct (best_snd presentModeScore modes (0%Z, bestSurfacePresentMode d))
      as [Heq|[Hin Hsc]].
    - rewrite Heq in Hmax. simpl in Hmax. lia.
    - split; [exact Hin|]. eexists. split; [exact Hsc|exact Hmax]. }
  repeat split.
  - intros Hm. destruct (Hdom _ _ Hm eq_refl) as (Hin & sb & Hsb & Hle).
    destruct r.2; vm_compute in Hsb, Hle; simplify_eq; done.
  - intros Hn1 Hm. destruct (Hdom _ _ Hm eq_refl) as (Hin & sb & Hsb & Hle).
    destruct r.2; vm_compute in Hsb, Hle; simplify_eq; done.
  - intros Hn1 Hn2 Hm. destruct (Hdom _ _ Hm eq_refl) as (Hin & sb & Hsb & Hle).
    destruct r.2; vm_compute in Hsb, Hle; simplify_eq; done.
  - intros Hn1 Hn2 Hn3 Hm. destruct (Hdom _ _ Hm eq_refl) as (Hin & sb & Hsb & Hle).
    destruct r.2; vm_compute in Hsb, Hle; simplify_eq; done.
Qed.

Lemma passes_extend (e : Extension) (d : t) :
  passes sort (extend e d) = passes sort d.
Proof. by destruct e. Qed.

(** Adding any entry, whatever its score, never lowers a positive score. *)
Lemma score_extend_le (e : Extension) (d : t) :
  (0 < (score sort d).1)%Z -> ((score sort d).1 <= (score sort (extend e d)).1)%Z.
Proof.
  intros Hpos. apply score_positive_passes in Hpos.
  rewrite (score_passes sort d Hpos).
  rewrite (score_passes sort (extend e d)) by (by rewrite passes_extend).
  destruct e as [pos m|pos f]; simpl.
  - pose proof (best_insert presentModeScore pos m
                  (getSurfacePresentModesKHR (physicalIntrinsic d))
                  (0%Z, bestSurfacePresentMode d)) as H.
    rewrite presentModeStep_eq. lia.
  - pose proof (best_insert surfaceFormatScore pos f
                  (getSurfaceFormatsKHR (physicalIntrinsic d))
                  (0%Z, bestSurfaceFormat d)) as H.
    rewrite surfaceFormatStep_eq. lia.
Qed.

(** C9: for a device with a positive score, adding to its supported
    present modes or surface formats an entry that scores at least as high
    as the current best does not decrease the score: the new score is the
    old one raised by the margin of the new entry over the old best. *)
Theorem score_monotone (e : Extension) (d : t) (s : Z) :
  (0 < (score sort d).1)%Z ->
  entryScore e = Some s ->
  (currentBest e d <= s)%Z ->
  ((score sort d).1 <= (score sort (extend e d)).1)%Z
  /\ (score sort (extend e d)).1 = ((score sort d).1 + (s - currentBest e d))%Z.
Proof.
  intros Hpos Hs Hbest. split; [by apply score_extend_le|].
  apply score_positive_passes in Hpos.
  rewrite (score_passes sort d Hpos).
  rewrite (score_passes sort (extend e d)) by (by rewrite passes_extend).
  destruct e as [pos m|pos f]; simpl in *.
  - rewrite presentModeStep_eq in *.
    rewrite (best_insert_eq presentModeScore pos m s) by done. lia.
  - rewrite surfaceFormatStep_eq in *.
    rewrite (best_insert_eq surfaceFormatScore pos f s) by done. lia.
Qed.

End WithSort.
End ScoreClaims.

(** ** Device selection *)

Module SelectionFacts.
Import Device Scoring Instance_base.

(** Entries that do not reach the best score so far leave the state alone. *)
Lemma select_keep (es : list (nat * Z)) (st : Z * option nat) :
  Forall (fun e => (e.2 < st.1)%Z) es -> foldl selectStep st es = st.
Proof.
  induction 1 as [|[i s] es He _ IH]; simpl; [done|].
  destruct st as [b o]. simpl in *.
  destruct (b <=? s)%Z eqn:E; [lia|done].
Qed.

(** The best score never exceeds a bound on the start and on the entries. *)
Lemma select_bound (hi : Z) (es : list (nat * Z)) (st : Z * option nat) :
  (st.1 <= hi)%Z -> Forall (fun e => (e.2 <= hi)%Z) es ->
  ((foldl selectStep st es).1 <= hi)%Z.
Proof.
  intros Hst Hes. revert st Hst.
  induction Hes as [|[i s] es He _ IH]; intros [b o] Hst; simpl in *; [done|].
  apply IH. destruct (b <=? s)%Z; simpl; lia.
Qed.

(** The best score never decreases. *)
Lemma select_lower (es : list (nat * Z)) (st : Z * option nat) :
  (st.1 <= (foldl selectStep st es).1)%Z.
Proof.
  revert st. induction es as [|[i s] es IH]; intros [b o]; simpl; [done|].
  etrans; [|apply IH]. destruct (b <=? s)%Z eqn:E; simpl; lia.
Qed.

Lemma imap_map {A B C} (f : nat -> B -> C) (g : A -> B) (l : list A) :
  imap f (map g l) = imap (fun i x => f i (g x)) l.
Proof.
  revert f. induction l as [|x l IH]; intros f; simpl; [done|].
  f_equal. apply IH.
Qed.

Section WithSort.
Variable sort : list (nat * QC) -> list (nat * QC).

(** The list the selection loop walks: position and score of each device. *)
Lemma scored_entries (devices : list t) :
  imap (fun i r => (i, r.1)) (map (score sort) devices)
  = imap (fun i d => (i, (score sort d).1)) devices.
Proof. apply (imap_map (fun i r => (i, r.1)) (score sort)). Qed.

(** C2 (as amended): when the maximum score among the candidates is not the
    rejection sentinel, [findBestDeviceForWindow] returns the last-enumerated
    candidate that attains it. *)
Theorem findBestDeviceForWindow_last_max (devices : list t) (i : nat) (d : t) :
  devices !! i = Some d ->
  (0 <= (score sort d).1)%Z ->
  (forall j dj, devices !! j = Some dj -> ((score sort dj).1 <= (score sort d).1)%Z) ->
  (forall j dj, devices !! j = Some dj -> i < j ->
                ((score sort dj).1 < (score sort d).1)%Z) ->
  (findBestDeviceForWindow sort devices).1 = Some i.
Proof.
  intros Hi Hpos Hmax Hlast.
  unfold findBestDeviceForWindow. rewrite scored_entries.
  rewrite <-(take_drop_middle devices i d Hi) at 1.
  rewrite imap_app. simpl. rewrite foldl_app. simpl.
  assert (Hlen : length (take i devices) = i).
  { apply length_take_le. apply lookup_lt_Some in Hi. lia. }
  rewrite Hlen, Nat.add_0_r.
  set (st1 := foldl selectStep ((-1)%Z, None) _).
  assert (Hst1 : (st1.1 <= (score sort d).1)%Z).
  { apply select_bound; simpl; [lia|].
    apply Forall_forall. intros e He.
    apply elem_of_lookup_imap_1 in He as (j & dj & -> & Hj). simpl.
    apply lookup_take_Some in Hj as [Hj _]. by eapply Hmax. }
  destruct st1 as [b1 o1]. simpl in Hst1. simpl.
  destruct (b1 <=? (score sort d).1)%Z eqn:E; [|lia].
  rewrite select_keep.
  - destruct ((score sort d).1 =? -1)%Z eqn:E'; [lia|done].
  - simpl. apply Forall_forall. intros e He.
    apply elem_of_lookup_imap_1 in He as (j & dj & -> & Hj). simpl.
    rewrite lookup_drop in Hj. eapply Hlast; [exact Hj|lia].
Qed.

(** The score depends on the physical device only, not on what an earlier
    call of [score] has written into the device object. *)
Lemma score_fst_physical (d d' : t) :
  physicalIntrinsic d = physicalIntrinsic d' -> (score sort d).1 = (score sort d').1.
Proof.
  intros H. destruct (passes sort d) eqn:E.
  - assert (E' : passes sort d' = true) by (unfold passes in *; by rewrite <-H).
    rewrite (ScoreFacts.score_passes sort d E), (ScoreFacts.score_passes sort d' E').
    simpl. rewrite <-H.
    rewrite ScoreFacts.surfaceFormatStep_eq, ScoreFacts.presentModeStep_eq.
    rewrite (ScoreFacts.best_fst_init _ _ _ (bestSurfaceFormat d) (bestSurfaceFormat d')).
    by rewrite (ScoreFacts.best_fst_init _ _ _ (bestSurfacePresentMode d)
                  (bestSurfacePresentMode d')).
  - unfold passes in E. unfold score. rewrite <-H.
    destruct (hasRequiredFeatures _); simpl in *; [|done].
    destruct (meetsRequiredLimits _); simpl in *; [|done].
    destruct (hasRequiredExtensions _); simpl in *; [|done].
    rewrite ScoreFacts.deviceCapabilities_eq.
    destruct (QueueCapabilities.handlesGraphicsAndCompute _); simpl in *; [|done].
    destruct (QueueCapabilities.handlesPresent _); simpl in *; done.
Qed.

Lemma score_snd_physical (d : t) :
  physicalIntrinsic (score sort d).2 = physicalIntrinsic d.
Proof.
  destruct (passes sort d) eqn:E.
  - by rewrite (ScoreFacts.score_passes sort d E).
  - unfold score.
    repeat (match goal with
            | |- context [if ?b then _ else _] => destruct b
            | |- context [let '(_, _) := ?x in _] => destruct x
            end; simpl; try done).
Qed.

(** Selection is repeatable: run again on the devices as the first run left
    them, it returns the same device. *)
Lemma findBestDeviceForWindow_again (devices : list t) :
  (findBestDeviceForWindow sort (findBestDeviceForWindow sort devices).2).1
  = (findBestDeviceForWindow sort devices).1.
Proof.
  assert (Hsnd : (findBestDeviceForWindow sort devices).2
                 = map snd (map (score sort) devices)).
  { unfold findBestDeviceForWindow. by destruct (foldl selectStep _ _). }
  rewrite Hsnd. unfold findBestDeviceForWindow. rewrite !scored_entries.
  assert (Heq : forall (f : nat -> Z -> nat * Z) (l : list t),
            imap (fun i d => f i (score sort d).1) (map snd (map (score sort) l))
            = imap (fun i d => f i (score sort d).1) l).
  { intros f l. revert f. induction l as [|d l IH]; intros f; simpl; [done|].
    f_equal; [|apply (IH (fun i => f (S i)))].
    f_equal. apply score_fst_physical, score_snd_physical. }
  specialize (Heq pair devices). simpl in Heq.
  rewrite Heq. by destruct (foldl selectStep _ _).
Qed.

(** When every candidate is rejected, no device is returned. *)
Lemma findBestDeviceForWindow_none (devices : list t) :
  (forall j dj, devices !! j = Some dj -> (score sort dj).1 = (-1)%Z) ->
  (findBestDeviceForWindow sort devices).1 = None.
Proof.
  intros Hall. unfold findBestDeviceForWindow. rewrite scored_entries.
  set (st := foldl selectStep _ _).
  assert (Hb : (st.1 <= -1)%Z).
  { apply select_bound; simpl; [lia|].
    apply Forall_forall. intros e He.
    apply elem_of_lookup_imap_1 in He as (j & dj & -> & Hj). simpl.
    rewrite (Hall j dj Hj). lia. }
  assert (Hge : (-1 <= st.1)%Z) by apply (select_lower _ ((-1)%Z, None)).
  destruct st as [b o]. simpl in *.
  destruct (b =? -1)%Z eqn:E; [done|lia].
Qed.

End WithSort.

Lemma findBestDeviceForWindow_last_max_witness :
  (findBestDeviceForWindow stable twoGpus).1 = Some 1.
Proof.
  apply (findBestDeviceForWindow_last_max stable twoGpus 1 (fresh pd_unified)).
  - reflexivity.
  - vm_compute. discriminate.
  - intros [|[|j]] dj Hj; simpl in Hj; simplify_eq; vm_compute; discriminate.
  - intros [|[|j]] dj Hj Hlt; simpl in Hj; simplify_eq; lia.
Defined.

(** C2 as stated fails: both candidates score 10, the greatest score, and the
    second one enumerated is returned. *)
Lemma first_enumerated_counterexample :
  (score stable (fresh pd_split)).1 = 10%Z
  /\ (score stable (fresh pd_unified)).1 = 10%Z
  /\ (findBestDeviceForWindow stable twoGpus).1 = Some 1
  /\ (findBestDeviceForWindow stable twoGpus).1 <> Some 0.
Proof. repeat split; try reflexivity. vm_compute. discriminate. Qed.

(** The rejected candidate scores -1, the integrated GPU 8, the discrete GPU
    124, and the discrete GPU is selected. *)
Example select_discrete :
  map (fun d => (score stable d).1) threeCandidates = [-1; 8; 124]%Z
  /\ (findBestDeviceForWindow stable threeCandidates).1 = Some 2.
Proof. split; vm_compute; reflexivity. Qed.

End SelectionFacts.

Module ScoreWitnesses.
Import QueueCapabilities Device Scoring ScoreClaims.

Lemma score_verdict_witness :
  (score stable (fresh pd_ties)).1 = 0%Z
  /\ (0 < (score stable (fresh pd_split)).1)%Z.
Proof.
  split.
  - by apply (score_verdict stable (fresh pd_ties)).
  - by apply (score_verdict stable (fresh pd_split)).
Defined.

Lemma bestSurfacePresentMode_ranking_witness :
  bestSurfacePresentMode (score stable (fresh pd_split)).2 = Vk.eFifo.
Proof.
  destruct (bestSurfacePresentMode_ranking stable (fresh pd_split) eq_refl)
    as (_ & H & _).
  apply H.
  - vm_compute. intros Hin.
    repeat (apply elem_of_cons in Hin as [Hin|Hin]; [discriminate|]).
    by apply elem_of_nil in Hin.
  - vm_compute. right. left.
Defined.

(** C3 as stated fails: fifo-relaxed and fifo are both supported, and fifo is
    the mode chosen, in whichever order the two are enumerated. *)
Lemma fifo_relaxed_counterexample :
  getSurfacePresentModesKHR pd_split = [Vk.eFifoRelaxed; Vk.eFifo]
  /\ passes stable (fresh pd_split) = true
  /\ bestSurfacePresentMode (score stable (fresh pd_split)).2 = Vk.eFifo
  /\ getSurfacePresentModesKHR pd_unified = [Vk.eFifo; Vk.eFifoRelaxed]
  /\ passes stable (fresh pd_unified) = true
  /\ bestSurfacePresentMode (score stable (fresh pd_unified)).2 = Vk.eFifo.
Proof. repeat split; reflexivity. Qed.

Lemma score_monotone_witness :
  ((score stable (fresh pd_split)).1
   <= (score stable (extend (AddPresentMode 0 Vk.eMailbox) (fresh pd_split))).1)%Z
  /\ ((score stable (fresh pd_split)).1
      <= (score stable
            (extend (AddSurfaceFormat 1
                       (Vk.mkSurfaceFormat Vk.eR16G16B16A16Sfloat Vk.eExtendedSrgbNonlinearEXT))
                    (fresh pd_split))).1)%Z.
Proof.
  split.
  - apply (score_monotone stable (AddPresentMode 0 Vk.eMailbox) (fresh pd_split) 10).
    + vm_compute. reflexivity.
    + reflexivity.
    + vm_compute. discriminate.
  - apply (score_monotone stable
             (AddSurfaceFormat 1
                (Vk.mkSurfaceFormat Vk.eR16G16B16A16Sfloat Vk.eExtendedSrgbNonlinearEXT))
             (fresh pd_split) 110).
    + vm_compute. reflexivity.
    + reflexivity.
    + vm_compute. discriminate.
Defined.

End ScoreWitnesses.

(** ** Pipeline lifecycle *)

Module PipelineFacts.
Import Pipeline_vulkan Lifecycle.

Lemma run_bind {A B} (m : M A) (f : A -> M B) (s s' : State) (a : A) :
  m s = Some (a, s') -> (m ≫= f) s = f a s'.
Proof. intros H. unfold mbind, M_bind. by rewrite H. Qed.

Lemma run_bind_none {A B} (m : M A) (f : A -> M B) (s : State) :
  m s = None -> (m ≫= f) s = None.
Proof. intros H. unfold mbind, M_bind. by rewrite H. Qed.

Lemma run_ret {A} (a : A) (s : State) : (mret a : M A) s = Some (a, s).
Proof. done. Qed.

Lemma state_eta (s : State) :
  mkState (this s) (nextHandle s) (calls s) (swapchainFramebuffers s) = s.
Proof. by destruct s. Qed.

Lemma after_id (s : State) : after id 0 [] s = s.
Proof.
  unfold after. simpl. rewrite N.add_0_r, app_nil_r. apply state_eta.
Qed.

Lemma after_after (f g : t -> t) (j k : nat) (cs ds : list Call) (s : State) :
  after g k ds (after f j cs s) = after (g ∘ f) (j + k) (cs ++ ds) s.
Proof.
  unfold after. simpl. f_equal; [lia|by rewrite app_assoc].
Qed.

Lemma after_ext (f g : t -> t) (j k : nat) (cs ds : list Call) (s : State) :
  f (this s) = g (this s) -> j = k -> cs = ds -> after f j cs s = after g k ds s.
Proof. intros Hf -> ->. unfold after. by rewrite Hf. Qed.

Lemma after_same (f : t -> t) (s : State) :
  f (this s) = this s -> after f 0 [] s = s.
Proof. intros H. rewrite <-(after_id s) at 2. by apply after_ext. Qed.

(** Closes an equation between two results whose states are given by
    [after]. *)
Ltac after_eq :=
  repeat match goal with x := _ |- _ => subst x end;
  rewrite ?run_ret, ?after_after;
  try (apply (f_equal Some)); try (apply (f_equal (pair _)));
  apply after_ext;
  simpl; rewrite ?Nat.add_0_r, ?N.add_0_r, ?app_nil_r, <-?app_assoc;
  simpl; try done; try lia.

Lemma length_handles (h : handle) (n : nat) : length (handles h n) = n.
Proof. revert h. induction n as [|n IH]; intros h; simpl; [done|]. by rewrite IH. Qed.

Lemma run_modify (f : t -> t) (s : State) : modify f s = Some (tt, after f 0 [] s).
Proof. unfold modify, after. by rewrite N.add_0_r, app_nil_r. Qed.

Lemma run_call (c : Call) (s : State) : call c s = Some (tt, after id 0 [c] s).
Proof. unfold call, after. simpl. by rewrite N.add_0_r. Qed.

Lemma run_fresh (s : State) : fresh s = Some (nextHandle s, after id 1 [] s).
Proof. unfold fresh, after. simpl. rewrite app_nil_r. do 3 f_equal. lia. Qed.

Lemma run_get (s : State) : get s = Some (this s, s).
Proof. done. Qed.

Lemma run_at {A} (v : list A) (i : nat) (a : A) (s : State) :
  v !! i = Some a -> at_ v i s = Some (a, s).
Proof. intros H. unfold at_. by rewrite H. Qed.

Lemma run_numeric_cast (n : nat) (s : State) :
  UInt32.fits n -> numeric_cast n s = Some (n, s).
Proof.
  intros H. unfold numeric_cast, UInt32.fitsb, UInt32.fits in *.
  destruct (Z.of_nat n <? UInt32.modulus)%Z eqn:E; [done|lia].
Qed.

(** A loop whose body only makes a call. *)
Lemma run_for_each_call {A} (l : list A) (c : A -> Call) (s : State) :
  for_each l (fun x => call (c x)) s = Some (tt, after id 0 (c <$> l) s).
Proof.
  revert s. induction l as [|x l IH]; intros s; simpl.
  - by rewrite after_id.
  - erewrite run_bind by apply run_call.
    rewrite IH, after_after. do 2 f_equal.
Qed.

Lemma run_repeat_fresh (n : nat) (s : State) :
  repeatM n fresh s = Some (handles (nextHandle s) n, after id n [] s).
Proof.
  revert s. induction n as [|n IH]; intros s.
  - simpl. by rewrite after_id.
  - cbn [repeatM]. erewrite run_bind by apply run_fresh.
    erewrite run_bind by apply IH.
    rewrite run_ret, after_after. simpl. by rewrite N.add_1_r.
Qed.

(** A loop over the indices of a vector that reads the element and makes a
    call on it. *)
Lemma run_for_each_index (l1 l2 : list handle) (c : handle -> Call) (s : State) :
  for_each (seq (length l1) (length l2))
           (fun i => x ← at_ (l1 ++ l2) i; call (c x)) s
  = Some (tt, after id 0 (c <$> l2) s).
Proof.
  revert l1 s. induction l2 as [|x l2 IH]; intros l1 s; simpl.
  - by rewrite after_id.
  - erewrite run_bind; cycle 1.
    { erewrite run_bind; [apply run_call|].
      apply run_at. by rewrite lookup_app_r, Nat.sub_diag by lia. }
    specialize (IH (l1 ++ [x])). rewrite length_app in IH. simpl in IH.
    rewrite Nat.add_1_r, <-app_assoc in IH. simpl in IH.
    rewrite IH, after_after. do 2 f_equal.
Qed.

(** *** The individual build and teardown steps *)

Lemma run_createShaderModules (paths : list nat) (s : State) :
  createShaderModules paths s
  = Some (handles (nextHandle s) (length paths),
          after id (length paths)
                (zip_with createShaderModule paths (handles (nextHandle s) (length paths))) s).
Proof.
  revert s. induction paths as [|p paths IH]; intros s.
  - simpl. by rewrite after_id.
  - cbn [createShaderModules]. unfold loadShader.
    erewrite run_bind; cycle 1.
    { erewrite run_bind by apply run_fresh.
      erewrite run_bind by apply run_call. apply run_ret. }
    erewrite run_bind by apply IH.
    rewrite run_ret, !after_after. simpl. by rewrite N.add_1_r.
Qed.

Lemma run_buildShaders (paths : list nat) (s : State) :
  let modules := handles (nextHandle s) (length paths) in
  buildShaders paths s
  = Some (tt, after (set_shaders modules (createShaderStages modules)) (length paths)
                    (zip_with createShaderModule paths modules) s).
Proof.
  intros modules. unfold buildShaders.
  erewrite run_bind by apply run_createShaderModules.
  rewrite run_modify, after_after. fold modules.
  by rewrite Nat.add_0_r, app_nil_r.
Qed.

Lemma run_teardownShaders (s : State) :
  teardownShaders s
  = Some (tt, after (set_shaders [] []) 0
                    (destroyShaderModule <$> shaderModules (this s)) s).
Proof.
  unfold teardownShaders.
  erewrite run_bind by apply run_get.
  erewrite run_bind by apply run_for_each_call.
  rewrite run_modify, after_after. by rewrite app_nil_r.
Qed.

Lemma run_createVertexBuffers (n : nat) (s : State) :
  createVertexBuffers n s
  = Some (handles (nextHandle s) n,
          after id n (createBuffer <$> handles (nextHandle s) n) s).
Proof.
  unfold createVertexBuffers. revert s. induction n as [|n IH]; intros s.
  - simpl. by rewrite after_id.
  - cbn [repeatM].
    erewrite run_bind; cycle 1.
    { erewrite run_bind by apply run_fresh.
      erewrite run_bind by apply run_call. apply run_ret. }
    erewrite run_bind by apply IH.
    rewrite run_ret, !after_after. simpl. by rewrite N.add_1_r.
Qed.

Lemma run_back {A} (v : list A) (a : A) (s : State) :
  last v = Some a -> back v s = Some (a, s).
Proof. intros H. unfold back. by rewrite H. Qed.

Lemma last_handles (h : handle) (n : nat) :
  0 < n -> last (map (fun _ => tt) (handles h n)) = Some tt.
Proof.
  intros Hn. destruct (last (map (fun _ => tt) (handles h n))) as [[]|] eqn:E; [done|].
  apply last_None in E. destruct n; [lia|done].
Qed.

(** Without a buffer there is no last offset to read. *)
Lemma run_buildVertexBuffers_none (s : State) : buildVertexBuffers 0 s = None.
Proof. done. Qed.

Lemma run_buildVertexBuffers (n : nat) (s : State) :
  0 < n ->
  let buffers := handles (nextHandle s) n in
  let memory := (nextHandle s + N.of_nat n)%N in
  buildVertexBuffers n s
  = Some (tt, after (set_vertexBufferMemory memory ∘ set_vertexBuffers buffers) (S n)
                    ((createBuffer <$> buffers)
                     ++ [allocateDeviceMemoryAndBind buffers memory; mapMemory memory]) s).
Proof.
  intros Hn buffers memory. unfold buildVertexBuffers.
  erewrite run_bind by apply run_createVertexBuffers.
  erewrite run_bind by apply run_modify.
  erewrite run_bind by apply run_fresh.
  erewrite run_bind by apply run_call.
  erewrite run_bind by apply run_modify.
  unfold offsetsAndSizes.
  erewrite run_bind by (by apply run_back, last_handles).
  erewrite run_bind by (by apply run_back, last_handles).
  rewrite run_call. after_eq.
Qed.

Lemma run_teardownVertexBuffers (s : State) :
  let p := this s in
  teardownVertexBuffers s
  = Some (tt, after (set_vertexBuffers [] ∘ set_vertexBufferMemory 0%N) 0
                    ([unmapMemory (vertexBufferMemory p); freeMemory (vertexBufferMemory p)]
                     ++ (destroyBuffer <$> vertexBuffers p)) s).
Proof.
  intros p. unfold teardownVertexBuffers.
  erewrite run_bind by apply run_get.
  erewrite run_bind by apply run_call.
  erewrite run_bind by apply run_call.
  erewrite run_bind by apply run_modify.
  erewrite run_bind by apply run_for_each_call.
  rewrite run_modify. after_eq.
Qed.

Lemma insert_middle {A} (l1 l2 : list A) (x y : A) :
  <[length l1 := y]> (l1 ++ x :: l2) = l1 ++ y :: l2.
Proof. rewrite <-(Nat.add_0_r (length l1)). by rewrite insert_app_r. Qed.

Lemma lookup_middle {A} (l1 l2 : list A) (x : A) :
  (l1 ++ x :: l2) !! length l1 = Some x.
Proof. by apply list_lookup_middle. Qed.

(** The loop of [invalidateCommandBuffers] over the indices of [l2], the
    flags [l1] before them having been visited. *)
Lemma run_invalidate_loop (l2 l1 : list bool) (s : State) :
  commandBuffersValid (this s) = l1 ++ l2 ->
  for_each (seq (length l1) (length l2)) (fun imageIndex =>
    p ← get;
    _ ← at_ (commandBuffersValid p) imageIndex;
    modify (set_commandBuffersValid (<[imageIndex := false]> (commandBuffersValid p)))) s
  = Some (tt, after (set_commandBuffersValid (l1 ++ replicate (length l2) false)) 0 [] s).
Proof.
  revert l1 s. induction l2 as [|x l2 IH]; intros l1 s Hv.
  - simpl. rewrite app_nil_r in *. rewrite <-Hv, run_ret.
    rewrite after_same; [done|]. by destruct (this s).
  - cbn [length seq for_each].
    erewrite run_bind; cycle 1.
    { erewrite run_bind by apply run_get.
      erewrite run_bind by (apply run_at; rewrite Hv; apply lookup_middle).
      apply run_modify. }
    rewrite Hv, insert_middle.
    specialize (IH (l1 ++ [false])). rewrite length_app, Nat.add_1_r in IH.
    rewrite IH by (simpl; by rewrite <-app_assoc).
    after_eq.
Qed.

Lemma run_invalidateCommandBuffers (s : State) :
  invalidateCommandBuffers s
  = Some (tt, after (set_commandBuffersValid
                       (replicate (length (commandBuffersValid (this s))) false)) 0 [] s).
Proof.
  unfold invalidateCommandBuffers.
  erewrite run_bind by apply run_get.
  exact (run_invalidate_loop (commandBuffersValid (this s)) [] s eq_refl).
Qed.

Lemma run_buildCommandBuffers (n : nat) (s : State) :
  UInt32.fits n ->
  let hs := handles (nextHandle s) n in
  buildCommandBuffers n s
  = Some (tt, after (set_commandBuffersValid (replicate n false) ∘ set_commandBuffers hs) n
                    [allocateCommandBuffers n hs] s).
Proof.
  intros Hn hs. unfold buildCommandBuffers.
  erewrite run_bind by (by apply run_numeric_cast).
  erewrite run_bind by apply run_repeat_fresh.
  erewrite run_bind by apply run_call.
  erewrite run_bind by apply run_modify.
  erewrite run_bind by apply run_get.
  erewrite run_bind by apply run_modify.
  rewrite run_invalidateCommandBuffers. simpl. rewrite length_resize.
  after_eq.
Qed.

Lemma run_teardownCommandBuffers (s : State) :
  teardownCommandBuffers s
  = Some (tt, after (set_commandBuffersValid [] ∘ set_commandBuffers []) 0
                    [freeCommandBuffers (commandBuffers (this s))] s).
Proof.
  unfold teardownCommandBuffers.
  erewrite run_bind by apply run_get.
  erewrite run_bind by apply run_call.
  erewrite run_bind by apply run_modify.
  rewrite run_modify. after_eq.
Qed.

(** The loop of [buildSemaphores] over the slots [l2], the slots [l1]
    before them having been filled. *)
Lemma run_semaphore_loop (l2 l1 : list handle) (s : State) :
  renderFinishedSemaphores (this s) = l1 ++ l2 ->
  for_each (seq (length l1) (length l2)) (fun i =>
    semaphore ← fresh;
    call (createSemaphore semaphore);;
    p ← get;
    _ ← at_ (renderFinishedSemaphores p) i;
    modify (set_renderFinishedSemaphores (<[i := semaphore]> (renderFinishedSemaphores p)))) s
  = Some (tt, after (set_renderFinishedSemaphores
                       (l1 ++ handles (nextHandle s) (length l2)))
                    (length l2) (createSemaphore <$> handles (nextHandle s) (length l2)) s).
Proof.
  revert l1 s. induction l2 as [|x l2 IH]; intros l1 s Hv.
  - simpl. rewrite app_nil_r in *. rewrite <-Hv, run_ret.
    rewrite after_same; [done|]. by destruct (this s).
  - cbn [length seq for_each].
    erewrite run_bind; cycle 1.
    { erewrite run_bind by apply run_fresh.
      erewrite run_bind by apply run_call.
      erewrite run_bind by apply run_get.
      erewrite run_bind by (apply run_at; simpl; rewrite Hv; apply lookup_middle).
      apply run_modify. }
    simpl. rewrite Hv, insert_middle.
    specialize (IH (l1 ++ [nextHandle s])). rewrite length_app, Nat.add_1_r in IH.
    rewrite IH by (simpl; by rewrite <-app_assoc).
    after_eq; rewrite ?N.add_1_r; by rewrite <-?app_assoc.
Qed.

Lemma run_buildSemaphores (n : nat) (s : State) :
  let hs := handles (nextHandle s) n in
  buildSemaphores n s
  = Some (tt, after (set_renderFinishedSemaphores hs) n (createSemaphore <$> hs) s).
Proof.
  intros hs. unfold buildSemaphores.
  erewrite run_bind by apply run_get.
  erewrite run_bind by apply run_modify.
  pose proof (run_semaphore_loop
                (resize n 0%N (renderFinishedSemaphores (this s))) []
                (after (set_renderFinishedSemaphores
                          (resize n 0%N (renderFinishedSemaphores (this s)))) 0 [] s)) as H.
  rewrite length_resize in H. simpl in H. rewrite H by done.
  after_eq.
Qed.

Lemma run_teardownSemaphores (s : State) :
  teardownSemaphores s
  = Some (tt, after (set_renderFinishedSemaphores []) 0
                    (destroySemaphore <$> renderFinishedSemaphores (this s)) s).
Proof.
  unfold teardownSemaphores.
  erewrite run_bind by apply run_get.
  erewrite run_bind
    by apply (run_for_each_index [] (renderFinishedSemaphores (this s)) destroySemaphore).
  rewrite run_modify. after_eq.
Qed.

Lemma run_buildPipeline (rp : handle) (e : Extent2D) (s : State) :
  UInt32.fits (length (shaderStages (this s))) ->
  let p := this s in
  let layout := nextHandle s in
  let pipeline := N.succ (nextHandle s) in
  let info := mkInfo (length (shaderStages p)) (shaderStages p) (createViewports e)
                     (createScissors e) layout rp in
  buildPipeline rp e s
  = Some (tt, after (set_intrinsic pipeline ∘ set_scissors (createScissors e)
                     ∘ set_viewports (createViewports e) ∘ set_pipelineLayout layout
                     ∘ set_renderPass rp) 2
                    [createPipelineLayout layout; createGraphicsPipeline info pipeline] s).
Proof.
  intros Hfits p layout pipeline info. unfold buildPipeline.
  erewrite run_bind by apply run_modify.
  erewrite run_bind by apply run_fresh.
  erewrite run_bind by apply run_call.
  do 3 (erewrite run_bind by apply run_modify).
  erewrite run_bind by apply run_get.
  erewrite run_bind by (apply run_numeric_cast; exact Hfits).
  erewrite run_bind by apply run_fresh.
  erewrite run_bind by apply run_call.
  rewrite run_modify. simpl.
  after_eq; rewrite ?N.add_1_r; done.
Qed.

Lemma run_teardownPipeline (s : State) :
  teardownPipeline s
  = Some (tt, after id 0 [destroyPipeline (intrinsic (this s));
                          destroyPipelineLayout (pipelineLayout (this s))] s).
Proof.
  unfold teardownPipeline.
  erewrite run_bind by apply run_get.
  erewrite run_bind by apply run_call.
  rewrite run_call. after_eq.
Qed.

End PipelineFacts.

Module RenderFacts.
Import Pipeline_vulkan Lifecycle PipelineFacts.

Lemma recordings_after (f : t -> t) (k : nat) (cs : list Call) (s : State) :
  recordings (after f k cs s)
  = recordings s + length (filter (fun c => is_recording c = true) cs).
Proof. unfold recordings, after. simpl. by rewrite filter_app, length_app. Qed.

Lemma built_lookups (n : nat) (s : State) (i : nat) :
  built n s -> i < n ->
  exists valid cb sig fb vb sc,
    commandBuffersValid (this s) !! i = Some valid
    /\ commandBuffers (this s) !! i = Some cb
    /\ renderFinishedSemaphores (this s) !! i = Some sig
    /\ swapchainFramebuffers s !! i = Some fb
    /\ vertexBuffers (this s) !! i = Some vb
    /\ scissors (this s) !! 0 = Some sc.
Proof.
  intros ((Hv & Hc & Hs) & Hvb & Hfb & Hsc & _) Hi.
  destruct (lookup_lt_is_Some_2 (commandBuffersValid (this s)) i) as [valid ?]; [lia|].
  destruct (lookup_lt_is_Some_2 (commandBuffers (this s)) i) as [cb ?]; [lia|].
  destruct (lookup_lt_is_Some_2 (renderFinishedSemaphores (this s)) i) as [sig ?]; [lia|].
  destruct (lookup_lt_is_Some_2 (swapchainFramebuffers s) i) as [fb ?]; [lia|].
  destruct (lookup_lt_is_Some_2 (vertexBuffers (this s)) i) as [vb ?]; [lia|].
  destruct (lookup_lt_is_Some_2 (scissors (this s)) 0) as [sc ?]; [lia|].
  by exists valid, cb, sig, fb, vb, sc.
Qed.

Lemma run_validate_valid (i : nat) (s : State) :
  commandBuffersValid (this s) !! i = Some true ->
  validateCommandBuffer i s = Some (tt, s).
Proof.
  intros Hv. unfold validateCommandBuffer.
  erewrite run_bind by apply run_get.
  by erewrite run_bind by (by apply run_at).
Qed.

Lemma run_validate_invalid (i : nat) (s : State) (cb fb vb : handle) (sc : Rect2D) :
  commandBuffersValid (this s) !! i = Some false ->
  commandBuffers (this s) !! i = Some cb ->
  swapchainFramebuffers s !! i = Some fb ->
  vertexBuffers (this s) !! i = Some vb ->
  scissors (this s) !! 0 = Some sc ->
  validateCommandBuffer i s
  = Some (tt, after (set_commandBuffersValid (<[i := true]> (commandBuffersValid (this s))))
                    0 (recorded (this s) cb fb vb sc) s).
Proof.
  intros Hv Hcb Hfb Hvb Hsc. unfold validateCommandBuffer.
  erewrite run_bind by apply run_get.
  erewrite run_bind by (by apply run_at).
  cbv beta iota.
  erewrite run_bind by (by apply run_at).
  erewrite run_bind by (by apply run_at).
  do 2 (erewrite run_bind by apply run_call).
  erewrite run_bind by reflexivity.
  erewrite run_bind by (by apply run_at).
  do 2 (erewrite run_bind by apply run_call).
  erewrite run_bind by (by apply run_at).
  do 4 (erewrite run_bind by apply run_call).
  rewrite run_modify. after_eq.
Qed.

(** [render] on an image whose command buffer is valid only submits. *)
Lemma run_render_valid (i : nat) (sem : handle) (s : State) (cb sig : handle) :
  commandBuffersValid (this s) !! i = Some true ->
  commandBuffers (this s) !! i = Some cb ->
  renderFinishedSemaphores (this s) !! i = Some sig ->
  render i sem s = Some (sig, after id 0 [queueSubmit sem cb sig] s).
Proof.
  intros Hv Hcb Hsig. unfold render.
  erewrite run_bind by (by apply run_validate_valid).
  erewrite run_bind by apply run_get.
  erewrite run_bind by (by apply run_at).
  erewrite run_bind by (by apply run_at).
  erewrite run_bind by apply run_call.
  by apply run_at.
Qed.

(** [render] on an image whose command buffer is not valid records it,
    marks it valid and submits. *)
Lemma run_render_invalid (i : nat) (sem : handle) (s : State)
    (cb sig fb vb : handle) (sc : Rect2D) :
  commandBuffersValid (this s) !! i = Some false ->
  commandBuffers (this s) !! i = Some cb ->
  renderFinishedSemaphores (this s) !! i = Some sig ->
  swapchainFramebuffers s !! i = Some fb ->
  vertexBuffers (this s) !! i = Some vb ->
  scissors (this s) !! 0 = Some sc ->
  render i sem s
  = Some (sig, after (set_commandBuffersValid (<[i := true]> (commandBuffersValid (this s))))
                     0 (recorded (this s) cb fb vb sc ++ [queueSubmit sem cb sig]) s).
Proof.
  intros Hv Hcb Hsig Hfb Hvb Hsc. unfold render.
  erewrite run_bind by (by eapply run_validate_invalid).
  erewrite run_bind by apply run_get.
  erewrite run_bind by (by apply run_at).
  erewrite run_bind by (by apply run_at).
  erewrite run_bind by apply run_call.
  erewrite run_at by done. after_eq.
Qed.

Lemma built_after_valid (n : nat) (s : State) (v : list bool) (cs : list Call) :
  built n s -> length v = n -> built n (after (set_commandBuffersValid v) 0 cs s).
Proof.
  intros ((Hv & Hc & Hs) & Hvb & Hfb & Hsc & Hst) Hlen.
  unfold built, sized. simpl. done.
Qed.



End RenderFacts.

Module LifecycleFacts.
Import Pipeline_vulkan Lifecycle PipelineFacts RenderFacts.

Lemma run_buildPipeline' (rp : handle) (e : Extent2D) (s : State) :
  UInt32.fits (length (shaderStages (this s))) ->
  buildPipeline rp e s = Some (tt, pipelineBuilt rp e s).
Proof. apply run_buildPipeline. Qed.

Lemma run_invalidate' (s : State) :
  invalidateCommandBuffers s = Some (tt, invalidated s).
Proof. apply run_invalidateCommandBuffers. Qed.

(** Teardown followed by build of the per-image resources. *)
Lemma run_rebuild (n : nat) (s : State) :
  0 < n -> UInt32.fits n ->
  (teardownSemaphores;; teardownCommandBuffers;; teardownVertexBuffers;;
   buildVertexBuffers n;; buildCommandBuffers n;; buildSemaphores n) s
  = Some (tt, rebuilt n s).
Proof.
  intros Hpos Hn.
  erewrite run_bind by apply run_teardownSemaphores.
  erewrite run_bind by apply run_teardownCommandBuffers.
  erewrite run_bind by apply run_teardownVertexBuffers.
  erewrite run_bind by (by apply run_buildVertexBuffers).
  erewrite run_bind by (by apply run_buildCommandBuffers).
  rewrite run_buildSemaphores.
  unfold rebuilt, teardownCalls, buildCalls, newVertexBuffers, newVertexMemory,
    newCommandBuffers, newSemaphores.
  rewrite !after_after. do 2 f_equal. apply after_ext.
  - simpl. change (N.of_nat 0) with 0%N. rewrite ?N.add_0_r.
    by destruct (this s).
  - lia.
  - simpl. change (N.of_nat 0) with 0%N.
    rewrite ?Nat.add_0_r, ?N.add_0_r, <-?app_assoc. simpl.
    repeat f_equal; lia.
Qed.

Lemma run_buildForSwapchainChange (rp : handle) (e : Extent2D) (n : nat) (s : State) :
  (n ≠ length (commandBuffers (this s)) -> 0 < n) ->
  UInt32.fits n -> UInt32.fits (length (shaderStages (this s))) ->
  buildForSwapchainChange rp e n s
  = Some (tt, pipelineBuilt rp e
                (invalidated (if decide (n ≠ length (commandBuffers (this s)))
                              then rebuilt n s else s))).
Proof.
  intros Hpos Hn Hst. unfold buildForSwapchainChange.
  erewrite run_bind by apply run_get.
  destruct (decide (n ≠ length (commandBuffers (this s)))) as [Hne|Heq].
  - erewrite run_bind by (apply run_rebuild; [by apply Hpos|done]).
    erewrite run_bind by apply run_invalidate'.
    by apply run_buildPipeline'.
  - erewrite run_bind by apply run_ret.
    erewrite run_bind by apply run_invalidate'.
    by apply run_buildPipeline'.
Qed.

(** With no image, a build that reaches [buildVertexBuffers] does not
    return. *)
Lemma run_buildForSwapchainChange_none (rp : handle) (e : Extent2D) (s : State) :
  0 ≠ length (commandBuffers (this s)) -> buildForSwapchainChange rp e 0 s = None.
Proof.
  intros Hne. unfold buildForSwapchainChange.
  erewrite run_bind by apply run_get.
  rewrite decide_True by done.
  apply run_bind_none.
  erewrite run_bind by apply run_teardownSemaphores.
  erewrite run_bind by apply run_teardownCommandBuffers.
  erewrite run_bind by apply run_teardownVertexBuffers.
  apply run_bind_none, run_buildVertexBuffers_none.
Qed.

Lemma run_buildForDeviceChange_none (paths : list nat) (rp : handle) (e : Extent2D)
    (s : State) :
  buildForDeviceChange paths rp e 0 s = None.
Proof.
  unfold buildForDeviceChange.
  erewrite run_bind by apply run_buildShaders.
  apply run_bind_none, run_buildVertexBuffers_none.
Qed.

Lemma run_buildForDeviceChange (paths : list nat) (rp : handle) (e : Extent2D)
    (n : nat) (s : State) :
  0 < n -> UInt32.fits n -> UInt32.fits (length paths) ->
  exists s', buildForDeviceChange paths rp e n s = Some (tt, s')
    /\ sized n (this s')
    /\ length (vertexBuffers (this s')) = n
    /\ commandBuffersValid (this s') = replicate n false
    /\ scissors (this s') = createScissors e
    /\ length (shaderStages (this s')) = length paths
    /\ swapchainFramebuffers s' = swapchainFramebuffers s.
Proof.
  intros Hpos Hn Hp. unfold buildForDeviceChange.
  eexists. split.
  - erewrite run_bind by apply run_buildShaders.
    erewrite run_bind by (by apply run_buildVertexBuffers).
    erewrite run_bind by (by apply run_buildCommandBuffers).
    erewrite run_bind by apply run_buildSemaphores.
    apply run_buildPipeline'. simpl.
    unfold createShaderStages. by rewrite length_handles.
  - unfold sized. simpl. unfold createShaderStages.
    rewrite !length_handles, length_replicate. done.
Qed.

Lemma run_teardownForDeviceChange (s : State) :
  exists s', teardownForDeviceChange s = Some (tt, s')
    /\ commandBuffersValid (this s') = []
    /\ commandBuffers (this s') = []
    /\ renderFinishedSemaphores (this s') = []
    /\ vertexBuffers (this s') = []
    /\ shaderModules (this s') = [] /\ shaderStages (this s') = [].
Proof.
  unfold teardownForDeviceChange. eexists. split.
  - erewrite run_bind by apply run_teardownPipeline.
    erewrite run_bind by apply run_teardownSemaphores.
    erewrite run_bind by apply run_teardownCommandBuffers.
    erewrite run_bind by apply run_teardownVertexBuffers.
    apply run_teardownShaders.
  - done.
Qed.

End LifecycleFacts.

Module PipelineClaims.
Import Pipeline_vulkan Lifecycle PipelineFacts RenderFacts LifecycleFacts.

Lemma newCalls_after (f : t -> t) (k : nat) (cs : list Call) (s : State) :
  newCalls s (after f k cs s) = cs.
Proof. unfold newCalls, after. simpl. by rewrite drop_app_length. Qed.

Lemma Forall_fmap_const {A} (P : Call -> Prop) (c : A -> Call) (l : list A) :
  (forall x, P (c x)) -> Forall P (c <$> l).
Proof. intros H. apply Forall_fmap, Forall_forall. intros x _. apply H. Qed.

Lemma teardownCalls_no_shader (p : t) :
  Forall (fun c => is_shader_call c = false) (teardownCalls p).
Proof.
  unfold teardownCalls. rewrite !Forall_app.
  split_and!; try (by apply Forall_fmap_const); by repeat constructor.
Qed.

Lemma buildCalls_no_shader (h : handle) (n : nat) :
  Forall (fun c => is_shader_call c = false) (buildCalls h n).
Proof.
  unfold buildCalls. rewrite !Forall_app.
  split_and!; try (by apply Forall_fmap_const); by repeat constructor.
Qed.

(** C8: [buildForSwapchainChange] on a built pipeline releases and creates
    anew the vertex buffers, command buffers and semaphores exactly when the
    requested image count differs from the number of command buffers built
    before, and otherwise leaves them alone; in both cases every valid-bit is
    clear afterwards, the pipeline object is created for the new render pass
    and extent (one viewport and one scissor rectangle at the origin, both
    spanning the extent), and the shader modules and stages are as before.
    The image count is at least one whenever it differs from the count
    built before: with no image the rebuild reads the last element of empty
    vectors. *)
Theorem buildForSwapchainChange_effect (rp : handle) (e : Extent2D) (n : nat) (s : State) :
  consistent (this s) ->
  (n ≠ length (commandBuffers (this s)) -> 0 < n) ->
  UInt32.fits n ->
  UInt32.fits (length (shaderStages (this s))) ->
  exists s',
    buildForSwapchainChange rp e n s = Some (tt, s')
    /\ (n ≠ length (commandBuffers (this s)) ->
        take (length (teardownCalls (this s) ++ buildCalls (nextHandle s) n)) (newCalls s s')
        = teardownCalls (this s) ++ buildCalls (nextHandle s) n
        /\ vertexBuffers (this s') = newVertexBuffers (nextHandle s) n
        /\ commandBuffers (this s') = newCommandBuffers (nextHandle s) n
        /\ renderFinishedSemaphores (this s') = newSemaphores (nextHandle s) n)
    /\ (n = length (commandBuffers (this s)) ->
        vertexBuffers (this s') = vertexBuffers (this s)
        /\ vertexBufferMemory (this s') = vertexBufferMemory (this s)
        /\ commandBuffers (this s') = commandBuffers (this s)
        /\ renderFinishedSemaphores (this s') = renderFinishedSemaphores (this s))
    /\ (Exists (fun c => is_buffer_call c = true) (newCalls s s')
        <-> n ≠ length (commandBuffers (this s)))
    /\ sized n (this s')
    /\ commandBuffersValid (this s') = replicate n false
    /\ renderPass (this s') = rp
    /\ viewports (this s') = [mkViewport e]
    /\ scissors (this s') = [mkRect (0%Z, 0%Z) e]
    /\ last (calls s')
       = Some (createGraphicsPipeline
                 (mkInfo (length (shaderStages (this s))) (shaderStages (this s))
                         [mkViewport e] [mkRect (0%Z, 0%Z) e]
                         (pipelineLayout (this s')) rp)
                 (intrinsic (this s')))
    /\ shaderModules (this s') = shaderModules (this s)
    /\ shaderStages (this s') = shaderStages (this s)
    /\ Forall (fun c => is_shader_call c = false) (newCalls s s').
Proof.
  intros (Hv & _ & Hs) Hpos Hn Hst.
  eexists. split; [by apply run_buildForSwapchainChange|].
  destruct (decide (n ≠ length (commandBuffers (this s)))) as [Hne|Heq].
  - (* the count differs: teardown and build *)
    unfold pipelineBuilt, invalidated, rebuilt.
    rewrite !after_after, newCalls_after.
    unfold sized, newVertexBuffers, newCommandBuffers, newSemaphores. simpl.
    rewrite ?app_nil_r, ?length_handles, ?length_replicate.
    split_and!;
      first [ done
            | by rewrite !last_app
            | intros _; split_and!; first [done | by rewrite take_app_length]
            | idtac ].
    + split; [done|]. intros _.
      unfold teardownCalls. rewrite !Exists_app. left. left. right. left.
      by repeat constructor.
    + rewrite !Forall_app. split_and!.
      * apply teardownCalls_no_shader.
      * apply buildCalls_no_shader.
      * by repeat constructor.
  - (* the count is the same: only the valid-bits and the pipeline object *)
    apply dec_stable in Heq.
    unfold pipelineBuilt, invalidated.
    rewrite !after_after, newCalls_after.
    unfold sized. simpl. rewrite length_replicate.
    split_and!;
      first [ done | lia
            | by rewrite !last_app
            | f_equal; lia
            | by repeat constructor
            | idtac ].
    split; [|done]. intros Hex.
    repeat (apply Exists_cons in Hex as [Hex|Hex]; [discriminate|]).
    by apply Exists_nil in Hex.
Qed.

(** C10: every build, teardown, invalidate and render operation that is
    given counts it can represent (and, where it builds the vertex buffers,
    at least one image) returns, and leaves the valid-bit vector,
    the command-buffer vector and the render-finished semaphore vector with
    one common length, which is the image count for a build; every image
    index below that length is therefore within all three. *)
Theorem per_image_vectors_agree (shaderPaths : list nat) (op : Op) (s : State) :
  consistent (this s) ->
  ready shaderPaths op s ->
  exists s',
    run shaderPaths op s = Some (tt, s')
    /\ consistent (this s')
    /\ (forall n, builtCount op = Some n -> sized n (this s'))
    /\ (forall imageIndex, imageIndex < length (commandBuffers (this s')) ->
        is_Some (commandBuffersValid (this s') !! imageIndex)
        /\ is_Some (commandBuffers (this s') !! imageIndex)
        /\ is_Some (renderFinishedSemaphores (this s') !! imageIndex)).
Proof.
  intros Hcons Hready.
  assert (Hbounds : forall p, consistent p ->
            forall i, i < length (commandBuffers p) ->
              is_Some (commandBuffersValid p !! i)
              /\ is_Some (commandBuffers p !! i)
              /\ is_Some (renderFinishedSemaphores p !! i)).
  { intros p (Hv & _ & Hs) i Hi.
    split_and!; apply lookup_lt_is_Some_2; lia. }
  assert (Hgoal : exists s',
            run shaderPaths op s = Some (tt, s')
            /\ consistent (this s')
            /\ (forall n, builtCount op = Some n -> sized n (this s'))).
  { destruct op as [rp e n| |rp e n| | |i sem]; simpl in *.
    - destruct Hready as (Hpos & Hn & Hp).
      destruct (run_buildForDeviceChange shaderPaths rp e n s Hpos Hn Hp)
        as (s' & Hrun & Hsized & _).
      exists s'. split_and!; [done| |by intros ? [= <-]].
      destruct Hsized as (? & Hc & ?). unfold consistent. by rewrite Hc.
    - destruct (run_teardownForDeviceChange s) as (s' & Hrun & Hv & Hc & Hs & _).
      exists s'. split_and!; [done| |done].
      unfold consistent, sized. by rewrite Hv, Hc, Hs.
    - destruct Hready as (Hpos & Hn & Hst). destruct Hcons as (Hv & _ & Hs).
      eexists. split; [by apply run_buildForSwapchainChange|].
      assert (Hsized : sized n (this (pipelineBuilt rp e
                (invalidated (if decide (n ≠ length (commandBuffers (this s)))
                              then rebuilt n s else s))))).
      { destruct (decide (n ≠ length (commandBuffers (this s)))) as [Hne|Heq].
        - unfold pipelineBuilt, invalidated, rebuilt, sized,
            newCommandBuffers, newSemaphores. simpl.
          by rewrite ?length_handles, ?length_replicate.
        - apply dec_stable in Heq.
          unfold pipelineBuilt, invalidated, sized. simpl.
          rewrite length_replicate. split_and!; congruence. }
      split; [|by intros ? [= <-]].
      destruct Hsized as (? & Hc & ?). unfold consistent. by rewrite Hc.
    - eexists. split; [apply run_teardownPipeline|]. by split.
    - eexists. split; [apply run_invalidateCommandBuffers|].
      split; [|done]. destruct Hcons as (Hv & _ & Hs).
      unfold consistent, sized. simpl. by rewrite length_replicate.
    - destruct Hready as [Hbuilt Hi].
      destruct (built_lookups _ s i Hbuilt Hi)
        as (valid & cb & sig & fb & vb & sc & Hv & Hcb & Hsig & Hfb & Hvb & Hsc).
      destruct Hcons as (Hlv & _ & Hls).
      destruct valid.
      + eexists. split.
        * erewrite run_bind by (by eapply run_render_valid). apply run_ret.
        * by split.
      + eexists. split.
        * erewrite run_bind by (by eapply run_render_invalid). apply run_ret.
        * split; [|done]. unfold consistent, sized. simpl.
          by rewrite length_insert. }
  destruct Hgoal as (s' & Hrun & Hcons' & Hcount).
  exists s'. split_and!; try done. by apply Hbounds.
Qed.

(** The first frame for image 0 of the freshly built pipeline records the
    command buffer and submits it. *)
Example first_render_calls :
  newCalls s_built s_rendered
  = recorded (this s_built) 7%N 100%N 3%N (mkRect (0%Z, 0%Z) (mkExtent 640 480))
    ++ [queueSubmit 70%N 7%N 10%N].
Proof. vm_compute. reflexivity. Qed.

Lemma s_built_built : built 3 s_built.
Proof. vm_compute. split_and!; first [done | lia | by repeat constructor]. Qed.



Lemma buildForSwapchainChange_effect_witness :
  exists s', buildForSwapchainChange 51%N (mkExtent 800 600) 2 s_rendered = Some (tt, s')
             /\ commandBuffersValid (this s') = [false; false]
             /\ shaderModules (this s') = shaderModules (this s_rendered).
Proof.
  destruct (buildForSwapchainChange_effect 51%N (mkExtent 800 600) 2 s_rendered)
    as (s' & Hrun & _ & _ & _ & _ & Hvalid & _ & _ & _ & _ & Hmod & _).
  - vm_compute. done.
  - intros _. lia.
  - vm_compute. done.
  - vm_compute. done.
  - exists s'. split_and!; done.
Defined.

Lemma per_image_vectors_agree_witness :
  exists s', run twoShaders (OpBuildForSwapchainChange 51%N (mkExtent 800 600) 2) s_rendered
             = Some (tt, s')
             /\ sized 2 (this s').
Proof.
  destruct (per_image_vectors_agree twoShaders
              (OpBuildForSwapchainChange 51%N (mkExtent 800 600) 2) s_rendered)
    as (s' & Hrun & _ & Hsized & _).
  - vm_compute. done.
  - unfold ready. split_and!; [intros _; lia|reflexivity|vm_compute; reflexivity].
  - exists s'. split; [exact Hrun|]. by apply Hsized.
Defined.

End PipelineClaims.

(** ** Further properties of scoring *)

Module ScoreMore.
Import QueueCapabilities QueueCapabilitiesFacts Device Scoring ScoreFacts.

Section Best.
Context {A : Type} (scoreOf : A -> option Z).

(** The selection loop either keeps what it started with, no entry scoring
    above the initial best, or ends on the first entry that attains the
    greatest score. *)
Lemma best_first (l : list A) (st : Z * A) :
  (foldl (bestStep scoreOf) st l = st
   /\ forall y s, y ∈ l -> scoreOf y = Some s -> (s <= st.1)%Z)
  \/ (exists l1 x l2,
        l = l1 ++ x :: l2
        /\ foldl (bestStep scoreOf) st l = ((foldl (bestStep scoreOf) st l).1, x)
        /\ scoreOf x = Some (foldl (bestStep scoreOf) st l).1
        /\ (st.1 < (foldl (bestStep scoreOf) st l).1)%Z
        /\ (forall y s, y ∈ l1 -> scoreOf y = Some s ->
                        (s < (foldl (bestStep scoreOf) st l).1)%Z)
        /\ (forall y s, y ∈ l2 -> scoreOf y = Some s ->
                        (s <= (foldl (bestStep scoreOf) st l).1)%Z)).
Proof.
  revert st. induction l as [|y l IH]; intros st; simpl.
  - left. split; [done|]. intros y s Hy. by apply elem_of_nil in Hy.
  - assert (Hy : forall s, scoreOf y = Some s -> (s <= (bestStep scoreOf st y).1)%Z).
    { intros s Hs. unfold bestStep. rewrite Hs. case_match; simpl; lia. }
    pose proof (bestStep_fst_ge scoreOf st y) as Hge.
    destruct (IH (bestStep scoreOf st y)) as [[Heq Hle]|(l1 & x & l2 & -> & Hr & Hx & Hlt & H1 & H2)].
    + rewrite Heq.
      unfold bestStep in *. destruct (scoreOf y) as [s|] eqn:E.
      * destruct (st.1 <? s)%Z eqn:E'; simpl in *.
        -- right. exists [], y, l. split_and!; try done; try lia.
           intros z sz Hz. by apply elem_of_nil in Hz.
        -- left. split; [done|]. intros z sz Hz Hsz.
           apply elem_of_cons in Hz as [->|Hz]; [|by eapply Hle].
           rewrite E in Hsz. injection Hsz as <-. lia.
      * left. split; [done|]. intros z sz Hz Hsz.
        apply elem_of_cons in Hz as [->|Hz]; [congruence|by eapply Hle].
    + right. exists (y :: l1), x, l2. split_and!; try done; try lia.
      intros z sz Hz Hsz.
      apply elem_of_cons in Hz as [->|Hz]; [|by eapply H1].
      specialize (Hy _ Hsz). lia.
Qed.

(** The outcome does not depend on the entry held at the start, unless that
    entry is kept. *)
Lemma best_init_indep (l : list A) (b : Z) :
  (forall x, foldl (bestStep scoreOf) (b, x) l = (b, x))
  \/ (forall x y, foldl (bestStep scoreOf) (b, x) l = foldl (bestStep scoreOf) (b, y) l).
Proof.
  induction l as [|z l IH]; [by left|].
  destruct (scoreOf z) as [s|] eqn:E; [destruct (b <? s)%Z eqn:E'|].
  - assert (Hs : forall x, bestStep scoreOf (b, x) z = (s, z)).
    { intros x. unfold bestStep. simpl. by rewrite E, E'. }
    right. intros x y. simpl. by rewrite !Hs.
  - assert (Hs : forall x, bestStep scoreOf (b, x) z = (b, x)).
    { intros x. unfold bestStep. simpl. by rewrite E, E'. }
    destruct IH as [H|H]; [left; intros x|right; intros x y]; simpl; rewrite !Hs; apply H.
  - assert (Hs : forall x, bestStep scoreOf (b, x) z = (b, x)).
    { intros x. unfold bestStep. simpl. by rewrite E. }
    destruct IH as [H|H]; [left; intros x|right; intros x y]; simpl; rewrite !Hs; apply H.
Qed.

Lemma best_restart (l : list A) (b : Z) (x : A) :
  foldl (bestStep scoreOf) (b, (foldl (bestStep scoreOf) (b, x) l).2) l
  = foldl (bestStep scoreOf) (b, x) l.
Proof.
  destruct (best_init_indep l b) as [H|H].
  - by rewrite !H.
  - apply H.
Qed.

End Best.

Section WithSort.
Variable sort : list (nat * QC) -> list (nat * QC).

Lemma passes_score (d : t) : passes sort (score sort d).2 = passes sort d.
Proof.
  unfold passes.
  assert (H : physicalIntrinsic (score sort d).2 = physicalIntrinsic d).
  { destruct (passes sort d) eqn:E.
    - by rewrite (score_passes sort d E).
    - unfold score.
      repeat (match goal with
              | |- context [if ?b then _ else _] => destruct b
              | |- context [let '(_, _) := ?x in _] => destruct x
              end; simpl; try done). }
  by rewrite H.
Qed.

(** The four ways [score] can end, with the device it leaves. *)
Lemma score_outcome (d : t) :
  let pd := physicalIntrinsic d in
  let plan := findBestQueueFamilyIndices sort pd in
  let caps := union_list plan.*2 in
  let manifest :=
    hasRequiredFeatures pd && meetsRequiredLimits pd && hasRequiredExtensions pd in
  (manifest = false /\ score sort d = ((-1)%Z, d))
  \/ (manifest = true /\ handlesGraphicsAndCompute caps = false
      /\ score sort d
         = ((-1)%Z, mk pd plan (bestSurfaceFormat d) (bestSurfacePresentMode d)))
  \/ (manifest = true /\ handlesGraphicsAndCompute caps = true
      /\ handlesPresent caps = false
      /\ score sort d
         = (0%Z, mk pd plan (bestSurfaceFormat d) (bestSurfacePresentMode d)))
  \/ (manifest = true /\ handlesGraphicsAndCompute caps = true
      /\ handlesPresent caps = true
      /\ (0 < (score sort d).1 <= 124)%Z
      /\ queueFamilyIndicesAndCapabilities (score sort d).2 = plan
      /\ physicalIntrinsic (score sort d).2 = pd).
Proof.
  intros pd plan caps manifest. subst manifest caps plan pd.
  destruct (passes sort d) eqn:E.
  - do 3 right. rewrite (score_passes sort d E). simpl.
    pose proof (bestFormat_range (getSurfaceFormatsKHR (physicalIntrinsic d))
                  (bestSurfaceFormat d)).
    pose proof (bestPresent_range (getSurfacePresentModesKHR (physicalIntrinsic d))
                  (bestSurfacePresentMode d)).
    pose proof (deviceTypeScore_range (deviceType (physicalIntrinsic d))).
    unfold passes in E.
    apply andb_true_iff in E as [E Hp]. apply andb_true_iff in E as [Hm Hgc].
    split_and!; try done; lia.
  - unfold passes in E. unfold Device.score.
    destruct (hasRequiredFeatures _); simpl in *; [|by left].
    destruct (meetsRequiredLimits _); simpl in *; [|by left].
    destruct (hasRequiredExtensions _); simpl in *; [|by left].
    rewrite deviceCapabilities_eq.
    destruct (handlesGraphicsAndCompute _); simpl in *; [|right; by left].
    destruct (handlesPresent _); simpl in *; [done|].
    do 2 right. by left.
Qed.

(** X3: what [score] does to the device object.  The score lies between -1
    and 124 and the physical device is never touched.  When the manifest is
    unmet the object is left exactly as it was; when it is met the
    negotiated plan is stored, also when the device is then rejected for
    lack of graphics or compute.  The best surface format and present mode
    are written only when the score is positive. *)
Theorem score_effect (d : t) :
  let pd := physicalIntrinsic d in
  let manifest :=
    hasRequiredFeatures pd && meetsRequiredLimits pd && hasRequiredExtensions pd in
  (-1 <= (score sort d).1 <= 124)%Z
  /\ physicalIntrinsic (score sort d).2 = pd
  /\ (manifest = false -> (score sort d).2 = d)
  /\ (manifest = true ->
      queueFamilyIndicesAndCapabilities (score sort d).2
      = findBestQueueFamilyIndices sort pd)
  /\ ((score sort d).1 <= 0 ->
      bestSurfaceFormat (score sort d).2 = bestSurfaceFormat d
      /\ bestSurfacePresentMode (score sort d).2 = bestSurfacePresentMode d)%Z.
Proof.
  intros pd manifest. subst manifest pd.
  destruct (score_outcome d)
    as [[Hm H]|[(Hm & _ & H)|[(Hm & _ & _ & H)|(Hm & _ & _ & Hr & Hplan & Hpd)]]].
  - rewrite H, Hm. simpl. split_and!; try done; lia.
  - rewrite H, Hm. simpl. split_and!; try done; lia.
  - rewrite H, Hm. simpl. split_and!; try done; lia.
  - rewrite Hm. split_and!; try done; lia.
Qed.

Lemma score_again (d : t) :
  score sort (score sort d).2 = score sort d.
Proof.
  destruct (passes sort d) eqn:E.
  - assert (E' : passes sort (score sort d).2 = true) by (by rewrite passes_score).
    rewrite (score_passes sort _ E').
    rewrite (score_passes sort d E). simpl.
    rewrite surfaceFormatStep_eq, presentModeStep_eq.
    by rewrite !best_restart.
  - unfold passes in E. unfold score at 2 3.
    destruct (hasRequiredFeatures (physicalIntrinsic d)) eqn:Hf; simpl in *.
    2:{ unfold score. by rewrite Hf. }
    destruct (meetsRequiredLimits (physicalIntrinsic d)) eqn:Hl; simpl in *.
    2:{ unfold score. by rewrite Hf, Hl. }
    destruct (hasRequiredExtensions (physicalIntrinsic d)) eqn:He; simpl in *.
    2:{ unfold score. by rewrite Hf, Hl, He. }
    rewrite deviceCapabilities_eq.
    destruct (handlesGraphicsAndCompute _) eqn:Hgc; simpl in *.
    2:{ unfold score. simpl. rewrite Hf, Hl, He. simpl.
        by rewrite deviceCapabilities_eq, Hgc. }
    destruct (handlesPresent _) eqn:Hp; simpl in *; [done|].
    unfold score. simpl. rewrite Hf, Hl, He. simpl.
    by rewrite deviceCapabilities_eq, Hgc, Hp.
Qed.

(** X5: [score] settles in one call: called again on the device as the first
    call left it, it returns the same score and leaves every member as it
    is. *)
Theorem score_idempotent (d : t) :
  score sort (score sort d).2 = score sort d.
Proof. apply score_again. Qed.

(** X4: for a device that reaches the format loop, [bestSurfaceFormat] is
    left as it was when no supported format has a score; otherwise it is the
    first supported format, in enumeration order, whose score is the
    greatest.  A format in the extended sRGB colour space, when one with a
    score is supported, is therefore always preferred to the standard sRGB
    ones. *)
Theorem bestSurfaceFormat_first_best (d : t) :
  passes sort d = true ->
  let formats := getSurfaceFormatsKHR (physicalIntrinsic d) in
  let best := bestSurfaceFormat (score sort d).2 in
  (Forall (fun f => surfaceFormatScore f = None) formats -> best = bestSurfaceFormat d)
  /\ (Exists (fun f => is_Some (surfaceFormatScore f)) formats ->
      exists l1 l2 m,
        formats = l1 ++ best :: l2
        /\ surfaceFormatScore best = Some m
        /\ (forall f s, f ∈ l1 -> surfaceFormatScore f = Some s -> (s < m)%Z)
        /\ (forall f s, f ∈ l2 -> surfaceFormatScore f = Some s -> (s <= m)%Z))
  /\ (Exists (fun f => is_Some (surfaceFormatScore f)
                       /\ Vk.colorSpace f = Vk.eExtendedSrgbNonlinearEXT) formats ->
      Vk.colorSpace best = Vk.eExtendedSrgbNonlinearEXT).
Proof.
  intros Hpass formats best. subst best.
  rewrite (score_passes sort d Hpass). simpl. fold formats.
  rewrite surfaceFormatStep_eq.
  set (st := (0%Z, bestSurfaceFormat d)).
  destruct (best_first surfaceFormatScore formats st)
    as [[Heq Hle]|(l1 & x & l2 & Hl & Hr & Hx & Hlt & H1 & H2)].
  - (* nothing scores *)
    rewrite Heq. simpl. split_and!.
    + done.
    + intros Hex. apply Exists_exists in Hex as (f & Hf & [s Hs]).
      pose proof (surfaceFormatScore_range f s Hs).
      specialize (Hle f s Hf Hs). simpl in Hle. lia.
    + intros Hex. apply Exists_exists in Hex as (f & Hf & [s Hs] & _).
      pose proof (surfaceFormatScore_range f s Hs).
      specialize (Hle f s Hf Hs). simpl in Hle. lia.
  - rewrite Hr. simpl. split_and!.
    + intros Hall. rewrite Forall_forall in Hall.
      assert (Hin : x ∈ formats) by (rewrite Hl; apply elem_of_app; right; by left).
      rewrite (Hall x Hin) in Hx. done.
    + intros _. by exists l1, l2, (foldl (bestStep surfaceFormatScore) st formats).1.
    + intros Hex. apply Exists_exists in Hex as (f & Hf & [s Hs] & Hcs).
      assert (Hle : (s <= (foldl (bestStep surfaceFormatScore) st formats).1)%Z).
      { by apply (best_fst_max surfaceFormatScore formats st f s). }
      revert Hx Hle. generalize (foldl (bestStep surfaceFormatScore) st formats).1.
      intros m Hx Hle.
      destruct f as [ff fc]. simpl in Hcs. subst fc.
      destruct x as [xf xc]. simpl.
      destruct ff, xf, xc; vm_compute in Hs, Hx; simplify_eq; try done;
        vm_compute in Hle; done.
Qed.

End WithSort.

Lemma bestSurfaceFormat_first_best_witness :
  Vk.colorSpace (bestSurfaceFormat (score stable (fresh pd_discrete)).2)
  = Vk.eExtendedSrgbNonlinearEXT.
Proof.
  apply (bestSurfaceFormat_first_best stable (fresh pd_discrete) eq_refl).
  apply Exists_cons_tl, Exists_cons_hd. split; [|done].
  exists 110%Z. vm_compute. reflexivity.
Defined.

End ScoreMore.

(** ** The device object *)

Module DeviceObjectFacts.
Import QueueCapabilities QueueCapabilitiesFacts Device Scoring NegotiatorFacts Plan.
Import ScoreFacts DeviceObject.

(** *** The queue assignment loop *)

Section Role.
(** One of the three roles, and the queue pointer the loop keeps for it. *)
Variable role : QC -> bool.
Variable proj : QueuePtr * QueuePtr * QueuePtr -> QueuePtr.
Hypothesis proj_assign : forall st k i c,
  proj (assignQueues st (k, (i, c)))
  = if role c then Some (k, mkQueue i 0 c) else proj st.
Hypothesis role_union : forall a b, role (union a b) = role a || role b.
Hypothesis role_empty : role empty = false.

Lemma assign_role (plan : list (nat * QC)) (st : QueuePtr * QueuePtr * QueuePtr) :
  let r := foldl assignQueues st (imap (fun k q => (k, q)) plan) in
  (proj r = proj st /\ Forall (fun q => role q.2 = false) plan)
  \/ (exists k i c, plan !! k = Some (i, c) /\ role c = true
                    /\ proj r = Some (k, mkQueue i 0 c)).
Proof using proj_assign.
  induction plan as [|[i c] plan IH] using rev_ind; simpl.
  - left. by split.
  - rewrite imap_app, foldl_app. simpl. rewrite proj_assign, Nat.add_0_r.
    destruct (role c) eqn:E.
    + right. exists (length plan), i, c. split_and!; try done.
      by apply list_lookup_middle.
    + destruct IH as [[Heq Hall]|(k & i' & c' & Hk & Hr & Hp)].
      * left. split; [done|]. apply Forall_app. split; [done|]. by repeat constructor.
      * right. exists k, i', c'. split_and!; try done.
        by apply lookup_app_l_Some.
Qed.

Lemma role_union_list (l : list QC) :
  role (union_list l) = existsb role l.
Proof using role_union role_empty.
  induction l as [|a l IH]; simpl; [done|]. by rewrite role_union, IH.
Qed.

(** When the plan covers the role, the pointer ends on the queue of a plan
    entry that has it; when it does not, the pointer is left alone. *)
Lemma assign_role_covered (plan : list (nat * QC)) (st : QueuePtr * QueuePtr * QueuePtr) :
  role (union_list plan.*2) = true ->
  exists k i c, plan !! k = Some (i, c) /\ role c = true
    /\ proj (foldl assignQueues st (imap (fun k q => (k, q)) plan))
       = Some (k, mkQueue i 0 c).
Proof using proj_assign role_union role_empty.
  intros Hcov. destruct (assign_role plan st) as [[_ Hall]|H]; [|done].
  rewrite role_union_list in Hcov.
  apply existsb_exists in Hcov as (c & Hc & Hr).
  apply list_elem_of_In, list_elem_of_fmap in Hc as (q & -> & Hq).
  rewrite Forall_forall in Hall. rewrite (Hall q Hq) in Hr. done.
Qed.

Lemma assign_role_uncovered (plan : list (nat * QC)) (st : QueuePtr * QueuePtr * QueuePtr) :
  role (union_list plan.*2) = false ->
  proj (foldl assignQueues st (imap (fun k q => (k, q)) plan)) = proj st.
Proof using proj_assign role_union role_empty.
  intros Hcov. destruct (assign_role plan st) as [[H _]|(k & i & c & Hk & Hr & _)]; [done|].
  rewrite role_union_list in Hcov.
  assert (existsb role plan.*2 = true); [|congruence].
  apply existsb_exists. exists c. split; [|done].
  apply list_elem_of_In, list_elem_of_fmap. exists (i, c). split; [done|].
  by eapply list_elem_of_lookup_2.
Qed.

End Role.

Lemma graphic_assign st k i c :
  proj_graphic (assignQueues st (k, (i, c)))
  = if handlesGraphics c then Some (k, mkQueue i 0 c) else proj_graphic st.
Proof. destruct st as [[g p] cq]. unfold assignQueues, proj_graphic. simpl. by destruct (handlesGraphics c). Qed.

Lemma present_assign st k i c :
  proj_present (assignQueues st (k, (i, c)))
  = if handlesPresent c then Some (k, mkQueue i 0 c) else proj_present st.
Proof. destruct st as [[g p] cq]. unfold assignQueues, proj_present. simpl. by destruct (handlesPresent c). Qed.

Lemma compute_assign st k i c :
  proj_compute (assignQueues st (k, (i, c)))
  = if handlesCompute c then Some (k, mkQueue i 0 c) else proj_compute st.
Proof. destruct st as [[g p] cq]. unfold assignQueues, proj_compute. simpl. by destruct (handlesCompute c). Qed.

Lemma initializeDevice_fields (d : DeviceObject.t) :
  let plan := queueFamilyIndicesAndCapabilities (device d) in
  let r := foldl assignQueues (graphicQueue d, presentQueue d, computeQueue d)
                 (imap (fun k q => (k, q)) plan) in
  initializeDevice d
  = DeviceObject.mk (device d) (Some (map (fun q => mkQueueCreateInfo q.1 1) plan))
      (createDeviceCalls d ++ [map (fun q => mkQueueCreateInfo q.1 1) plan])
      (proj_graphic r) (proj_present r) (proj_compute r) READY_TO_DRAW (windows d)
      (setDeviceCalls d).
Proof.
  intros plan r. unfold initializeDevice. fold plan. fold r.
  by destruct r as [[g p] c].
Qed.


Lemma supports_roles (pd : PhysicalDevice) (index : nat) (c : QC) :
  supports pd index c ->
  exists queueFlags,
    getQueueFamilyProperties pd !! index = Some queueFlags
    /\ (handlesGraphics c = true -> Vk.has_flag queueFlags Vk.eGraphics = true)
    /\ (handlesCompute c = true -> Vk.has_flag queueFlags Vk.eCompute = true)
    /\ (handlesPresent c = true -> getSurfaceSupportKHR pd index = true).
Proof.
  intros (flags & Hflags & Hsub). exists flags. split; [done|].
  unfold capabilitiesOf, handlesAllOff in Hsub. simpl in Hsub.
  destruct c as [g cc p]. simpl in *.
  destruct (Vk.has_flag flags Vk.eGraphics), (Vk.has_flag flags Vk.eCompute),
    (getSurfaceSupportKHR pd index), g, cc, p; simpl in *; done.
Qed.

Lemma union_roles (a b : QC) :
  handlesGraphics (union a b) = handlesGraphics a || handlesGraphics b
  /\ handlesCompute (union a b) = handlesCompute a || handlesCompute b
  /\ handlesPresent (union a b) = handlesPresent a || handlesPresent b.
Proof. done. Qed.

Section WithSort.
Variable sort : list (nat * QC) -> list (nat * QC).

(** What a scored, not rejected, freshly constructed device object holds. *)
Lemma score_new (pd : PhysicalDevice) :
  (0 <= (DeviceObject.score sort (new pd)).1)%Z ->
  let plan := findBestQueueFamilyIndices sort pd in
  let d := (DeviceObject.score sort (new pd)).2 in
  queueFamilyIndicesAndCapabilities (device d) = plan
  /\ handlesGraphicsAndCompute (union_list plan.*2) = true
  /\ handlesPresent (union_list plan.*2) = (0 <? (DeviceObject.score sort (new pd)).1)%Z
  /\ intrinsic d = None /\ createDeviceCalls d = []
  /\ graphicQueue d = None /\ presentQueue d = None /\ computeQueue d = None
  /\ windows d = ∅ /\ setDeviceCalls d = [] /\ state d = NO_DEVICE.
Proof.
  intros Hs plan d. subst plan d. unfold DeviceObject.score in *. simpl in *.
  destruct (ScoreMore.score_outcome sort (device (new pd)))
    as [[_ H]|[(_ & _ & H)|[(_ & Hgc & Hp & H)|(_ & Hgc & Hp & Hr & Hplan & _)]]];
    simpl in *.
  - rewrite H in Hs. simpl in Hs. lia.
  - rewrite H in Hs. simpl in Hs. lia.
  - rewrite H. simpl. by rewrite Hgc, Hp.
  - rewrite Hplan, Hgc, Hp. split_and!; try done.
    symmetry. apply Z.ltb_lt. lia.
Qed.

Hypothesis sort_ok : std_sort_contract scoreIsGreater sort.

(** X6: [initializeDevice] on a freshly constructed device object that
    [score] did not reject.  [createDevice] is called once, with one queue
    create-info per plan entry, each asking for one queue of a distinct,
    existing queue family; the graphics and the compute queue are set, each
    on a family whose queue flags have that bit; the present queue is set,
    on a family that supports the surface, exactly when the score is
    positive, and stays empty when the score is 0; the device ends
    READY_TO_DRAW. *)
Theorem initializeDevice_queues (pd : PhysicalDevice) :
  (0 <= (DeviceObject.score sort (new pd)).1)%Z ->
  let families := getQueueFamilyProperties pd in
  let d := initializeDevice (DeviceObject.score sort (new pd)).2 in
  (exists infos,
      intrinsic d = Some infos /\ createDeviceCalls d = [infos]
      /\ length infos = length (findBestQueueFamilyIndices sort pd)
      /\ NoDup (queueFamilyIndex <$> infos)
      /\ Forall (fun i => queueCount i = 1 /\ queueFamilyIndex i < length families) infos)
  /\ (exists k q flags,
        graphicQueue d = Some (k, q) /\ queueIndex q = 0
        /\ families !! familyIndex q = Some flags
        /\ Vk.has_flag flags Vk.eGraphics = true)
  /\ (exists k q flags,
        computeQueue d = Some (k, q) /\ queueIndex q = 0
        /\ families !! familyIndex q = Some flags
        /\ Vk.has_flag flags Vk.eCompute = true)
  /\ (if (0 <? (DeviceObject.score sort (new pd)).1)%Z
      then exists k q, presentQueue d = Some (k, q) /\ queueIndex q = 0
                       /\ familyIndex q < length families
                       /\ getSurfaceSupportKHR pd (familyIndex q) = true
      else presentQueue d = None)
  /\ state d = READY_TO_DRAW.
Proof using sort_ok.
  intros Hs families d. subst d.
  destruct (score_new pd Hs)
    as (Hplan & Hgc & Hp & Hi & Hc & Hg & Hpq & Hcq & _ & _ & _).
  rewrite initializeDevice_fields, Hplan, Hc, Hg, Hpq, Hcq.
  cbn [intrinsic createDeviceCalls graphicQueue presentQueue computeQueue state app].
  set (plan := findBestQueueFamilyIndices sort pd) in *.
  pose proof (PlanFacts.plan_supported sort sort_ok pd) as Hsup. fold plan in Hsup.
  rewrite Forall_forall in Hsup.
  apply andb_true_iff in Hgc as [Hgr Hco].
  split_and!; [| | | |done].
  - eexists. split_and!; try done.
    + by rewrite length_map.
    + replace (queueFamilyIndex <$> map (fun q => mkQueueCreateInfo q.1 1) plan)
        with (plan.*1).
      * apply (NegotiatorClaims.findBest_indices sort sort_ok pd).
      * clear. induction plan as [|q l IH]; [done|]. simpl. by f_equal.
    + apply Forall_forall. intros i Hin.
      apply list_elem_of_In, in_map_iff in Hin as (q & <- & Hq). simpl.
      split; [done|].
      apply list_elem_of_In in Hq.
      destruct (Hsup q Hq) as (flags & Hflags & _).
      by eapply lookup_lt_Some.
  - destruct (assign_role_covered handlesGraphics proj_graphic graphic_assign
                (fun a b => proj1 (union_roles a b)) eq_refl plan (None, None, None) Hgr)
      as (k & i & c & Hk & Hr & Hq).
    apply list_elem_of_lookup_2 in Hk.
    destruct (supports_roles pd i c (Hsup _ Hk)) as (flags & Hflags & HG & _).
    exists k, (mkQueue i 0 c), flags. split_and!; try done. by apply HG.
  - destruct (assign_role_covered handlesCompute proj_compute compute_assign
                (fun a b => proj1 (proj2 (union_roles a b))) eq_refl plan
                (None, None, None) Hco)
      as (k & i & c & Hk & Hr & Hq).
    apply list_elem_of_lookup_2 in Hk.
    destruct (supports_roles pd i c (Hsup _ Hk)) as (flags & Hflags & _ & HC & _).
    exists k, (mkQueue i 0 c), flags. split_and!; try done. by apply HC.
  - destruct (0 <? _)%Z.
    + destruct (assign_role_covered handlesPresent proj_present present_assign
                  (fun a b => proj2 (proj2 (union_roles a b))) eq_refl plan
                  (None, None, None) Hp)
        as (k & i & c & Hk & Hr & Hq).
      apply list_elem_of_lookup_2 in Hk.
      destruct (supports_roles pd i c (Hsup _ Hk)) as (flags & Hflags & _ & _ & HP).
      exists k, (mkQueue i 0 c). split_and!; try done; simpl.
      * by eapply lookup_lt_Some.
      * by apply HP.
    + exact (assign_role_uncovered handlesPresent proj_present present_assign
               (fun a b => proj2 (proj2 (union_roles a b))) eq_refl plan
               (None, None, None) Hp).
Qed.

(** Once the running total holds every role, the greedy pass records
    nothing more. *)
Lemma greedy_saturated (l : list (nat * QC)) (acc : list (nat * QC)) :
  foldl greedyStep (acc, QueueCapabilities.mk true true true) l
  = (acc, QueueCapabilities.mk true true true).
Proof.
  induction l as [|q l IH]; simpl; [done|].
  replace (greedyStep (acc, QueueCapabilities.mk true true true) q)
    with (acc, QueueCapabilities.mk true true true); [done|].
  unfold greedyStep. destruct q as [i [[] [] []]]; done.
Qed.

(** When some family has all three roles, the plan is a single entry, with
    all three roles, on such a family. *)
Lemma plan_single (pd : PhysicalDevice) (i : nat) (flags : Z) :
  getQueueFamilyProperties pd !! i = Some flags ->
  handlesEverything (capabilitiesOf pd i flags) = true ->
  exists j flags',
    findBestQueueFamilyIndices sort pd = [(j, QueueCapabilities.mk true true true)]
    /\ getQueueFamilyProperties pd !! j = Some flags'
    /\ capabilitiesOf pd j flags' = QueueCapabilities.mk true true true.
Proof using sort_ok.
  intros Hi Hev.
  assert (Hin : (i, capabilitiesOf pd i flags) ∈ sort (queueFamilieScores pd)).
  { rewrite (sort_perm sort sort_ok). unfold queueFamilieScores.
    apply elem_of_lookup_imap. by exists i, flags. }
  pose proof (sort_sorted sort sort_ok (queueFamilieScores pd)) as Hsorted.
  unfold findBestQueueFamilyIndices, greedy, sortedQueueFamilieScores.
  destruct (sort (queueFamilieScores pd)) as [|h tl] eqn:E.
  { by apply elem_of_nil in Hin. }
  assert (Hh : h.2 = QueueCapabilities.mk true true true).
  { apply StronglySorted_inv in Hsorted as [_ Hall].
    rewrite Forall_forall in Hall.
    apply elem_of_cons in Hin as [<-|Hin].
    - simpl. destruct (capabilitiesOf pd i flags) as [[] [] []]; done.
    - specialize (Hall _ Hin). simpl in Hall.
      destruct (capabilitiesOf pd i flags) as [[] [] []]; try done.
      destruct h as [? [[] [] []]]; vm_compute in Hall; try done;
        by destruct Hall. }
  assert (Hhin : h ∈ queueFamilieScores pd).
  { rewrite <-(sort_perm sort sort_ok), E. by left. }
  apply elem_of_lookup_imap_1 in Hhin as (j & flags' & Hheq & Hj).
  exists j, flags'. subst h. simpl in Hh. split_and!; try done.
  simpl. rewrite Hh. simpl.
  by rewrite greedy_saturated.
Qed.

(** X7: when the device was not rejected and one of its queue families has
    the graphics and compute bits and supports the surface,
    [initializeDevice] asks for a single queue, on a family with all three
    roles, and [graphicQueue], [presentQueue] and [computeQueue] are the
    same queue object. *)
Theorem initializeDevice_shared_queue (pd : PhysicalDevice) (i : nat) (flags : Z) :
  (0 <= (DeviceObject.score sort (new pd)).1)%Z ->
  getQueueFamilyProperties pd !! i = Some flags ->
  handlesEverything (capabilitiesOf pd i flags) = true ->
  let d := initializeDevice (DeviceObject.score sort (new pd)).2 in
  exists j flags',
    getQueueFamilyProperties pd !! j = Some flags'
    /\ capabilitiesOf pd j flags' = QueueCapabilities.mk true true true
    /\ createDeviceCalls d = [[mkQueueCreateInfo j 1]]
    /\ graphicQueue d = Some (0, mkQueue j 0 (QueueCapabilities.mk true true true))
    /\ presentQueue d = graphicQueue d
    /\ computeQueue d = graphicQueue d.
Proof using sort_ok.
  intros Hs Hi Hev d. subst d.
  destruct (score_new pd Hs)
    as (Hplan & _ & _ & _ & Hc & Hg & Hpq & Hcq & _ & _ & _).
  destruct (plan_single pd i flags Hi Hev) as (j & flags' & Hsingle & Hj & Hcap).
  exists j, flags'.
  rewrite initializeDevice_fields, Hplan, Hc, Hg, Hpq, Hcq, Hsingle. simpl.
  by split_and!.
Qed.

End WithSort.

(** *** Attaching and detaching windows *)

Lemma lastSetDevice_snoc (calls : list (nat * DeviceArg)) (c : nat * DeviceArg)
    (window : nat) :
  lastSetDevice (calls ++ [c]) window
  = if decide (c.1 = window) then Some c.2 else lastSetDevice calls window.
Proof. unfold lastSetDevice. by rewrite foldl_app. Qed.

Section Attach.
Variable sort : list (nat * QC) -> list (nat * QC).
Variable pd : PhysicalDevice.

(** What holds of the device object between calls of [add] and [remove]. *)
Lemma attach_invariant (ops : list Op) :
  let d0 := (DeviceObject.score sort (new pd)).2 in
  let d := foldl step d0 ops in
  let infos := map (fun q => mkQueueCreateInfo q.1 1)
                   (queueFamilyIndicesAndCapabilities (device d0)) in
  device d = device d0
  /\ ((intrinsic d = None /\ createDeviceCalls d = [] /\ state d = NO_DEVICE
       /\ windows d = ∅ /\ Forall (fun op => exists w, op = Remove w) ops)
      \/ (intrinsic d = Some infos /\ createDeviceCalls d = [infos]
          /\ state d = READY_TO_DRAW /\ Exists (fun op => exists w, op = Add w) ops))
  /\ (forall w, w ∈ windows d <-> lastSetDevice (setDeviceCalls d) w = Some This).
Proof.
  intros d0 d infos. subst d infos.
  induction ops as [|op ops IH] using rev_ind.
  - simpl. split_and!; [done|left; by split_and!|].
    intros w. split; [|done]. intros H. by apply elem_of_empty in H.
  - rewrite foldl_app. simpl.
    destruct IH as (Hdev & Hcases & Hwin).
    set (d := foldl step d0 ops) in *.
    destruct op as [w|w]; simpl.
    + (* add *)
      unfold add.
      destruct Hcases as [(Hi & Hc & Hst & Hw & Hall)|(Hi & Hc & Hst & Hex)].
      * rewrite Hi, initializeDevice_fields. simpl. rewrite Hdev, Hc. simpl.
        split_and!; [done| |].
        -- right. split_and!; try done. apply Exists_app. right. left. by exists w.
        -- intros w'. rewrite lastSetDevice_snoc. simpl.
           rewrite elem_of_union, elem_of_singleton, Hwin.
           destruct (decide (w = w')) as [->|Hne]; [by split; [|left]|].
           split; [intros [->|H]; done|by right].
      * rewrite Hi. simpl. split_and!; [done| |].
        -- right. split_and!; try done. apply Exists_app. by left.
        -- intros w'. rewrite lastSetDevice_snoc. simpl.
           rewrite elem_of_union, elem_of_singleton, Hwin.
           destruct (decide (w = w')) as [->|Hne]; [by split; [|left]|].
           split; [intros [->|H]; done|by right].
    + (* remove *)
      unfold remove. simpl. split_and!; [done| |].
      * destruct Hcases as [(Hi & Hc & Hst & Hw & Hall)|(Hi & Hc & Hst & Hex)].
        -- left. split_and!; try done.
           ++ rewrite Hw. apply set_eq. intros x. rewrite elem_of_difference.
              split; [by intros [? _]|]. intros Hx. by apply elem_of_empty in Hx.
           ++ apply Forall_app. split; [done|]. repeat constructor. by exists w.
        -- right. split_and!; try done. apply Exists_app. by left.
      * intros w'. rewrite lastSetDevice_snoc. simpl.
        rewrite elem_of_difference, elem_of_singleton, Hwin.
        destruct (decide (w = w')) as [->|Hne];
          [split; [intros [_ Hn]; done|intros Hn; done]|].
        split; [by intros [? _]|]. intros H. split; [done|congruence].
Qed.

(** X8: whatever windows are attached to and detached from a scored, freshly
    constructed device object, and in whatever order: [createDevice] is
    called at most once, by the first [add], and the logical device is kept
    when the last window leaves; [score]'s results are not touched; a window
    is in [windows] exactly when the latest [setDevice] call made on it
    passed [this]; and [frameUpdate], when it gets the lock, reaches every
    attached window. *)
Theorem add_remove_invariant (ops : list Op) :
  let d0 := (DeviceObject.score sort (new pd)).2 in
  let d := foldl step d0 ops in
  device d = device d0
  /\ length (createDeviceCalls d)
     = (if existsb (fun op => match op with Add _ => true | Remove _ => false end) ops
        then 1 else 0)
  /\ (is_Some (intrinsic d) <-> createDeviceCalls d <> [])
  /\ (forall w, w ∈ windows d <-> lastSetDevice (setDeviceCalls d) w = Some This)
  /\ frameUpdate true d = windows d.
Proof.
  intros d0 d. subst d.
  destruct (attach_invariant ops) as (Hdev & Hcases & Hwin).
  fold d0 in Hdev, Hcases, Hwin.
  set (d := foldl step d0 ops) in *.
  split_and!; [done| | |done|].
  - destruct Hcases as [(Hi & Hc & Hst & Hw & Hall)|(Hi & Hc & Hst & Hex)].
    + rewrite Hc. simpl.
      replace (existsb _ ops) with false; [done|].
      symmetry. apply not_true_is_false. intros H.
      apply existsb_exists in H as (op & Hop & Hadd).
      rewrite Forall_forall in Hall.
      apply list_elem_of_In in Hop. destruct (Hall _ Hop) as [w ->]. done.
    + rewrite Hc. simpl.
      replace (existsb _ ops) with true; [done|].
      symmetry. apply existsb_exists.
      apply Exists_exists in Hex as (op & Hop & w & ->).
      exists (Add w). split; [by apply list_elem_of_In|done].
  - destruct Hcases as [(Hi & Hc & Hst & Hw & Hall)|(Hi & Hc & Hst & Hex)];
      rewrite Hi, Hc.
    + split; [intros [? ?]; done|intros Hn; done].
    + split; [done|by eexists].
  - unfold frameUpdate.
    destruct Hcases as [(Hi & Hc & Hst & Hw & Hall)|(Hi & Hc & Hst & Hex)];
      rewrite Hst; done.
Qed.

End Attach.

End DeviceObjectFacts.

Module DeviceObjectWitnesses.
Import QueueCapabilities Device Scoring DeviceObject DeviceObjectFacts.

Lemma initializeDevice_queues_witness :
  state (initializeDevice (DeviceObject.score stable (new pd_split)).2) = READY_TO_DRAW
  /\ exists k q,
       presentQueue (initializeDevice (DeviceObject.score stable (new pd_split)).2)
       = Some (k, q)
       /\ getSurfaceSupportKHR pd_split (familyIndex q) = true.
Proof.
  assert (Hs : (0 <= (DeviceObject.score stable (new pd_split)).1)%Z).
  { vm_compute. discriminate. }
  pose proof (initializeDevice_queues stable SortsFacts.stable_sort_ok pd_split Hs) as H.
  cbv zeta in H. destruct H as (_ & _ & _ & Hp & Hst).
  split; [exact Hst|].
  assert (Hpos : (0 <? (DeviceObject.score stable (new pd_split)).1)%Z = true).
  { vm_compute. reflexivity. }
  rewrite Hpos in Hp. destruct Hp as (k & q & Hq & _ & _ & Hsup).
  by exists k, q.
Defined.

Lemma initializeDevice_shared_queue_witness :
  exists j,
    createDeviceCalls (initializeDevice (DeviceObject.score stable (new pd_unified)).2)
    = [[mkQueueCreateInfo j 1]].
Proof.
  assert (Hs : (0 <= (DeviceObject.score stable (new pd_unified)).1)%Z).
  { vm_compute. discriminate. }
  pose proof (initializeDevice_shared_queue stable SortsFacts.stable_sort_ok
                pd_unified 0 3%Z Hs eq_refl eq_refl) as H.
  cbv zeta in H. destruct H as (j & flags' & _ & _ & Hc & _).
  by exists j.
Defined.

End DeviceObjectWitnesses.

(** ** Windows *)

Module WindowFacts.
Import Window_base.

Section Override.
Variable teardown : State * option nat -> State * option nat.

Lemma setDevice_fields (a : option nat) (w : t) :
  device (setDevice teardown a w) = a
  /\ teardowns (setDevice teardown a w)
     = teardowns w + match device w with Some _ => 1 | None => 0 end
  /\ state (setDevice teardown a w)
     = match device w with
       | Some _ => (teardown (DeviceLost, device w)).1
       | None => state w
       end.
Proof. unfold setDevice. destruct (device w); simpl; split_and!; try done; lia. Qed.

(** X9: a run of [setDevice] calls on a window, whatever the override of
    [teardown()] does to the window.  The window ends on the device passed
    last, and [teardown()] has been called once for every call that found a
    device attached, whether that call passed a device or [nullptr].  When
    no call found a device attached the state is as it was.  When the
    override leaves the state alone, the window is DeviceLost as soon as
    one call has found a device attached, and no later [setDevice] changes
    that. *)
Theorem setDevice_sequence (args : list (option nat)) (w : t) :
  let w' := foldl (fun w a => setDevice teardown a w) w args in
  let found := removelast (device w :: args) in
  device w' = default (device w) (last args)
  /\ teardowns w' = teardowns w + length (omap id found)
  /\ (omap id found = [] -> state w' = state w)
  /\ ((forall st d, (teardown (st, d)).1 = st) ->
      omap id found <> [] -> state w' = DeviceLost).
Proof.
  revert w. induction args as [|a args IH]; intros w; cbv zeta.
  { simpl. split_and!; try done. }
  cbn [foldl]. cbv zeta in IH.
  destruct (IH (setDevice teardown a w)) as (Hd & Ht & Hs & Hl).
  destruct (setDevice_fields a w) as (Hd1 & Ht1 & Hs1).
  rewrite Hd, Ht, Hd1, Ht1 in *.
  change (removelast (device w :: a :: args))
    with (device w :: removelast (a :: args)).
  revert Hs Hl. generalize (removelast (a :: args)). intros found Hs Hl.
  split_and!.
  - rewrite last_cons. by destruct (last args).
  - destruct (device w); cbn [omap list_omap id length]; lia.
  - destruct (device w) eqn:E; cbn [omap list_omap id]; [done|].
    intros Hnone. rewrite (Hs Hnone), Hs1. done.
  - intros Hkeep Hsome.
    destruct (decide (omap id found = [])) as [Hnone|Hfound].
    + rewrite (Hs Hnone), Hs1.
      destruct (device w) eqn:E; [apply Hkeep|].
      cbn [omap list_omap id] in Hsome. done.
    + by apply Hl.
Qed.

End Override.
End WindowFacts.

(** ** Device selection, continued *)

Module SelectionMore.
Import Device Scoring Instance_base SelectionFacts.

(** The selection loop, started as [findBestDeviceForWindow] starts it, on
    entries none of which scores below -1: it holds a device exactly when
    there was an entry, and then the last entry that has the greatest
    score. *)
Lemma select_result (es : list (nat * Z)) :
  Forall (fun e => (-1 <= e.2)%Z) es ->
  let r := foldl selectStep ((-1)%Z, None) es in
  Forall (fun e => (e.2 <= r.1)%Z) es
  /\ (-1 <= r.1)%Z
  /\ match r.2 with
     | None => es = [] /\ r.1 = (-1)%Z
     | Some i => exists k, es !! k = Some (i, r.1)
                   /\ forall k' e, es !! k' = Some e -> k < k' -> (e.2 < r.1)%Z
     end.
Proof.
  induction es as [|[i s] es IH] using rev_ind; intros Hall r; subst r.
  - simpl. by split_and!.
  - apply Forall_app in Hall as [Hall Hs].
    apply Forall_inv in Hs. simpl in Hs.
    specialize (IH Hall). cbv zeta in IH. destruct IH as (Hle & Hge & Hsel).
    rewrite foldl_app. simpl.
    destruct (foldl selectStep ((-1)%Z, None) es) as [b o]. simpl in *.
    destruct (b <=? s)%Z eqn:E; simpl;
      [apply Z.leb_le in E|apply Z.leb_gt in E].
    + split_and!.
      * apply Forall_app. split; [|by repeat constructor].
        eapply Forall_impl; [exact Hle|]. intros e He. simpl in *. lia.
      * lia.
      * exists (length es). split; [by apply list_lookup_middle|].
        intros k' e Hk' Hlt. apply lookup_lt_Some in Hk'.
        rewrite length_app in Hk'. simpl in Hk'. lia.
    + split_and!.
      * apply Forall_app. split; [done|]. repeat constructor. simpl. lia.
      * done.
      * destruct o as [j|]; [|destruct Hsel as [_ ->]; exfalso; lia].
        destruct Hsel as (k & Hk & Hlater).
        exists k. split; [by apply lookup_app_l_Some|].
        intros k' e Hk' Hlt.
        destruct (decide (k' < length es)) as [Hin|Hout].
        -- rewrite lookup_app_l in Hk' by done. by eapply Hlater.
        -- rewrite lookup_app_r in Hk' by lia.
           destruct (k' - length es) as [|m] eqn:Em; simpl in Hk'; [|done].
           injection Hk' as <-. simpl. lia.
Qed.

Section WithSort.
Variable sort : list (nat * QC) -> list (nat * QC).

Lemma score_ge (d : t) : (-1 <= (score sort d).1)%Z.
Proof.
  destruct (ScoreMore.score_outcome sort d)
    as [[_ H]|[(_ & _ & H)|[(_ & _ & _ & H)|(_ & _ & _ & H & _)]]];
    try rewrite H; simpl; lia.
Qed.

(** X11: what [findBestDeviceForWindow] returns.  It is [nullptr] exactly
    when every candidate (if any) scores -1.  Otherwise it is a device of
    the list whose score is not negative, is the greatest of all, and is
    greater than that of every device enumerated after it.  In both cases
    every device has been scored, and is left as [score] leaves it. *)
Theorem findBestDeviceForWindow_result (devices : list t) :
  match (findBestDeviceForWindow sort devices).1 with
  | None => forall d, d ∈ devices -> (score sort d).1 = (-1)%Z
  | Some i =>
      exists d, devices !! i = Some d
        /\ (0 <= (score sort d).1)%Z
        /\ (forall d', d' ∈ devices -> ((score sort d').1 <= (score sort d).1)%Z)
        /\ (forall j dj, devices !! j = Some dj -> i < j ->
                         ((score sort dj).1 < (score sort d).1)%Z)
  end
  /\ (findBestDeviceForWindow sort devices).2 = map (fun d => (score sort d).2) devices.
Proof.
  unfold findBestDeviceForWindow. rewrite scored_entries.
  set (es := imap (fun i d => (i, (score sort d).1)) devices).
  assert (Hes : Forall (fun e => (-1 <= e.2)%Z) es).
  { apply Forall_forall. intros e He.
    apply elem_of_lookup_imap_1 in He as (j & dj & -> & _). apply score_ge. }
  pose proof (select_result es Hes) as H. cbv zeta in H.
  destruct H as (Hle & Hge & Hsel).
  assert (Hmax : forall d', d' ∈ devices ->
            ((score sort d').1 <= (foldl selectStep ((-1)%Z, None) es).1)%Z).
  { intros d' Hd'. apply list_elem_of_lookup in Hd' as [j Hj].
    rewrite Forall_forall in Hle.
    apply (Hle (j, (score sort d').1)).
    apply elem_of_lookup_imap. by exists j, d'. }
  destruct (foldl selectStep ((-1)%Z, None) es) as [b o]. simpl in *.
  split; [|by rewrite map_map].
  destruct (b =? -1)%Z eqn:E.
  - apply Z.eqb_eq in E. subst b. intros d Hd.
    pose proof (Hmax d Hd). pose proof (score_ge d). lia.
  - apply Z.eqb_neq in E.
    destruct o as [i|]; [|by destruct Hsel as [_ ->]].
    destruct Hsel as (k & Hk & Hlater).
    apply list_lookup_imap_Some in Hk as (d & Hd & Heq).
    injection Heq as -> ->.
    exists d. split_and!; [done|lia|done|].
    intros j dj Hj Hlt.
    apply (Hlater j (j, (score sort dj).1)); [|done].
    apply list_lookup_imap_Some. by exists dj.
Qed.

(** X12: selection settles in one run.  Run again on the devices as the
    first run left them, it returns the same device and leaves every device
    as it is. *)
Theorem findBestDeviceForWindow_idempotent (devices : list t) :
  findBestDeviceForWindow sort (findBestDeviceForWindow sort devices).2
  = findBestDeviceForWindow sort devices.
Proof.
  assert (Hsnd : forall l, (findBestDeviceForWindow sort l).2
                           = map snd (map (score sort) l)).
  { intros l. unfold findBestDeviceForWindow. by destruct (foldl selectStep _ _). }
  apply injective_projections.
  - apply findBestDeviceForWindow_again.
  - rewrite !Hsnd, !map_map.
    apply map_ext. intros d. simpl. by rewrite ScoreMore.score_again.
Qed.

End WithSort.
End SelectionMore.

(** ** The pipeline's resources and frames *)

Module ResourceFacts.
Import Pipeline_vulkan Lifecycle PipelineFacts RenderFacts LifecycleFacts Resources.

Lemma created_fmap {A} (c : A -> Call) (f : A -> list handle) (l : list A) :
  (forall x, created (c x) = f x) -> (c <$> l) ≫= created = l ≫= f.
Proof.
  intros H. induction l as [|x l IH]; [done|].
  rewrite fmap_cons, !bind_cons. by rewrite H, IH.
Qed.

Lemma released_fmap {A} (c : A -> Call) (f : A -> list handle) (l : list A) :
  (forall x, released (c x) = f x) -> (c <$> l) ≫= released = l ≫= f.
Proof.
  intros H. induction l as [|x l IH]; [done|].
  rewrite fmap_cons, !bind_cons. by rewrite H, IH.
Qed.

Lemma bind_singleton {A} (l : list A) : l ≫= (fun x => [x]) = l.
Proof. induction l as [|x l IH]; [done|]. rewrite bind_cons. by rewrite IH. Qed.

Lemma bind_none {A B} (l : list A) : l ≫= (fun _ => @nil B) = [].
Proof. induction l as [|x l IH]; [done|]. by rewrite bind_cons, IH. Qed.

Lemma created_shaders (paths : list nat) (hs : list handle) :
  length paths = length hs ->
  zip_with createShaderModule paths hs ≫= created = hs
  /\ zip_with createShaderModule paths hs ≫= released = [].
Proof.
  revert hs. induction paths as [|p paths IH]; intros [|h hs] Hlen; try done.
  simpl in Hlen. destruct (IH hs) as [Hc Hr]; [lia|].
  cbn [zip_with]. rewrite !bind_cons, Hc, Hr. done.
Qed.

(** Seven blocks in reverse order. *)
Lemma Permutation_blocks {A} (a b c d e f g : list A) :
  g ++ f ++ e ++ d ++ c ++ b ++ a ≡ₚ a ++ b ++ c ++ d ++ e ++ f ++ g.
Proof.
  rewrite (Permutation_app_comm b a).
  rewrite (Permutation_app_comm c (a ++ b)).
  rewrite (Permutation_app_comm d ((a ++ b) ++ c)).
  rewrite (Permutation_app_comm e (((a ++ b) ++ c) ++ d)).
  rewrite (Permutation_app_comm f ((((a ++ b) ++ c) ++ d) ++ e)).
  rewrite (Permutation_app_comm g (((((a ++ b) ++ c) ++ d) ++ e) ++ f)).
  by rewrite <-!app_assoc.
Qed.

(** X13: [teardownForDeviceChange] always returns.  It releases every handle
    the pipeline object holds, each once, creates nothing, and empties the
    shader, vertex-buffer, command-buffer, valid-bit and semaphore vectors;
    [intrinsic] and [pipelineLayout] are left holding the handles just
    destroyed. *)
Theorem teardownForDeviceChange_releases (s : State) :
  exists s',
    teardownForDeviceChange s = Some (tt, s')
    /\ newCalls s s' ≫= released ≡ₚ held (this s)
    /\ newCalls s s' ≫= created = []
    /\ nextHandle s' = nextHandle s
    /\ this s' = mk (intrinsic (this s)) [] [] [] 0%N [] [] [] (renderPass (this s))
                    (pipelineLayout (this s)) (viewports (this s)) (scissors (this s)).
Proof.
  unfold teardownForDeviceChange. eexists. split.
  { erewrite run_bind by apply run_teardownPipeline.
    erewrite run_bind by apply run_teardownSemaphores.
    erewrite run_bind by apply run_teardownCommandBuffers.
    erewrite run_bind by apply run_teardownVertexBuffers.
    apply run_teardownShaders. }
  rewrite !after_after, PipelineClaims.newCalls_after.
  cbn [this after set_shaders set_vertexBuffers set_vertexBufferMemory
       set_commandBuffers set_commandBuffersValid set_renderFinishedSemaphores
       compose id intrinsic shaderModules shaderStages vertexBuffers vertexBufferMemory
       commandBuffers commandBuffersValid renderFinishedSemaphores renderPass
       pipelineLayout viewports scissors nextHandle].
  split_and!.
  - rewrite !bind_app.
    rewrite !(released_fmap _ (fun x => [x])) by done.
    rewrite !bind_singleton. cbn [mbind list_bind released app].
    rewrite ?app_nil_r. unfold held.
    apply (Permutation_blocks (shaderModules (this s)) (vertexBuffers (this s))
             [vertexBufferMemory (this s)] (commandBuffers (this s))
             (renderFinishedSemaphores (this s)) [pipelineLayout (this s)]
             [intrinsic (this s)]).
  - rewrite !bind_app.
    rewrite !(created_fmap _ (fun _ => [])) by done.
    by rewrite !bind_none.
  - simpl. lia.
  - done.
Qed.

(** X14: [buildForDeviceChange], given at least one image and counts that
    are [uint32_t] values, returns.  The handles the pipeline object then
    holds are exactly the ones the calls of this build returned, in the
    order they were made; nothing is released, so whatever the object held
    before is no longer referred to by it; every valid-bit is clear; and
    the pipeline is built for the image count if the window has that many
    framebuffers. *)
Theorem buildForDeviceChange_acquires (paths : list nat) (rp : handle) (e : Extent2D)
    (n : nat) (s : State) :
  0 < n -> UInt32.fits n -> UInt32.fits (length paths) ->
  exists s',
    buildForDeviceChange paths rp e n s = Some (tt, s')
    /\ newCalls s s' ≫= created = held (this s')
    /\ newCalls s s' ≫= released = []
    /\ commandBuffersValid (this s') = replicate n false
    /\ (n <= length (swapchainFramebuffers s) -> built n s').
Proof.
  intros Hpos Hn Hp. unfold buildForDeviceChange. eexists. split.
  { erewrite run_bind by apply run_buildShaders.
    erewrite run_bind by (by apply run_buildVertexBuffers).
    erewrite run_bind by (by apply run_buildCommandBuffers).
    erewrite run_bind by apply run_buildSemaphores.
    apply run_buildPipeline. simpl.
    unfold createShaderStages. by rewrite length_handles. }
  rewrite !after_after, PipelineClaims.newCalls_after.
  split_and!.
  - rewrite !bind_app.
    rewrite !(created_fmap _ (fun x => [x])) by done.
    rewrite !bind_singleton.
    rewrite (proj1 (created_shaders paths _ (eq_sym (length_handles _ _)))).
    unfold held. simpl. rewrite ?app_nil_r.
    by rewrite <-!app_assoc.
  - rewrite !bind_app.
    rewrite !(released_fmap _ (fun _ => [])) by done.
    rewrite !bind_none.
    by rewrite (proj2 (created_shaders paths _ (eq_sym (length_handles _ _)))).
  - done.
  - intros Hfb. unfold built, sized. simpl. unfold createShaderStages.
    rewrite !length_handles, length_replicate. done.
Qed.

(** *** Frames *)

Lemma submits_after (f : t -> t) (k : nat) (cs : list Call) (s : State) :
  submits (after f k cs s)
  = submits s + length (filter (fun c => is_submit c = true) cs).
Proof. unfold submits, after. simpl. by rewrite filter_app, length_app. Qed.

Lemma submits_recorded (p : t) (cb fb vb : handle) (sc : Rect2D) :
  filter (fun c => is_submit c = true) (recorded p cb fb vb sc) = []
  /\ filter (fun c => is_recording c = true) (recorded p cb fb vb sc) = [cmdBegin cb].
Proof. done. Qed.

Lemma trues_insert (v : list bool) (i : nat) :
  v !! i = Some false -> trues (<[i := true]> v) = S (trues v).
Proof.
  unfold trues. revert i. induction v as [|b v IH]; intros [|i] H; try done.
  - injection H as ->.
    change (<[0 := true]> (false :: v)) with (true :: v).
    rewrite filter_cons_True by done.
    by rewrite filter_cons_False by done.
  - change (<[S i := true]> (b :: v)) with (b :: <[i := true]> v).
    change ((b :: v) !! S i) with (v !! i) in H.
    destruct b.
    + rewrite !filter_cons_True by done. cbn [length]. by rewrite IH.
    + rewrite !filter_cons_False by done. by apply IH.
Qed.

Lemma lookup_insert_true (v : list bool) (i j : nat) :
  i < length v ->
  <[i := true]> v !! j = Some true <-> j = i \/ v !! j = Some true.
Proof.
  intros Hi. destruct (decide (j = i)) as [->|Hne].
  - rewrite list_lookup_insert_eq by done. split; [by left|done].
  - rewrite list_lookup_insert_ne by done. split; [by right|]. by intros [?|?].
Qed.

(** One frame: the state [render] leaves, by the valid-bit of the image. *)
Lemma run_render (n : nat) (s : State) (i : nat) (sem : handle) :
  built n s -> i < n ->
  exists (valid : bool) (sig : handle) (cs : list Call),
    commandBuffersValid (this s) !! i = Some valid
    /\ render i sem s
       = Some (sig, after (set_commandBuffersValid
                             (<[i := true]> (commandBuffersValid (this s)))) 0 cs s)
    /\ length (filter (fun c => is_recording c = true) cs) = (if valid then 0 else 1)
    /\ length (filter (fun c => is_submit c = true) cs) = 1.
Proof.
  intros Hbuilt Hi.
  destruct (built_lookups n s i Hbuilt Hi)
    as (valid & cb & sig & fb & vb & sc & Hv & Hcb & Hsig & Hfb & Hvb & Hsc).
  exists valid, sig. destruct valid.
  - exists [queueSubmit sem cb sig]. split_and!; try done.
    rewrite (run_render_valid i sem s cb sig) by done.
    do 2 f_equal. apply after_ext; [|done..]. simpl.
    rewrite list_insert_id by done. by destruct (this s).
  - exists (recorded (this s) cb fb vb sc ++ [queueSubmit sem cb sig]).
    split_and!; try done.
    by eapply run_render_invalid.
Qed.

Lemma run_renders (n : nat) (s : State) (frames : list (nat * handle)) :
  built n s ->
  Forall (fun frame => frame.1 < n) frames ->
  exists s',
    renders frames s = Some (tt, s')
    /\ built n s'
    /\ (forall i, commandBuffersValid (this s') !! i = Some true
                  <-> i ∈ frames.*1 \/ commandBuffersValid (this s) !! i = Some true)
    /\ recordings s' + trues (commandBuffersValid (this s))
       = recordings s + trues (commandBuffersValid (this s'))
    /\ submits s' = submits s + length frames
    /\ nextHandle s' = nextHandle s
    /\ this s' = set_commandBuffersValid (commandBuffersValid (this s')) (this s).
Proof.
  intros Hbuilt Hall. revert s Hbuilt.
  induction Hall as [|[i sem] frames Hi _ IH]; intros s Hbuilt.
  - exists s. split_and!; [done|done| |lia|simpl; lia|done|by destruct (this s)].
    intros i. split; [by right|]. intros [H|H]; [|done].
    by apply elem_of_nil in H.
  - simpl in Hi.
    destruct (run_render n s i sem Hbuilt Hi) as (valid & sig & cs & Hv & Hrun & Hrec & Hsub).
    pose proof Hbuilt as ((Hlv & _) & _).
    set (s1 := after (set_commandBuffersValid
                        (<[i := true]> (commandBuffersValid (this s)))) 0 cs s) in *.
    assert (Hb1 : built n s1).
    { apply built_after_valid; [done|]. by rewrite length_insert. }
    destruct (IH s1 Hb1) as (s' & Hruns & Hb' & Hbits & Hcount & Hsubs & Hnext & Hthis).
    exists s'. split_and!.
    + unfold renders. cbn [for_each].
      erewrite run_bind; [exact Hruns|].
      erewrite run_bind by exact Hrun. apply run_ret.
    + done.
    + intros j. rewrite Hbits. subst s1. simpl.
      rewrite lookup_insert_true by lia.
      rewrite elem_of_cons. tauto.
    + assert (Hr1 : recordings s1 = recordings s + (if valid then 0 else 1)).
      { subst s1. by rewrite recordings_after, Hrec. }
      assert (Ht1 : trues (commandBuffersValid (this s1))
                    = trues (commandBuffersValid (this s)) + (if valid then 0 else 1)).
      { subst s1. simpl. destruct valid.
        - rewrite list_insert_id by done. lia.
        - rewrite trues_insert by done. lia. }
      lia.
    + rewrite Hsubs. subst s1. rewrite submits_after, Hsub. simpl. lia.
    + rewrite Hnext. subst s1. simpl. lia.
    + rewrite Hthis at 1. subst s1. simpl. by destruct (this s).
Qed.

(** X15: any run of frames on a built pipeline, each for an image index
    within the built count.  Every [render] returns; each submits once;
    nothing is allocated and only valid-bits change in the pipeline object;
    a bit ends up set exactly when it was set before or its image was
    rendered; and the number of recordings made equals the number of bits
    that went from clear to set, so an image is recorded at most once
    however often it is rendered. *)
Theorem render_sequence (n : nat) (s : State) (frames : list (nat * handle)) :
  built n s ->
  Forall (fun frame => frame.1 < n) frames ->
  exists s',
    renders frames s = Some (tt, s')
    /\ built n s'
    /\ (forall i, commandBuffersValid (this s') !! i = Some true
                  <-> i ∈ frames.*1 \/ commandBuffersValid (this s) !! i = Some true)
    /\ recordings s' + trues (commandBuffersValid (this s))
       = recordings s + trues (commandBuffersValid (this s'))
    /\ submits s' = submits s + length frames
    /\ nextHandle s' = nextHandle s
    /\ this s' = set_commandBuffersValid (commandBuffersValid (this s')) (this s).
Proof. apply run_renders. Qed.

Lemma filter_ext_in {A} (P Q : A -> Prop) `{!forall x, Decision (P x)}
    `{!forall x, Decision (Q x)} (l : list A) :
  (forall x, x ∈ l -> (P x <-> Q x)) -> filter P l = filter Q l.
Proof.
  induction l as [|a l IH]; intros Hext; [done|].
  assert (Ha : P a <-> Q a) by (apply Hext; by left).
  assert (Hl : filter P l = filter Q l) by (apply IH; intros x Hx; apply Hext; by right).
  rewrite !filter_cons, Hl.
  destruct (decide (P a)), (decide (Q a)); tauto.
Qed.

(** The set bits, counted by position. *)
Lemma trues_seq (v : list bool) :
  trues v = length (filter (fun i => v !! i = Some true) (seq 0 (length v))).
Proof.
  unfold trues. induction v as [|b v IH] using rev_ind; [done|].
  rewrite length_app, Nat.add_1_r, seq_S, !filter_app, !length_app, IH. simpl.
  f_equal.
  - f_equal. apply filter_ext_in. intros i Hi.
    apply elem_of_seq in Hi. by rewrite lookup_app_l by lia.
  - rewrite !filter_cons, !filter_nil.
    rewrite list_lookup_middle by done.
    destruct b; [by rewrite !decide_True by done|].
    by rewrite !decide_False by done.
Qed.

Lemma trues_count (v : list bool) (l : list nat) :
  (forall i, v !! i = Some true <-> i ∈ l) -> trues v = length (remove_dups l).
Proof.
  intros Hbits. rewrite trues_seq. apply Permutation_length, NoDup_Permutation.
  - apply NoDup_filter, NoDup_seq.
  - apply NoDup_remove_dups.
  - intros i. rewrite list_elem_of_filter, elem_of_remove_dups, elem_of_seq, <-Hbits.
    split; [by intros [? _]|]. intros Hi. split; [done|].
    apply lookup_lt_Some in Hi. lia.
Qed.

Lemma trues_replicate (n : nat) : trues (replicate n false) = 0.
Proof.
  unfold trues. induction n as [|n IH]; [done|]. simpl.
  by rewrite filter_cons_False by done.
Qed.

(** X18: [invalidateCommandBuffers] on a built pipeline makes no call and
    allocates nothing; it clears every valid-bit.  In any run of frames that
    follows, every image rendered is recorded once, at its first frame: the
    recordings made number the distinct images rendered. *)
Theorem invalidate_then_render (n : nat) (s : State) (frames : list (nat * handle)) :
  built n s ->
  Forall (fun frame => frame.1 < n) frames ->
  exists s1 s',
    invalidateCommandBuffers s = Some (tt, s1)
    /\ calls s1 = calls s
    /\ nextHandle s1 = nextHandle s
    /\ commandBuffersValid (this s1) = replicate n false
    /\ renders frames s1 = Some (tt, s')
    /\ recordings s' = recordings s + length (remove_dups frames.*1).
Proof.
  intros Hbuilt Hall.
  pose proof Hbuilt as ((Hlv & _) & _).
  assert (Hb1 : built n (invalidated s)).
  { apply built_after_valid; [done|]. by rewrite length_replicate. }
  destruct (run_renders n (invalidated s) frames Hb1 Hall)
    as (s' & Hrun & _ & Hbits & Hcount & _).
  exists (invalidated s), s'.
  assert (Hv1 : commandBuffersValid (this (invalidated s)) = replicate n false).
  { simpl. by rewrite Hlv. }
  rewrite Hv1 in Hbits, Hcount. rewrite trues_replicate in Hcount.
  split_and!.
  - apply run_invalidate'.
  - simpl. by rewrite app_nil_r.
  - simpl. lia.
  - done.
  - done.
  - assert (Hr1 : recordings (invalidated s) = recordings s).
    { unfold invalidated. rewrite recordings_after. simpl. lia. }
    rewrite (trues_count (commandBuffersValid (this s')) frames.*1) in Hcount.
    + lia.
    + intros i. rewrite Hbits. split; [|by left].
      intros [?|Hi]; [done|]. by apply lookup_replicate in Hi as [? _].
Qed.

Lemma run_at_none {A B} (v : list A) (i : nat) (f : A -> M B) (s : State) :
  v !! i = None -> (at_ v i ≫= f) s = None.
Proof. intros H. unfold mbind, M_bind, at_. by rewrite H. Qed.

(** X16: on a built pipeline [render] returns exactly for the image indices
    within the built count; for any other index [validateCommandBuffer],
    and with it [render], does not return. *)
Theorem render_domain (n : nat) (s : State) (imageIndex : nat) (inputSemaphore : handle) :
  built n s ->
  (is_Some (render imageIndex inputSemaphore s) <-> imageIndex < n)
  /\ (n <= imageIndex -> validateCommandBuffer imageIndex s = None).
Proof.
  intros Hbuilt.
  assert (Hout : n <= imageIndex -> validateCommandBuffer imageIndex s = None).
  { intros Hge. destruct Hbuilt as ((Hlv & _) & _).
    assert (Hnone : commandBuffersValid (this s) !! imageIndex = None).
    { apply lookup_ge_None_2. lia. }
    unfold validateCommandBuffer.
    erewrite run_bind by apply run_get.
    by apply run_at_none. }
  split; [|done]. split.
  - intros [r Hr]. destruct (decide (imageIndex < n)) as [|Hge]; [done|].
    unfold render in Hr. rewrite run_bind_none in Hr; [done|]. apply Hout. lia.
  - intros Hi.
    destruct (run_render n s imageIndex inputSemaphore Hbuilt Hi)
      as (valid & sig & cs & _ & Hrun & _).
    rewrite Hrun. by eexists.
Qed.

(** X17: the first frame of an image after [buildForSwapchainChange].  The
    build leaves the pipeline built for the image count, and the next
    [render] of any image records its command buffer anew: for the render
    pass and the extent just given, on the image's framebuffer and vertex
    buffer, binding the pipeline object that this build created last; it
    then submits that command buffer. *)
Theorem render_after_swapchain_change (rp : handle) (e : Extent2D) (n : nat)
    (s : State) (imageIndex : nat) (inputSemaphore : handle) :
  UInt32.fits n ->
  UInt32.fits (length (shaderStages (this s))) ->
  n <= length (swapchainFramebuffers s) ->
  (n = length (commandBuffers (this s)) -> built n s) ->
  imageIndex < n ->
  exists (s1 s2 : State) (cb sig fb vb : handle),
    buildForSwapchainChange rp e n s = Some (tt, s1)
    /\ built n s1
    /\ commandBuffers (this s1) !! imageIndex = Some cb
    /\ renderFinishedSemaphores (this s1) !! imageIndex = Some sig
    /\ swapchainFramebuffers s !! imageIndex = Some fb
    /\ vertexBuffers (this s1) !! imageIndex = Some vb
    /\ last (newCalls s s1 ≫= created) = Some (intrinsic (this s1))
    /\ render imageIndex inputSemaphore s1 = Some (sig, s2)
    /\ newCalls s1 s2
       = [cmdReset cb; cmdBegin cb;
          cmdBeginRenderPass cb rp fb (mkRect (0%Z, 0%Z) e);
          cmdBindPipeline cb (intrinsic (this s1));
          cmdBindVertexBuffers cb [vb] [0%Z];
          drawInCommandBuffer cb; cmdEndRenderPass cb; cmdEnd cb;
          queueSubmit inputSemaphore cb sig].
Proof.
  intros Hn Hst Hfb Hsame Hi.
  set (s0 := if decide (n ≠ length (commandBuffers (this s))) then rebuilt n s else s).
  set (s1 := pipelineBuilt rp e (invalidated s0)).
  assert (Hrun : buildForSwapchainChange rp e n s = Some (tt, s1)).
  { apply run_buildForSwapchainChange; [intros _; lia|done..]. }
  assert (Hb1 : built n s1 /\ commandBuffersValid (this s1) = replicate n false
                /\ scissors (this s1) = [mkRect (0%Z, 0%Z) e]
                /\ renderPass (this s1) = rp
                /\ swapchainFramebuffers s1 = swapchainFramebuffers s
                /\ last (newCalls s s1 ≫= created) = Some (intrinsic (this s1))).
  { subst s1 s0.
    destruct (decide (n ≠ length (commandBuffers (this s)))) as [Hne|Heq].
    - unfold pipelineBuilt, invalidated, rebuilt.
      rewrite !after_after, PipelineClaims.newCalls_after.
      unfold built, sized, newVertexBuffers, newCommandBuffers, newSemaphores. simpl.
      rewrite ?length_handles, ?length_replicate.
      split_and!; try done.
      rewrite !bind_app. by rewrite last_app.
    - apply dec_stable in Heq. destruct (Hsame Heq) as ((Hv & Hc & Hs) & Hvb & _ & Hsc & _).
      unfold pipelineBuilt, invalidated.
      rewrite !after_after, PipelineClaims.newCalls_after.
      unfold built, sized. simpl. rewrite ?length_replicate, Hv.
      split_and!; try done. }
  destruct Hb1 as (Hb1 & Hvalid & Hsc & Hrp & Hfbs & Hlast).
  destruct (built_lookups n s1 imageIndex Hb1 Hi)
    as (valid & cb & sig & fb & vb & sc & Hv & Hcb & Hsig & Hfb' & Hvb & Hsc').
  assert (valid = false) as ->.
  { rewrite Hvalid, lookup_replicate_2 in Hv by done. by injection Hv. }
  assert (sc = mkRect (0%Z, 0%Z) e) as ->.
  { rewrite Hsc in Hsc'. by injection Hsc'. }
  eexists s1, _, cb, sig, fb, vb.
  split_and!; try done.
  - by rewrite <-Hfbs.
  - by eapply run_render_invalid.
  - rewrite PipelineClaims.newCalls_after. unfold recorded. by rewrite Hrp.
Qed.

End ResourceFacts.

Module ResourceWitnesses.
Import Pipeline_vulkan Lifecycle PipelineFacts RenderFacts LifecycleFacts Resources.
Import ResourceFacts.

Lemma s_rendered_built : built 3 s_rendered.
Proof. unfold built, sized. split_and!; vm_compute; first [reflexivity | lia]. Qed.

Lemma buildForDeviceChange_acquires_witness :
  exists s',
    buildForDeviceChange twoShaders 50%N (mkExtent 640 480) 3 s_init = Some (tt, s')
    /\ newCalls s_init s' ≫= created = held (this s').
Proof.
  destruct (buildForDeviceChange_acquires twoShaders 50%N (mkExtent 640 480) 3 s_init)
    as (s' & Hrun & Hheld & _); [lia|reflexivity|reflexivity|].
  exists s'. split; [exact Hrun|exact Hheld].
Defined.

Lemma render_sequence_witness :
  exists s',
    renders [(0, 70%N); (2, 71%N); (0, 72%N)] s_built = Some (tt, s')
    /\ submits s' = submits s_built + 3.
Proof.
  destruct (render_sequence 3 s_built [(0, 70%N); (2, 71%N); (0, 72%N)])
    as (s' & Hrun & _ & _ & _ & Hsub & _).
  - apply PipelineClaims.s_built_built.
  - repeat constructor; simpl; lia.
  - exists s'. split; [exact Hrun|exact Hsub].
Defined.

Lemma invalidate_then_render_witness :
  exists s1 s',
    invalidateCommandBuffers s_rendered = Some (tt, s1)
    /\ renders [(0, 70%N); (2, 71%N); (0, 72%N)] s1 = Some (tt, s')
    /\ recordings s' = recordings s_rendered + 2.
Proof.
  destruct (invalidate_then_render 3 s_rendered [(0, 70%N); (2, 71%N); (0, 72%N)])
    as (s1 & s' & Hinv & _ & _ & _ & Hrun & Hrec).
  - apply s_rendered_built.
  - repeat constructor; simpl; lia.
  - exists s1, s'. split_and!; [exact Hinv|exact Hrun|exact Hrec].
Defined.

Lemma render_domain_witness :
  is_Some (render 2 70%N s_built) /\ validateCommandBuffer 3 s_built = None.
Proof.
  destruct (render_domain 3 s_built 2 70%N PipelineClaims.s_built_built) as [Hdom _].
  destruct (render_domain 3 s_built 3 70%N PipelineClaims.s_built_built) as [_ Hout].
  split; [apply Hdom; lia|apply Hout; lia].
Defined.

Lemma render_after_swapchain_change_witness :
  exists s1 s2 sig,
    buildForSwapchainChange 51%N (mkExtent 800 600) 3 s_rendered = Some (tt, s1)
    /\ render 0 73%N s1 = Some (sig, s2).
Proof.
  destruct (render_after_swapchain_change 51%N (mkExtent 800 600) 3 s_rendered 0 73%N)
    as (s1 & s2 & cb & sig & fb & vb & Hrun & _ & _ & _ & _ & _ & _ & Hrender & _).
  - reflexivity.
  - vm_compute. reflexivity.
  - vm_compute. lia.
  - intros _. apply s_rendered_built.
  - lia.
  - exists s1, s2, sig. split; [exact Hrun|exact Hrender].
Defined.

End ResourceWitnesses.
